(** * The NCD process supervisor (ncd/ncd.c): model and verification

    A shallow embedding of the per-process state machine of [ncd.c]
    (the two cursors AP and FP, advance / wait / fight / retreat, the
    timer and module-instance callbacks), of the supervisor (signal
    handler, [terminate]) and of the command line handling of [main],
    followed by the properties proved about them.

    Conventions of the embedding:
    - [size_t] cursors and indices are [nat] (they are bounded by the
      length of the statements array); [btime_t] is [Z].
    - a [struct process_statement *ps] is the pair of its process and of
      its position [ps->i] in [p->statements]; writes through the pointer
      are in-place updates of that position.
    - a [struct process *p] held by a callback is the position of the
      process in the [processes] list at the time of the callback.
    - [ASSERT(c)] aborts the computation with [Fault AssertionFailed] when
      [c] is false; an array access outside the array is
      [Fault OutOfBounds].
    - the collaborators that are not part of ncd.c (module instances,
      values, the clock) are an oracle [env] given to each callback; a
      callback reads the clock as one value.
    - the reactor is the relation [reachable]: it runs one callback at a
      time, a timer callback only when the timer is set and due, and a
      timer that has fired is no longer set.
    - logging, and the log prefix of a statement, are not part of the
      state. *)

From stdpp Require Import base list strings numbers option.
From Stdlib Require Import ZArith Lia.

Open Scope Z_scope.
Open Scope nat_scope.

(** ** Results of computations that may hit an assertion *)

Inductive fault := AssertionFailed | OutOfBounds | NullPointer.

Inductive res (A : Type) :=
| Ret (a : A)
| Fault (f : fault).
Arguments Ret {A} a.
Arguments Fault {A} f.

#[export] Instance res_ret : MRet res := @Ret.
#[export] Instance res_bind : MBind res :=
  fun A B f m => match m with Ret a => f a | Fault e => Fault e end.

Definition ASSERT (b : bool) : res unit :=
  if b then Ret () else Fault AssertionFailed.

(** ** Data model *)

Inductive sstate := SSTATE_CHILD | SSTATE_ADULT | SSTATE_DYING | SSTATE_FORGOTTEN.

#[export] Instance sstate_eq_dec : EqDecision sstate.
Proof. solve_decision. Defined.

(** Modelled from the spec: [NCDValue] (ncd/NCDValue.h is not part of the
    sources): a value is a string or a list of values. *)
#[local] Unset Elimination Schemes.
Inductive NCDValue :=
| NCDValue_String (str : string)
| NCDValue_List (l : list NCDValue).
#[local] Set Elimination Schemes.

(** [struct argument_elem]: the tagged union [is_var] / [var] / [val]. *)
Inductive argument_elem :=
| arg_var (modname : string) (varname : option string)
| arg_val (val : NCDValue).

(** [struct statement]; [module] is the type name of the module and
    [first_arg] the linked list of arguments. *)
Record statement := {
  module : string;
  first_arg : list argument_elem;
  name : option string
}.

(** [struct process_statement].  [inst_args] is [Some l] while the list
    value is initialised and [None] once it is freed. *)
Record process_statement := {
  s : statement;
  state : sstate;
  have_error : bool;
  error_until : Z;
  inst_args : option (list NCDValue)
}.

(** [struct process]; [wait_timer] is [Some t] when the timer is set to
    fire at absolute time [t]. *)
Record process := {
  p_name : string;
  statements : list process_statement;
  ap : nat;
  fp : nat;
  wait_timer : option Z
}.

Definition num_statements (p : process) : nat := length (statements p).

(** The supervisor's globals: [terminating], [processes] and the exit
    request recorded by [BReactor_Quit]. *)
Record supervisor := {
  terminating : bool;
  processes : list process;
  quit : option Z
}.

(** Modelled from the spec: RETRY_TIME (ncd/ncd.h is not part of the
    sources), in milliseconds, "typical 5000". *)
Definition RETRY_TIME : Z := 5000.

(** The oracle of one callback: what the platform answers to the calls
    that the callback makes. *)
Record env := {
  (** the clock during the callback: the calls of [btime_gettime()] that
      one callback makes (in [process_statement_set_error] and in the
      test of [process_advance]) are given the same value *)
  btime_gettime : Z;
  (** [NCDModuleInst_GetVar] on the instance of slot [j]. *)
  NCDModuleInst_GetVar : nat -> string -> option NCDValue;
  (** does [NCDValue_InitCopy] succeed for the argument at position [k] *)
  NCDValue_InitCopy : nat -> bool;
  (** does [NCDValue_ListAppend] succeed for the argument at position [k] *)
  NCDValue_ListAppend : nat -> bool;
  (** does [NCDModuleInst_Init] succeed for slot [i] with these arguments *)
  NCDModuleInst_Init : nat -> list NCDValue -> bool;
  (** do the allocations of [process_new] and [statement_init] succeed *)
  malloc_ok : bool
}.

(** ** Field updates *)

Definition set_state (x : sstate) (ps : process_statement) : process_statement :=
  {| s := s ps; state := x; have_error := have_error ps;
     error_until := error_until ps; inst_args := inst_args ps |}.

Definition set_have_error (b : bool) (ps : process_statement) : process_statement :=
  {| s := s ps; state := state ps; have_error := b;
     error_until := error_until ps; inst_args := inst_args ps |}.

Definition set_error_until (t : Z) (ps : process_statement) : process_statement :=
  {| s := s ps; state := state ps; have_error := have_error ps;
     error_until := t; inst_args := inst_args ps |}.

Definition set_inst_args (a : option (list NCDValue)) (ps : process_statement)
  : process_statement :=
  {| s := s ps; state := state ps; have_error := have_error ps;
     error_until := error_until ps; inst_args := a |}.

Definition upd_stmt (i : nat) (f : process_statement -> process_statement)
  (p : process) : process :=
  {| p_name := p_name p; statements := alter f i (statements p);
     ap := ap p; fp := fp p; wait_timer := wait_timer p |}.

Definition set_ap (n : nat) (p : process) : process :=
  {| p_name := p_name p; statements := statements p;
     ap := n; fp := fp p; wait_timer := wait_timer p |}.

Definition set_fp (n : nat) (p : process) : process :=
  {| p_name := p_name p; statements := statements p;
     ap := ap p; fp := n; wait_timer := wait_timer p |}.

Definition set_timer (t : option Z) (p : process) : process :=
  {| p_name := p_name p; statements := statements p;
     ap := ap p; fp := fp p; wait_timer := t |}.

Definition set_processes (l : list process) (g : supervisor) : supervisor :=
  {| terminating := terminating g; processes := l; quit := quit g |}.

Definition set_process (k : nat) (p : process) (g : supervisor) : supervisor :=
  set_processes (<[k := p]> (processes g)) g.

Definition set_terminating (b : bool) (g : supervisor) : supervisor :=
  {| terminating := b; processes := processes g; quit := quit g |}.

(** [BReactor_Quit(&ss, code)] records the exit request. *)
Definition BReactor_Quit (code : Z) (g : supervisor) : supervisor :=
  {| terminating := terminating g; processes := processes g; quit := Some code |}.

Definition get_stmt (p : process) (i : nat) : res process_statement :=
  match statements p !! i with
  | Some ps => Ret ps
  | None => Fault OutOfBounds
  end.

Definition get_process (g : supervisor) (k : nat) : res process :=
  match processes g !! k with
  | Some p => Ret p
  | None => Fault OutOfBounds
  end.

Definition is_state (x : sstate) (ps : process_statement) : bool :=
  bool_decide (state ps = x).

(** ** process_assert_pointers *)

(** The loop "check AP". *)
Definition check_AP (p : process) : bool :=
  forallb
    (fun i =>
       match statements p !! i with
       | Some ps =>
           if i =? ap p - 1
           then is_state SSTATE_ADULT ps || is_state SSTATE_CHILD ps
           else is_state SSTATE_ADULT ps
       | None => false
       end)
    (seq 0 (ap p)).

(** The loop "check FP": [while (fp > 0 && statements[fp - 1].state ==
    SSTATE_FORGOTTEN) fp--]. *)
Fixpoint scan_FP (l : list process_statement) (n : nat) : nat :=
  match n with
  | 0 => 0
  | S m =>
      match l !! m with
      | Some ps => if is_state SSTATE_FORGOTTEN ps then scan_FP l m else n
      | None => n
      end
  end.

Definition process_assert_pointers (p : process) : res unit :=
  ASSERT (ap p <=? num_statements p);;
  ASSERT (ap p <=? fp p);;
  ASSERT (fp p <=? num_statements p);;
  ASSERT (check_AP p);;
  ASSERT (fp p =? scan_FP (statements p) (num_statements p)).

Definition process_assert (p : process) : res unit :=
  process_assert_pointers p.

(** [ASSERT(!(p->ap > 0) || p->statements[p->ap - 1].state == SSTATE_ADULT)] *)
Definition ASSERT_below_adult (p : process) : res unit :=
  if 0 <? ap p
  then ps ← get_stmt p (ap p - 1); ASSERT (is_state SSTATE_ADULT ps)
  else Ret ().

(** ** wait *)

Definition process_wait (p : process) : res process :=
  ASSERT (ap p =? fp p);;
  ASSERT_below_adult p;;
  ASSERT (ap p <? num_statements p);;
  ps ← get_stmt p (ap p);
  ASSERT (have_error ps);;
  let p' := set_timer (Some (error_until ps)) p in
  process_assert p';;
  Ret p'.

(** ** advance *)

Definition process_statement_set_error (E : env) (ps : process_statement)
  : res process_statement :=
  ASSERT (is_state SSTATE_FORGOTTEN ps);;
  Ret (set_error_until (btime_gettime E + RETRY_TIME)%Z (set_have_error true ps)).

(** The reasons for which [process_advance] jumps to [fail1], one per
    error message. *)
Inductive advance_error :=
| unknown_statement_name (modname : string) (varname : option string)
| failed_to_resolve_variable (modname real_varname : string)
| InitCopy_failed
| ListAppend_failed
| failed_to_initialize.

Definition name_is (modname : string) (rps : process_statement) : bool :=
  match name (s rps) with
  | Some n => String.eqb n modname
  | None => false
  end.

(** The loop "find referred-to statement"; the result is the final value
    of [i]: [0] when no statement matched, otherwise [rps] is
    [statements[i - 1]]. *)
Fixpoint find_referred (l : list process_statement) (modname : string) (i : nat)
  : res nat :=
  match i with
  | 0 => Ret 0
  | S j =>
      match l !! j with
      | Some rps => if name_is modname rps then Ret i else find_referred l modname j
      | None => Fault OutOfBounds
      end
  end.

(** The body of the argument loop up to the value [v] of the argument at
    position [k]. *)
Definition advance_arg (E : env) (p : process) (k : nat) (arg : argument_elem)
  : res (advance_error + NCDValue) :=
  match arg with
  | arg_var modname varname =>
      i ← find_referred (statements p) modname (ap p);
      if i =? 0 then Ret (inl (unknown_statement_name modname varname))
      else
        rps ← get_stmt p (i - 1);
        ASSERT (is_state SSTATE_ADULT rps);;
        let real_varname := default EmptyString varname in
        match NCDModuleInst_GetVar E (i - 1) real_varname with
        | Some v => Ret (inr v)
        | None => Ret (inl (failed_to_resolve_variable modname real_varname))
        end
  | arg_val val =>
      if NCDValue_InitCopy E k then Ret (inr val) else Ret (inl InitCopy_failed)
  end.

(** The loop "build arguments"; [acc] is the content of [ps->inst_args],
    which the model writes to the slot when the instance has been
    initialised. *)
Fixpoint advance_args (E : env) (p : process) (args : list argument_elem)
  (k : nat) (acc : list NCDValue) : res (advance_error + list NCDValue) :=
  match args with
  | [] => Ret (inr acc)
  | arg :: rest =>
      r ← advance_arg E p k arg;
      match r with
      | inl e => Ret (inl e)
      | inr v =>
          if NCDValue_ListAppend E k
          then advance_args E p rest (S k) (acc ++ [v])
          else Ret (inl ListAppend_failed)
      end
  end.

(** Arguments and instance initialisation of the statement at [AP]:
    everything between "init arguments list" and "set statement state
    CHILD". *)
Definition advance_try (E : env) (p : process) (ps : process_statement)
  : res (advance_error + list NCDValue) :=
  r ← advance_args E p (first_arg (s ps)) 0 [];
  match r with
  | inl e => Ret (inl e)
  | inr args =>
      if NCDModuleInst_Init E (ap p) args then Ret (inr args)
      else Ret (inl failed_to_initialize)
  end.

(** The label [fail1]; [NCDValue_Free(&ps->inst_args)] ends the list under
    construction, the accumulator of [advance_args]. *)
Definition advance_fail1 (E : env) (p : process) (ps : process_statement)
  : res process :=
  ps' ← process_statement_set_error E (set_inst_args None ps);
  process_wait (upd_stmt (ap p) (fun _ => ps') p).

Definition process_advance (E : env) (p : process) : res process :=
  ASSERT (ap p =? fp p);;
  ASSERT_below_adult p;;
  if ap p =? num_statements p then
    process_assert p;; Ret p
  else
    ps ← get_stmt p (ap p);
    if have_error ps && (btime_gettime E <? error_until ps)%Z then process_wait p
    else
      r ← advance_try E p ps;
      match r with
      | inr args =>
          let p1 :=
            upd_stmt (ap p)
              (fun ps => set_state SSTATE_CHILD (set_inst_args (Some args) ps)) p in
          let p2 := set_fp (fp p1 + 1) (set_ap (ap p1 + 1) p1) in
          process_assert p2;; Ret p2
      | inl _ => advance_fail1 E p ps
      end.

Definition process_wait_timer_handler (E : env) (p : process) : res process :=
  ASSERT (ap p =? fp p);;
  ASSERT_below_adult p;;
  ASSERT (ap p <? num_statements p);;
  ps ← get_stmt p (ap p);
  ASSERT (have_error ps);;
  process_advance E (upd_stmt (ap p) (set_have_error false) p).

(** ** fight, retreat, work *)

Definition process_fight (E : env) (p : process) : res process :=
  if ap p =? fp p then
    below_child ←
      (if 0 <? ap p
       then ps ← get_stmt p (ap p - 1); Ret (is_state SSTATE_CHILD ps)
       else Ret false);
    if negb below_child then process_advance E p else Ret p
  else
    match fp p with
    | 0 => Fault OutOfBounds
    | S i =>
        ps ← get_stmt p i;
        let p' :=
          if negb (is_state SSTATE_DYING ps)
          then upd_stmt i (set_state SSTATE_DYING) p
          else p in
        process_assert p';; Ret p'
    end.

Definition process_free (k : nat) (g : supervisor) : res supervisor :=
  p ← get_process g k;
  ASSERT (ap p =? 0);;
  ASSERT (fp p =? 0);;
  Ret (set_processes (delete k (processes g)) g).

Definition process_retreat (k : nat) (g : supervisor) : res supervisor :=
  p ← get_process g k;
  match fp p with
  | 0 =>
      g' ← process_free k g;
      Ret (match processes g' with [] => BReactor_Quit 1 g' | _ => g' end)
  | S i =>
      ps ← get_stmt p i;
      let p' :=
        if negb (is_state SSTATE_DYING ps) then
          let p1 := upd_stmt i (set_state SSTATE_DYING) p in
          if i <? ap p1 then set_ap i p1 else p1
        else p in
      process_assert p';;
      Ret (set_process k p' g)
  end.

Definition process_work (k : nat) (E : env) (g : supervisor) : res supervisor :=
  p ← get_process g k;
  process_assert_pointers p;;
  let p1 := set_timer None p in
  if terminating g then process_retreat k (set_process k p1 g)
  else
    p' ← process_fight E p1;
    Ret (set_process k p' g).

(** ** Callbacks of a module instance *)

(** The event codes that the [switch] of the event handler distinguishes
    (ncd/NCDModule.h is not part of the sources); the [switch] has no
    default case, every other code is [NCDMODULE_EVENT_other]. *)
Inductive module_event :=
| NCDMODULE_EVENT_UP
| NCDMODULE_EVENT_DOWN
| NCDMODULE_EVENT_DYING
| NCDMODULE_EVENT_other.

(** The part of the event handler before [process_work(p)]. *)
Definition instance_event_update (p : process) (i : nat) (event : module_event)
  : res process :=
  ps ← get_stmt p i;
  ASSERT (is_state SSTATE_CHILD ps || is_state SSTATE_ADULT ps);;
  match event with
  | NCDMODULE_EVENT_UP =>
      ASSERT (is_state SSTATE_CHILD ps);;
      Ret (upd_stmt i (set_state SSTATE_ADULT) p)
  | NCDMODULE_EVENT_DOWN =>
      ASSERT (is_state SSTATE_ADULT ps);;
      let p1 := upd_stmt i (set_state SSTATE_CHILD) p in
      Ret (if i + 1 <? ap p1 then set_ap (i + 1) p1 else p1)
  | NCDMODULE_EVENT_DYING =>
      ASSERT (is_state SSTATE_CHILD ps || is_state SSTATE_ADULT ps);;
      let p1 := upd_stmt i (set_state SSTATE_DYING) p in
      Ret (if i <? ap p1 then set_ap i p1 else p1)
  | NCDMODULE_EVENT_other => Ret p
  end.

Definition process_statement_instance_handler_event (k i : nat)
  (event : module_event) (E : env) (g : supervisor) : res supervisor :=
  p ← get_process g k;
  p1 ← instance_event_update p i event;
  process_work k E (set_process k p1 g).

(** The part of the died handler before [process_work(p)]; the loop
    "update FP" is [scan_FP] started at [p->fp]. *)
Definition instance_died_update (E : env) (p : process) (i : nat) (is_error : bool)
  : res process :=
  ps ← get_stmt p i;
  ASSERT (is_state SSTATE_CHILD ps || is_state SSTATE_ADULT ps
          || is_state SSTATE_DYING ps);;
  let ps1 := set_state SSTATE_FORGOTTEN (set_inst_args None ps) in
  ps2 ← (if is_error then process_statement_set_error E ps1
         else Ret (set_have_error false ps1));
  let p1 := upd_stmt i (fun _ => ps2) p in
  let p2 := if i <? ap p1 then set_ap i p1 else p1 in
  Ret (set_fp (scan_FP (statements p2) (fp p2)) p2).

Definition process_statement_instance_handler_died (k i : nat)
  (is_error : bool) (E : env) (g : supervisor) : res supervisor :=
  p ← get_process g k;
  p1 ← instance_died_update E p i is_error;
  process_work k E (set_process k p1 g).

(** ** The supervisor: terminate and the signal handler *)

(** The loop of [terminate] over [processes].  [n] processes remain to be
    visited and the next one is at position [k]; when [process_work] has
    freed the visited process the next one has moved to its position
    (a [LinkedList2Iterator] survives the removal of the current node). *)
Fixpoint terminate_loop (E : env) (n k : nat) (g : supervisor) : res supervisor :=
  match n with
  | 0 => Ret g
  | S n' =>
      g' ← process_work k E g;
      terminate_loop E n'
        (if length (processes g') <? length (processes g) then k else S k) g'
  end.

Definition terminate (E : env) (g : supervisor) : res supervisor :=
  ASSERT (negb (terminating g));;
  let g1 := set_terminating true g in
  match processes g1 with
  | [] => Ret (BReactor_Quit 1 g1)
  | _ => terminate_loop E (length (processes g1)) 0 g1
  end.

Definition signal_handler (E : env) (g : supervisor) : res supervisor :=
  if negb (terminating g) then terminate E g else Ret g.

(** ** Process construction *)

(** Modelled from the spec: the configuration AST of
    ncdconfig/NCDConfig.h, which is not part of the sources: an argument is
    a string literal or a dotted variable reference with at least one
    component; a statement has a dotted module name, arguments and an
    optional exported name; an interface is a named list of statements. *)
Inductive NCDConfig_arguments :=
| NCDCONFIG_ARG_STRING (str : string)
| NCDCONFIG_ARG_VAR (value : string) (next : list string).

Record NCDConfig_statements := {
  conf_names : list string;
  conf_args : list NCDConfig_arguments;
  conf_name : option string
}.

Record NCDConfig_interfaces := {
  if_name : string;
  if_statements : list NCDConfig_statements
}.

(** Modelled from the spec: [NCDConfig_concat_strings] joins the
    components of a dotted name. *)
Definition NCDConfig_concat_strings (l : list string) : string :=
  String.concat "." l.

Definition statement_init_arg (a : NCDConfig_arguments) : argument_elem :=
  match a with
  | NCDCONFIG_ARG_STRING str => arg_val (NCDValue_String str)
  | NCDCONFIG_ARG_VAR value next =>
      arg_var value
        (match next with
         | [] => None
         | _ => Some (NCDConfig_concat_strings next)
         end)
  end.

(** [ncd_modules] is the table of the module type names
    (ncd/modules/modules.h is not part of the sources).  The result is
    [None] when no module has the type name of the statement; the
    allocation failures of [statement_init] are decided with those of
    [process_new], by [malloc_ok]. *)
Definition statement_init (ncd_modules : list string) (conf : NCDConfig_statements)
  : option statement :=
  let module_name := NCDConfig_concat_strings (conf_names conf) in
  if existsb (String.eqb module_name) ncd_modules then
    Some {| module := module_name;
            first_arg := statement_init_arg <$> conf_args conf;
            name := conf_name conf |}
  else None.

(** A slot as [process_new] leaves it; [error_until] and [inst_args] are
    not initialised there, and are not read before they are written. *)
Definition new_statement (st : statement) : process_statement :=
  {| s := st; state := SSTATE_FORGOTTEN; have_error := false;
     error_until := 0; inst_args := None |}.

(** [process_new]; when an allocation or a [statement_init] fails,
    everything is freed again and the supervisor is unchanged. *)
Definition process_new (ncd_modules : list string) (conf : NCDConfig_interfaces)
  (E : env) (g : supervisor) : res supervisor :=
  if negb (malloc_ok E) then Ret g
  else
    match mapM (statement_init ncd_modules) (if_statements conf) with
    | None => Ret g
    | Some sts =>
        let p := {| p_name := if_name conf;
                    statements := new_statement <$> sts;
                    ap := 0; fp := 0; wait_timer := None |} in
        process_work (length (processes g)) E
          (set_processes (processes g ++ [p]) g)
    end.

(** ** The callbacks the reactor can run *)

Inductive event :=
| EV_wait_timer (k : nat)
| EV_instance_event (k i : nat) (ev : module_event)
| EV_instance_died (k i : nat) (is_error : bool)
| EV_signal.

(** Modelled from the spec: the reactor (system/BReactor.h is not part of
    the sources) runs one callback at a time, with the handler and the
    user pointer it was given; a timer that expires is no longer set when
    its handler runs. *)
Definition dispatch (e : event) (E : env) (g : supervisor) : res supervisor :=
  match e with
  | EV_wait_timer k =>
      p ← get_process g k;
      p' ← process_wait_timer_handler E (set_timer None p);
      Ret (set_process k p' g)
  | EV_instance_event k i ev => process_statement_instance_handler_event k i ev E g
  | EV_instance_died k i is_error =>
      process_statement_instance_handler_died k i is_error E g
  | EV_signal => signal_handler E g
  end.

Definition slot_state (g : supervisor) (k i : nat) : option sstate :=
  p ← processes g !! k; ps ← statements p !! i; Some (state ps).

(** The callbacks whose handler runs at time [btime_gettime E], when the
    previous callback ran at time [c].  Modelled from the spec, for the
    reactor (system/BReactor.h is not part of the sources): the clock
    does not go back, and a timer fires when it is set and its time has
    come.  For an instance, the states that the ASSERTs at the entry of
    its two handlers accept; the specification lets an instance report
    events also between Die and its death, when the slot is DYING: the
    event handler then stops at its first ASSERT, so that no state of the
    event loop comes from such a callback. *)
Definition enabled (c : Z) (e : event) (E : env) (g : supervisor) : bool :=
  bool_decide (c ≤ btime_gettime E)%Z &&
  match e with
  | EV_wait_timer k =>
      match processes g !! k with
      | Some p =>
          match wait_timer p with
          | Some t => bool_decide (t ≤ btime_gettime E)%Z
          | None => false
          end
      | None => false
      end
  | EV_instance_event k i NCDMODULE_EVENT_UP =>
      bool_decide (slot_state g k i = Some SSTATE_CHILD)
  | EV_instance_event k i NCDMODULE_EVENT_DOWN =>
      bool_decide (slot_state g k i = Some SSTATE_ADULT)
  | EV_instance_event k i _ =>
      bool_decide (slot_state g k i = Some SSTATE_CHILD)
      || bool_decide (slot_state g k i = Some SSTATE_ADULT)
  | EV_instance_died k i _ =>
      bool_decide (slot_state g k i = Some SSTATE_CHILD)
      || bool_decide (slot_state g k i = Some SSTATE_ADULT)
      || bool_decide (slot_state g k i = Some SSTATE_DYING)
  | EV_signal => true
  end.

Definition initial : supervisor :=
  {| terminating := false; processes := []; quit := None |}.

(** The states of [main] while it creates the processes, with the time of
    the last [process_new]. *)
Inductive startup (ncd_modules : list string) : Z -> supervisor -> Prop :=
| startup_initial c : startup ncd_modules c initial
| startup_process_new c g conf E g' :
    startup ncd_modules c g ->
    (c ≤ btime_gettime E)%Z ->
    process_new ncd_modules conf E g = Ret g' ->
    startup ncd_modules (btime_gettime E) g'.

(** The states of the supervisor between two callbacks of the event loop,
    with the time of the last callback. *)
Inductive reachable : Z -> supervisor -> Prop :=
| reachable_startup ncd_modules c g :
    startup ncd_modules c g -> reachable c g
| reachable_dispatch c g e E g' :
    reachable c g ->
    quit g = None ->
    enabled c e E g = true ->
    dispatch e E g = Ret g' ->
    reachable (btime_gettime E) g'.

(** ** The command line and [main] *)

Open Scope string_scope.

Definition LOGGER_STDOUT : Z := 1.
Definition LOGGER_SYSLOG : Z := 2.

(** The global [options]. *)
Record options := {
  help : bool;
  version : bool;
  logger : Z;
  logger_syslog_facility : string;
  logger_syslog_ident : string;
  loglevel : Z;
  loglevels : list Z;
  config_file : option string
}.

Definition set_help (b : bool) (o : options) : options :=
  {| help := b; version := version o; logger := logger o;
     logger_syslog_facility := logger_syslog_facility o;
     logger_syslog_ident := logger_syslog_ident o; loglevel := loglevel o;
     loglevels := loglevels o; config_file := config_file o |}.

Definition set_version (b : bool) (o : options) : options :=
  {| help := help o; version := b; logger := logger o;
     logger_syslog_facility := logger_syslog_facility o;
     logger_syslog_ident := logger_syslog_ident o; loglevel := loglevel o;
     loglevels := loglevels o; config_file := config_file o |}.

Definition set_logger (x : Z) (o : options) : options :=
  {| help := help o; version := version o; logger := x;
     logger_syslog_facility := logger_syslog_facility o;
     logger_syslog_ident := logger_syslog_ident o; loglevel := loglevel o;
     loglevels := loglevels o; config_file := config_file o |}.

Definition set_logger_syslog_facility (x : string) (o : options) : options :=
  {| help := help o; version := version o; logger := logger o;
     logger_syslog_facility := x;
     logger_syslog_ident := logger_syslog_ident o; loglevel := loglevel o;
     loglevels := loglevels o; config_file := config_file o |}.

Definition set_logger_syslog_ident (x : string) (o : options) : options :=
  {| help := help o; version := version o; logger := logger o;
     logger_syslog_facility := logger_syslog_facility o;
     logger_syslog_ident := x; loglevel := loglevel o;
     loglevels := loglevels o; config_file := config_file o |}.

Definition set_loglevel (x : Z) (o : options) : options :=
  {| help := help o; version := version o; logger := logger o;
     logger_syslog_facility := logger_syslog_facility o;
     logger_syslog_ident := logger_syslog_ident o; loglevel := x;
     loglevels := loglevels o; config_file := config_file o |}.

Definition set_loglevels (x : list Z) (o : options) : options :=
  {| help := help o; version := version o; logger := logger o;
     logger_syslog_facility := logger_syslog_facility o;
     logger_syslog_ident := logger_syslog_ident o; loglevel := loglevel o;
     loglevels := x; config_file := config_file o |}.

Definition set_config_file (x : option string) (o : options) : options :=
  {| help := help o; version := version o; logger := logger o;
     logger_syslog_facility := logger_syslog_facility o;
     logger_syslog_ident := logger_syslog_ident o; loglevel := loglevel o;
     loglevels := loglevels o; config_file := x |}.

(** What the program prints: [print_version], [print_help(name)] and the
    lines written to stderr. *)
Inductive output :=
| version_banner
| usage (name : string)
| stderr_line (msg : string).

(** The parts of the platform that [main] and [parse_arguments] call and
    that are not in ncd.c. *)
Record platform := {
  (** [#ifdef BADVPN_USE_WINAPI] *)
  BADVPN_USE_WINAPI : bool;
  BLOG_NUM_CHANNELS : nat;
  (** negative when the string is not a log level *)
  parse_loglevel : string -> Z;
  (** negative when the string is not a channel name *)
  BLogGlobal_GetChannelByName : string -> Z;
  BLog_InitSyslog : string -> string -> bool;
  (** negative on failure *)
  BSocket_GlobalInit : Z;
  BReactor_Init : bool;
  BProcessManager_Init : bool;
  BSignal_Init : bool;
  read_file : string -> option string;
  NCDConfigParser_Parse : string -> option (list NCDConfig_interfaces);
  (** the module table: the type name of each module and, when it has a
      [func_globalinit], whether that succeeds *)
  ncd_modules : list (string * option bool);
  (** the clock at [BTime_Init] *)
  BTime_Init : Z;
  (** the oracle of the [k]-th call of [process_new] *)
  process_new_env : nat -> env;
  (** the callbacks that the reactor has to deliver, in order *)
  reactor_events : list (event * env)
}.

(** The loop over [argv[i]], [i >= 1], of [parse_arguments]; [args] is
    what remains of [argv] from position [i].  The result is the line
    written to stderr when the function returns 0. *)
Fixpoint parse_arguments_loop (W : platform) (args : list string) (o : options)
  : string + options :=
  match args with
  | [] => inr o
  | arg :: rest =>
      if String.eqb arg "--help" then
        parse_arguments_loop W rest (set_help true o)
      else if String.eqb arg "--version" then
        parse_arguments_loop W rest (set_version true o)
      else if String.eqb arg "--logger" then
        match rest with
        | [] => inl (arg ++ ": requires an argument")
        | arg2 :: rest' =>
            if String.eqb arg2 "stdout" then
              parse_arguments_loop W rest' (set_logger LOGGER_STDOUT o)
            else if negb (BADVPN_USE_WINAPI W) && String.eqb arg2 "syslog" then
              parse_arguments_loop W rest' (set_logger LOGGER_SYSLOG o)
            else inl (arg ++ ": wrong argument")
        end
      else if negb (BADVPN_USE_WINAPI W) && String.eqb arg "--syslog-facility" then
        match rest with
        | [] => inl (arg ++ ": requires an argument")
        | arg2 :: rest' =>
            parse_arguments_loop W rest' (set_logger_syslog_facility arg2 o)
        end
      else if negb (BADVPN_USE_WINAPI W) && String.eqb arg "--syslog-ident" then
        match rest with
        | [] => inl (arg ++ ": requires an argument")
        | arg2 :: rest' =>
            parse_arguments_loop W rest' (set_logger_syslog_ident arg2 o)
        end
      else if String.eqb arg "--loglevel" then
        match rest with
        | [] => inl (arg ++ ": requires an argument")
        | arg2 :: rest' =>
            let o' := set_loglevel (parse_loglevel W arg2) o in
            if (loglevel o' <? 0)%Z then inl (arg ++ ": wrong argument")
            else parse_arguments_loop W rest' o'
        end
      else if String.eqb arg "--channel-loglevel" then
        match rest with
        | arg2 :: arg3 :: rest' =>
            let channel := BLogGlobal_GetChannelByName W arg2 in
            if (channel <? 0)%Z then inl (arg ++ ": wrong channel argument")
            else
              let loglevel := parse_loglevel W arg3 in
              if (loglevel <? 0)%Z then inl (arg ++ ": wrong loglevel argument")
              else
                parse_arguments_loop W rest'
                  (set_loglevels (<[Z.to_nat channel := loglevel]> (loglevels o)) o)
        | _ => inl (arg ++ ": requires two arguments")
        end
      else if String.eqb arg "--config-file" then
        match rest with
        | [] => inl (arg ++ ": requires an argument")
        | arg2 :: rest' => parse_arguments_loop W rest' (set_config_file (Some arg2) o)
        end
      else inl ("unknown option: " ++ arg)
  end.

(** The defaults set before the loop. *)
Definition default_options (W : platform) (argv0 : string) : options :=
  {| help := false; version := false; logger := LOGGER_STDOUT;
     logger_syslog_facility := "daemon"; logger_syslog_ident := argv0;
     loglevel := (-1)%Z;
     loglevels := replicate (BLOG_NUM_CHANNELS W) (-1)%Z;
     config_file := None |}.

(** [parse_arguments]: [inr] is the return value 1 with the options it
    has set, [inl] the return value 0 with the line written to stderr
    ([None] when [argc <= 0]). *)
Definition parse_arguments (W : platform) (argv : list string)
  : option string + options :=
  match argv with
  | [] => inl None
  | argv0 :: args =>
      match parse_arguments_loop W args (default_options W argv0) with
      | inl msg => inl (Some msg)
      | inr o =>
          if help o || version o then inr o
          else
            match config_file o with
            | None => inl (Some "--config-file is required")
            | Some _ => inr o
            end
      end
  end.

(** The loop "init processes" of [main]; [c] is the time of the last
    call of [process_new]. *)
Fixpoint init_processes (W : platform) (confs : list NCDConfig_interfaces)
  (k : nat) (c : Z) (g : supervisor) : res (Z * supervisor) :=
  match confs with
  | [] => Ret (c, g)
  | pc :: rest =>
      let E := process_new_env W k in
      g' ← process_new (ncd_modules W).*1 pc E g;
      init_processes W rest (S k) (btime_gettime E) g'
  end.

(** Modelled from the spec: [BReactor_Exec] (system/BReactor.h is not
    part of the sources): the reactor delivers the callbacks of [events],
    in order, until [BReactor_Quit] has been called; the result is [None]
    when the events are exhausted before that (the program is still
    running). *)
Fixpoint BReactor_Exec (events : list (event * env)) (g : supervisor)
  : res (option supervisor) :=
  match quit g with
  | Some _ => Ret (Some g)
  | None =>
      match events with
      | [] => Ret None
      | (e, E) :: rest => g' ← dispatch e E g; BReactor_Exec rest g'
      end
  end.

(** The loop "free processes" of [main], for the [n] processes left. *)
Fixpoint free_processes (n : nat) (g : supervisor) : res supervisor :=
  match n with
  | 0 => Ret g
  | S n' => g' ← process_free 0 g; free_processes n' g'
  end.

Definition exit (code : Z) (out : list output) : res (option (Z * list output)) :=
  Ret (Some (code, out)).

(** [main]: the exit code and what was printed, or [None] when the event
    loop has not returned. *)
Definition main (W : platform) (argv : list string)
  : res (option (Z * list output)) :=
  match argv with
  | [] => exit 1 []
  | argv0 :: _ =>
      match parse_arguments W argv with
      | inl msg =>
          exit 1 (match msg with Some m => [stderr_line m] | None => [] end
                  ++ [stderr_line "Failed to parse arguments"; usage argv0])
      | inr o =>
          if help o then exit 0 [version_banner; usage argv0]
          else if version o then exit 0 [version_banner]
          else
            logger_ok ←
              (if (logger o =? LOGGER_STDOUT)%Z then Ret true
               else if negb (BADVPN_USE_WINAPI W) && (logger o =? LOGGER_SYSLOG)%Z
               then Ret (BLog_InitSyslog W (logger_syslog_ident o)
                           (logger_syslog_facility o))
               else Fault AssertionFailed);
            if negb logger_ok
            then exit 1 [stderr_line "Failed to initialize syslog logger"]
            else if (BSocket_GlobalInit W <? 0)%Z then exit 1 []
            else if negb (BReactor_Init W) then exit 1 []
            else if negb (BProcessManager_Init W) then exit 1 []
            else if negb (BSignal_Init W) then exit 1 []
            else
              match config_file o with
              | None => Fault NullPointer
              | Some path =>
                  match read_file W path with
                  | None => exit 1 []
                  | Some file =>
                      match NCDConfigParser_Parse W file with
                      | None => exit 1 []
                      | Some configuration =>
                          if negb (forallb (fun m => default true m.2) (ncd_modules W))
                          then exit 1 []
                          else
                            '(_, g) ← init_processes W configuration 0
                                        (BTime_Init W) initial;
                            r ← BReactor_Exec (reactor_events W) g;
                            match r with
                            | None => Ret None
                            | Some g' =>
                                free_processes (length (processes g')) g';;
                                exit 1 []
                            end
                      end
                  end
              end
      end
  end.

Close Scope string_scope.

(** ** Invariants *)

(** The state of the slot at position [i], when there is one. *)
Definition sst (p : process) (i : nat) : option sstate :=
  state <$> statements p !! i.

Arguments sst : simpl never.
Arguments num_statements : simpl never.

(** What [process_assert_pointers] checks. *)
Record pointers_ok (p : process) : Prop := {
  po_ap_fp : ap p ≤ fp p;
  po_fp_num : fp p ≤ num_statements p;
  po_below : ∀ i, i + 1 < ap p → sst p i = Some SSTATE_ADULT;
  po_last : ∀ i, i + 1 = ap p →
    sst p i = Some SSTATE_ADULT ∨ sst p i = Some SSTATE_CHILD;
  po_above : ∀ i, fp p ≤ i → i < num_statements p →
    sst p i = Some SSTATE_FORGOTTEN;
  po_top : ∀ i, i + 1 = fp p → sst p i ≠ Some SSTATE_FORGOTTEN
}.

(** At time [c], the error of a slot that is not FORGOTTEN is one whose
    retry time has passed. *)
Definition errors_expired (c : Z) (p : process) : Prop :=
  ∀ i ps, statements p !! i = Some ps →
    have_error ps = true → state ps ≠ SSTATE_FORGOTTEN → (error_until ps ≤ c)%Z.

(** [!(p->ap > 0) || p->statements[p->ap - 1].state == SSTATE_ADULT] *)
Definition below_adult (p : process) : Prop :=
  ∀ i, i + 1 = ap p → sst p i = Some SSTATE_ADULT.

(** The invariant of a process between two callbacks, at time [c] and with
    [terminating] equal to [term]: the pointers are as asserted; below FP
    the last slot is DYING when AP < FP; the timer is set exactly when the
    process waits for the retry of the slot AP; while terminating the
    process is retreating. *)
Record process_inv (term : bool) (c : Z) (p : process) : Prop := {
  pi_pointers : pointers_ok p;
  pi_errors : errors_expired c p;
  pi_tail : ∀ i, ap p < fp p → i + 1 = fp p → sst p i = Some SSTATE_DYING;
  pi_timer : ∀ t, wait_timer p = Some t →
    term = false ∧ ap p = fp p ∧ below_adult p ∧
    ∃ ps, statements p !! ap p = Some ps ∧ have_error ps = true ∧ error_until ps = t;
  pi_waiting : term = false → ap p = fp p → ap p < num_statements p →
    below_adult p → wait_timer p ≠ None;
  pi_term : term = true → ap p < fp p
}.

(** The invariant of the supervisor: the one of each process, and the
    reactor is told to quit only when no process is left. *)
Record supervisor_inv (c : Z) (g : supervisor) : Prop := {
  si_processes : Forall (process_inv (terminating g) c) (processes g);
  si_quit : quit g = None ∨ processes g = []
}.

(** The states in which [process_advance] runs. *)
Record advance_pre (p : process) : Prop := {
  adv_pointers : pointers_ok p;
  adv_ap_fp : ap p = fp p;
  adv_below : below_adult p
}.

(** The slot written at [fail1]. *)
Definition failed_slot (E : env) (ps : process_statement) : process_statement :=
  set_error_until (btime_gettime E + RETRY_TIME)%Z
    (set_have_error true (set_inst_args None ps)).

(** What [process_work] on the process at position [k] does to the
    supervisor: the process is replaced by one that satisfies the
    invariant, or it has been freed. *)
Definition work_result (k : nat) (c : Z) (g g' : supervisor) : Prop :=
  terminating g' = terminating g ∧
  ((∃ p', processes g' = <[k:=p']> (processes g) ∧
          process_inv (terminating g) c p' ∧ quit g' = quit g) ∨
   (terminating g = true ∧ processes g' = delete k (processes g) ∧
    quit g' = match processes g' with [] => Some 1%Z | _ => quit g end)).

(** The states in which an instance may report [event]: the assertions
    at the entry of the event handler. *)
Definition event_allowed (event : module_event) (x : sstate) : Prop :=
  match event with
  | NCDMODULE_EVENT_UP => x = SSTATE_CHILD
  | NCDMODULE_EVENT_DOWN => x = SSTATE_ADULT
  | _ => x = SSTATE_CHILD ∨ x = SSTATE_ADULT
  end.

(** The slot written by the died handler. *)
Definition died_slot (E : env) (is_error : bool) (ps : process_statement)
  : process_statement :=
  let ps1 := set_state SSTATE_FORGOTTEN (set_inst_args None ps) in
  if is_error
  then set_error_until (btime_gettime E + RETRY_TIME)%Z (set_have_error true ps1)
  else set_have_error false ps1.

(** A process on which [process_work] has run while terminating and that
    is still there. *)
Definition retreating (p : process) : Prop :=
  wait_timer p = None ∧ ap p < fp p ∧ sst p (fp p - 1) = Some SSTATE_DYING.

(** The clock read by the successive calls of [process_new] does not go
    back. *)
Definition startup_clock_monotone (W : platform) : Prop :=
  (BTime_Init W ≤ btime_gettime (process_new_env W 0))%Z ∧
  ∀ k, (btime_gettime (process_new_env W k)
        ≤ btime_gettime (process_new_env W (S k)))%Z.

(** The values of [options.logger] that the [switch] of [main] handles. *)
Definition logger_valid (W : platform) (o : options) : Prop :=
  logger o = LOGGER_STDOUT ∨
  (BADVPN_USE_WINAPI W = false ∧ logger o = LOGGER_SYSLOG).

(** ** Executions *)

(** The startup of [main] on a list of configurations with their oracles,
    from time [c]: [None] when the clock would go back or a call faults. *)
Fixpoint run_startup (ncd_modules : list string)
  (l : list (NCDConfig_interfaces * env)) (c : Z) (g : supervisor)
  : option (Z * supervisor) :=
  match l with
  | [] => Some (c, g)
  | (conf, E) :: rest =>
      if bool_decide (c ≤ btime_gettime E)%Z then
        match process_new ncd_modules conf E g with
        | Ret g' => run_startup ncd_modules rest (btime_gettime E) g'
        | Fault _ => None
        end
      else None
  end.

(** The event loop on a list of callbacks: [None] when one of them cannot
    happen, faults, or comes after the reactor was told to quit. *)
Fixpoint run_events (l : list (event * env)) (c : Z) (g : supervisor)
  : option (Z * supervisor) :=
  match l with
  | [] => Some (c, g)
  | (e, E) :: rest =>
      match quit g with
      | Some _ => None
      | None =>
          if enabled c e E g then
            match dispatch e E g with
            | Ret g' => run_events rest (btime_gettime E) g'
            | Fault _ => None
            end
          else None
      end
  end.

Definition run (ncd_modules : list string) (l : list (NCDConfig_interfaces * env))
  (evs : list (event * env)) : option (Z * supervisor) :=
  '(c, g) ← run_startup ncd_modules l 0%Z initial; run_events evs c g.



(** ** A configuration used in examples: process [p] with the statements
    [a] and [b] of module [m], [b] with the argument [a.x]. *)

Definition ex_modules : list string := ["m"%string].

Definition ex_conf : NCDConfig_interfaces :=
  {| if_name := "p";
     if_statements :=
       [ {| conf_names := ["m"%string]; conf_args := []; conf_name := Some "a"%string |};
         {| conf_names := ["m"%string];
            conf_args := [NCDCONFIG_ARG_VAR "a" ["x"%string]];
            conf_name := Some "b"%string |} ] |}.

(** At time [t]: every variable [x] resolves to the string [v], and
    [NCDModuleInst_Init] succeeds when [init_ok]. *)
Definition ex_env (t : Z) (init_ok : bool) : env :=
  {| btime_gettime := t;
     NCDModuleInst_GetVar := fun _ v =>
       if String.eqb v "x" then Some (NCDValue_String "v") else None;
     NCDValue_InitCopy := fun _ => true;
     NCDValue_ListAppend := fun _ => true;
     NCDModuleInst_Init := fun _ _ => init_ok;
     malloc_ok := true |}.

Definition ex_run (evs : list (event * env)) : option (Z * supervisor) :=
  run ex_modules [(ex_conf, ex_env 0 true)] evs.

Definition ex_process (evs : list (event * env)) : option process :=
  '(_, g) ← ex_run evs; processes g !! 0.

(** [a] is up and [b] has been initialised. *)
Definition ex_both_alive : list (event * env) :=
  [(EV_instance_event 0 0 NCDMODULE_EVENT_UP, ex_env 1 true)].

(** [a] is up, the initialisation of [b] has failed at time 1, then [a]
    went down at time 2. *)
Definition ex_error_then_down : list (event * env) :=
  [(EV_instance_event 0 0 NCDMODULE_EVENT_UP, ex_env 1 false);
   (EV_instance_event 0 0 NCDMODULE_EVENT_DOWN, ex_env 2 true)].

(** ... and [a] came up again after the retry time of [b] had passed. *)
Definition ex_error_then_late_up : list (event * env) :=
  ex_error_then_down ++ [(EV_instance_event 0 0 NCDMODULE_EVENT_UP, ex_env 6000 true)].

(** Both instances are alive; the one of [a] reports that it is dying
    (which makes the supervisor order [b] to die) and has died, with an
    error, before the one of [b]. *)
Definition ex_first_dies : list (event * env) :=
  ex_both_alive ++
  [(EV_instance_event 0 0 NCDMODULE_EVENT_DYING, ex_env 2 true);
   (EV_instance_died 0 0 true, ex_env 3 true)].

(** [a] is up and the initialisation of [b] has failed at time 1. *)
Definition ex_waiting : list (event * env) :=
  [(EV_instance_event 0 0 NCDMODULE_EVENT_UP, ex_env 1 false)].

Definition ex_state (evs : list (event * env)) : Z * supervisor :=
  default (0%Z, initial) (ex_run evs).

Definition ex_proc (evs : list (event * env)) : process :=
  default {| p_name := ""; statements := []; ap := 0; fp := 0; wait_timer := None |}
    (ex_process evs).

Definition ex_slot (evs : list (event * env)) (i : nat) : process_statement :=
  default (new_statement {| module := ""; first_arg := []; name := None |})
    (statements (ex_proc evs) !! i).

(** A platform on which every initialisation succeeds and the
    configuration is [ex_conf]; the reactor delivers [evs]. *)
Definition ex_platform (evs : list (event * env)) : platform :=
  {| BADVPN_USE_WINAPI := false;
     BLOG_NUM_CHANNELS := 2;
     parse_loglevel := fun _ => (-1)%Z;
     BLogGlobal_GetChannelByName := fun _ => (-1)%Z;
     BLog_InitSyslog := fun _ _ => true;
     BSocket_GlobalInit := 0%Z;
     BReactor_Init := true;
     BProcessManager_Init := true;
     BSignal_Init := true;
     read_file := fun _ => Some ""%string;
     NCDConfigParser_Parse := fun _ => Some [ex_conf];
     ncd_modules := [("m"%string, None)];
     BTime_Init := 0%Z;
     process_new_env := fun _ => ex_env 0 true;
     reactor_events := evs |}.

(** [a] comes up, the signal arrives, the instances die in turn. *)
Definition ex_shutdown : list (event * env) :=
  ex_both_alive ++
  [(EV_signal, ex_env 2 true);
   (EV_instance_died 0 1 false, ex_env 3 true);
   (EV_instance_died 0 0 false, ex_env 4 true)].

(** Process [q] with the statements [A], [B], [C] without arguments. *)
Definition ex_conf3 : NCDConfig_interfaces :=
  {| if_name := "q";
     if_statements :=
       (fun n => {| conf_names := ["m"%string]; conf_args := []; conf_name := Some n |})
         <$> ["A"; "B"; "C"]%string |}.

(** The slot states, AP, FP and the timer of each process after a run, and
    the exit request. *)
Definition observe (r : option (Z * supervisor))
  : option (list (list sstate * nat * nat * option Z) * option Z) :=
  '(_, g) ← r;
  Some ((fun p => (state <$> statements p, ap p, fp p, wait_timer p)) <$> processes g,
        quit g).

Definition run3 (evs : list (event * env))
  : option (list (list sstate * nat * nat * option Z) * option Z) :=
  observe (run ex_modules [(ex_conf3, ex_env 0 true)] evs).

(** [A], [B] and [C] come up in turn. *)
Definition ex_all_up : list (event * env) :=
  [(EV_instance_event 0 0 NCDMODULE_EVENT_UP, ex_env 1 true);
   (EV_instance_event 0 1 NCDMODULE_EVENT_UP, ex_env 2 true);
   (EV_instance_event 0 2 NCDMODULE_EVENT_UP, ex_env 3 true)].

(** ** The steps of a callback *)

(** The process that [process_retreat] leaves, [None] when it frees it
    (the assertions aside). *)
Definition retreat_step (p : process) : option process :=
  match fp p with
  | 0 => None
  | S i =>
      match statements p !! i with
      | Some ps =>
          Some (if is_state SSTATE_DYING ps then p
                else
                  let p1 := upd_stmt i (set_state SSTATE_DYING) p in
                  if i <? ap p1 then set_ap i p1 else p1)
      | None => Some p
      end
  end.

(** The process that a successful [process_advance] leaves. *)
Definition advanced (args : list NCDValue) (p : process) : process :=
  set_fp (fp p + 1)
    (set_ap (ap p + 1)
       (upd_stmt (ap p)
          (fun ps => set_state SSTATE_CHILD (set_inst_args (Some args) ps)) p)).

(** The process that a failed [process_advance] leaves. *)
Definition advance_failed (E : env) (ps : process_statement) (p : process) : process :=
  set_timer (Some (btime_gettime E + RETRY_TIME)%Z)
    (upd_stmt (ap p) (fun _ => failed_slot E ps) p).

(** [BReactor_Quit] and the list of processes: the reactor is told to
    quit, with code 1, exactly when the program is terminating and no
    process is left. *)
Definition quit_consistent (g : supervisor) : Prop :=
  match quit g with
  | Some code => code = 1%Z ∧ terminating g = true ∧ processes g = []
  | None => terminating g = true → processes g ≠ []
  end.

(** What a process is waiting for between two callbacks. *)
Inductive process_mode :=
| MODE_complete
| MODE_wait_up
| MODE_wait_retry
| MODE_teardown.

Definition in_mode (m : process_mode) (p : process) : Prop :=
  match m with
  | MODE_complete =>
      ap p = num_statements p ∧ fp p = num_statements p ∧ wait_timer p = None ∧
      ∀ i, i < num_statements p → sst p i = Some SSTATE_ADULT
  | MODE_wait_up =>
      ap p = fp p ∧ 0 < ap p ∧ sst p (ap p - 1) = Some SSTATE_CHILD ∧
      wait_timer p = None
  | MODE_wait_retry =>
      ap p = fp p ∧ below_adult p ∧
      ∃ ps, statements p !! ap p = Some ps ∧ state ps = SSTATE_FORGOTTEN ∧
            have_error ps = true ∧ wait_timer p = Some (error_until ps)
  | MODE_teardown =>
      ap p < fp p ∧ sst p (fp p - 1) = Some SSTATE_DYING ∧ wait_timer p = None
  end.

(** The option names that [parse_arguments] compares [argv[i]] with. *)
Definition option_names (W : platform) : list string :=
  ["--help"; "--version"; "--logger"]%string ++
  (if BADVPN_USE_WINAPI W then [] else ["--syslog-facility"; "--syslog-ident"]%string) ++
  ["--loglevel"; "--channel-loglevel"; "--config-file"]%string.

(** The name and the statement templates of a process, which
    [process_new] sets from the configuration. *)
Definition same_templates (p p' : process) : Prop :=
  p_name p' = p_name p ∧ s <$> statements p' = s <$> statements p.

(** The process a callback is about. *)
Definition event_process (e : event) : option nat :=
  match e with
  | EV_wait_timer k | EV_instance_event k _ _ | EV_instance_died k _ _ => Some k
  | EV_signal => None
  end.

(** The number of module instances that exist: the slots that are not
    FORGOTTEN. *)
Definition live (ps : process_statement) : nat :=
  if is_state SSTATE_FORGOTTEN ps then 0 else 1.

Definition live_slots (p : process) : nat := sum_list_with live (statements p).

Definition live_instances (g : supervisor) : nat :=
  sum_list_with live_slots (processes g).

(** ** The failures of an advance *)

(** The argument at position [k] gets the value [v]: a literal is copied;
    a variable is resolved on the nearest statement before AP that
    exports [modname]. *)
Definition arg_resolves (E : env) (p : process) (k : nat) (a : argument_elem)
  (v : NCDValue) : Prop :=
  match a with
  | arg_val val => NCDValue_InitCopy E k = true ∧ v = val
  | arg_var modname varname =>
      ∃ j rps,
        j < ap p ∧ statements p !! j = Some rps ∧ name (s rps) = Some modname ∧
        (∀ j' rps', j < j' → j' < ap p → statements p !! j' = Some rps' →
                    name (s rps') ≠ Some modname) ∧
        NCDModuleInst_GetVar E j (default EmptyString varname) = Some v
  end.

(** The argument at position [k] gets no value, with the error [e]: the
    copy of a literal fails; no statement before AP exports [modname]; or
    the nearest one does not resolve the variable. *)
Definition arg_fails (E : env) (p : process) (k : nat) (a : argument_elem)
  (e : advance_error) : Prop :=
  match a with
  | arg_val _ => NCDValue_InitCopy E k = false ∧ e = InitCopy_failed
  | arg_var modname varname =>
      ((∀ j rps, j < ap p → statements p !! j = Some rps →
                 name (s rps) ≠ Some modname) ∧
       e = unknown_statement_name modname varname) ∨
      ∃ j rps,
        j < ap p ∧ statements p !! j = Some rps ∧ name (s rps) = Some modname ∧
        (∀ j' rps', j < j' → j' < ap p → statements p !! j' = Some rps' →
                    name (s rps') ≠ Some modname) ∧
        NCDModuleInst_GetVar E j (default EmptyString varname) = None ∧
        e = failed_to_resolve_variable modname (default EmptyString varname)
  end.

(** The arguments [args], at the positions from 0, get the values [vs]
    and each value is appended to the list. *)
Definition args_materialised (E : env) (p : process) (args : list argument_elem)
  (vs : list NCDValue) : Prop :=
  length vs = length args ∧
  ∀ n a, args !! n = Some a →
    ∃ v, vs !! n = Some v ∧ arg_resolves E p n a v ∧ NCDValue_ListAppend E n = true.

(** The attempt on the statement [ps] at AP fails at some step, with
    the error [e]: at the value of an argument, at its append to the
    list, or at the initialisation of the instance with the list of all
    the values; the steps before it have succeeded. *)
Inductive advance_fails (E : env) (p : process) (ps : process_statement)
  : advance_error → Prop :=
| fails_at_value pre a post vs e :
    first_arg (s ps) = pre ++ a :: post →
    args_materialised E p pre vs →
    arg_fails E p (length pre) a e →
    advance_fails E p ps e
| fails_at_append pre a post vs v :
    first_arg (s ps) = pre ++ a :: post →
    args_materialised E p pre vs →
    arg_resolves E p (length pre) a v →
    NCDValue_ListAppend E (length pre) = false →
    advance_fails E p ps ListAppend_failed
| fails_at_init vs :
    args_materialised E p (first_arg (s ps)) vs →
    NCDModuleInst_Init E (ap p) vs = false →
    advance_fails E p ps failed_to_initialize.

(** What the handler of a callback requires when it is entered: the
    ASSERTs at the entry of the two handlers of an instance, on the state
    of its slot; for the handler of the retry timer, that the timer is
    set. *)
Definition entry_assertion (e : event) (g : supervisor) : Prop :=
  match e with
  | EV_wait_timer k =>
      ∃ p t, processes g !! k = Some p ∧ wait_timer p = Some t
  | EV_instance_event k i ev =>
      ∃ x, slot_state g k i = Some x ∧ event_allowed ev x
  | EV_instance_died k i _ =>
      ∃ x, slot_state g k i = Some x ∧ x ≠ SSTATE_FORGOTTEN
  | EV_signal => True
  end.

(** Every callback of [evs], delivered in order from the state [g] at
    time [c] until the reactor is told to quit, can happen when it is
    delivered. *)
Fixpoint callbacks_enabled (evs : list (event * env)) (c : Z) (g : supervisor)
  : bool :=
  match quit g with
  | Some _ => true
  | None =>
      match evs with
      | [] => true
      | (e, E) :: rest =>
          enabled c e E g &&
          match dispatch e E g with
          | Ret g' => callbacks_enabled rest (btime_gettime E) g'
          | Fault _ => true
          end
      end
  end.

(** * Verification *)

(** ** The result monad *)

Lemma bind_Ret {A B} (m : res A) (f : A → res B) b :
  m ≫= f = Ret b ↔ ∃ a, m = Ret a ∧ f a = Ret b.
Proof.
  destruct m as [a|e]; simpl; split.
  - intros H; exists a; auto.
  - intros (a' & [= <-] & H); auto.
  - discriminate.
  - intros (a' & [=] & _).
Qed.

Lemma ASSERT_Ret b u : ASSERT b = Ret u ↔ b = true.
Proof. destruct b, u; simpl; split; auto; discriminate. Qed.

Lemma ASSERT_true b : b = true → ASSERT b = Ret ().
Proof. intros ->; reflexivity. Qed.

Lemma get_stmt_Ret p i ps : get_stmt p i = Ret ps ↔ statements p !! i = Some ps.
Proof. unfold get_stmt; destruct (statements p !! i); split; congruence. Qed.

Lemma get_process_Ret g k p : get_process g k = Ret p ↔ processes g !! k = Some p.
Proof. unfold get_process; destruct (processes g !! k); split; congruence. Qed.

(** ** Slot states under updates *)

Lemma sst_Some p i x :
  sst p i = Some x ↔ ∃ ps, statements p !! i = Some ps ∧ state ps = x.
Proof.
  unfold sst; destruct (statements p !! i) as [ps|]; simpl; split.
  - intros [= <-]; eauto.
  - intros (? & [= <-] & <-); auto.
  - discriminate.
  - intros (? & [=] & _).
Qed.

Lemma sst_lt p i x : sst p i = Some x → i < num_statements p.
Proof. intros (ps & H & _)%sst_Some; exact (lookup_lt_Some _ _ _ H). Qed.

Lemma sst_is_Some p i : i < num_statements p → ∃ x, sst p i = Some x.
Proof.
  intros [ps H]%lookup_lt_is_Some_2; exists (state ps); unfold sst; rewrite H; done.
Qed.

Lemma sst_upd_eq p i f ps :
  statements p !! i = Some ps → sst (upd_stmt i f p) i = Some (state (f ps)).
Proof. intros H; unfold sst; simpl; rewrite list_lookup_alter_eq, H; done. Qed.

Lemma sst_upd_ne p i f j : i ≠ j → sst (upd_stmt i f p) j = sst p j.
Proof. intros H; unfold sst; simpl; rewrite list_lookup_alter_ne; done. Qed.

Lemma num_upd p i f : num_statements (upd_stmt i f p) = num_statements p.
Proof. unfold num_statements; simpl; apply length_alter. Qed.

(** ** process_assert_pointers decides pointers_ok *)

Lemma is_state_true x ps : is_state x ps = true ↔ state ps = x.
Proof. unfold is_state; apply bool_decide_eq_true. Qed.

Lemma is_state_false x ps : is_state x ps = false ↔ state ps ≠ x.
Proof. unfold is_state; apply bool_decide_eq_false. Qed.

Lemma check_AP_spec p :
  check_AP p = true ↔
  (∀ i, i + 1 < ap p → sst p i = Some SSTATE_ADULT) ∧
  (∀ i, i + 1 = ap p → sst p i = Some SSTATE_ADULT ∨ sst p i = Some SSTATE_CHILD).
Proof.
  unfold check_AP; rewrite forallb_forall; split.
  - intros H; split; intros i Hi.
    + specialize (H i); rewrite in_seq in H. lapply H; [clear H; intros H|lia].
      unfold sst; destruct (statements p !! i) as [ps|]; simpl; [|done].
      destruct (Nat.eqb_spec i (ap p - 1)); [lia|].
      f_equal; apply is_state_true, H; lia.
    + specialize (H i); rewrite in_seq in H. lapply H; [clear H; intros H|lia].
      unfold sst; destruct (statements p !! i) as [ps|]; simpl; [|done].
      destruct (Nat.eqb_spec i (ap p - 1)); [|lia].
      apply orb_true_iff in H as [H|H]; apply is_state_true in H;
        rewrite H; auto.
  - intros [H1 H2] i [_ Hi]%in_seq; simpl in Hi.
    destruct (Nat.eqb_spec i (ap p - 1)).
    + destruct (H2 i) as [H|H]; [lia|..]; apply sst_Some in H as (ps & -> & Hs);
        unfold is_state; rewrite Hs; reflexivity.
    + assert (Hlt : i + 1 < ap p) by lia.
      apply H1 in Hlt as (ps & -> & Hs)%sst_Some.
      unfold is_state; rewrite Hs; reflexivity.
Qed.

Lemma scan_FP_le l n : scan_FP l n ≤ n.
Proof.
  induction n as [|n IH]; simpl; [lia|].
  destruct (l !! n) as [ps|]; [|lia]. destruct (is_state _ ps); lia.
Qed.

Lemma scan_FP_forgotten l n i ps :
  scan_FP l n ≤ i → i < n → l !! i = Some ps → state ps = SSTATE_FORGOTTEN.
Proof.
  induction n as [|n IH]; simpl; [lia|].
  destruct (l !! n) as [ps'|] eqn:Hn; [|lia].
  unfold is_state; destruct (bool_decide_reflect (state ps' = SSTATE_FORGOTTEN)); [|lia].
  intros H1 H2 H3. destruct (decide (i = n)) as [->|]; [congruence|].
  apply IH; auto; lia.
Qed.

Lemma scan_FP_top l n i ps :
  n ≤ length l → i + 1 = scan_FP l n → l !! i = Some ps →
  state ps ≠ SSTATE_FORGOTTEN.
Proof.
  induction n as [|n IH]; simpl; [lia|]. intros Hn.
  destruct (l !! n) as [ps'|] eqn:Hl.
  - unfold is_state; destruct (bool_decide_reflect (state ps' = SSTATE_FORGOTTEN)).
    + apply IH; lia.
    + intros H1 H2. assert (i = n) as -> by lia. congruence.
  - apply lookup_ge_None_1 in Hl; lia.
Qed.

(** [scan_FP] finds the only position that has forgotten slots above and a
    slot that is not forgotten just below. *)
Lemma scan_FP_unique l n m :
  m ≤ n →
  (∀ i ps, m ≤ i → i < n → l !! i = Some ps → state ps = SSTATE_FORGOTTEN) →
  (∀ i ps, i + 1 = m → l !! i = Some ps → state ps ≠ SSTATE_FORGOTTEN) →
  n ≤ length l →
  scan_FP l n = m.
Proof.
  induction n as [|n IH]; simpl; intros Hm Ha Ht Hn; [lia|].
  destruct (l !! n) as [ps|] eqn:Hl; [|apply lookup_ge_None_1 in Hl; lia].
  unfold is_state; destruct (bool_decide_reflect (state ps = SSTATE_FORGOTTEN)) as [Hs|Hs].
  - destruct (decide (m = S n)) as [->|].
    + exfalso; apply (Ht n ps); auto; lia.
    + apply IH; auto; try lia. intros; eapply Ha; eauto; lia.
  - destruct (decide (m = S n)) as [->|]; [done|].
    exfalso; apply Hs, (Ha n); auto; lia.
Qed.

Lemma process_assert_pointers_spec p :
  process_assert_pointers p = Ret () ↔ pointers_ok p.
Proof.
  unfold process_assert_pointers. split.
  - intros H.
    repeat (apply bind_Ret in H as ([] & ?%ASSERT_Ret & H)). apply ASSERT_Ret in H.
    repeat match goal with
           | H : (_ <=? _) = true |- _ => apply Nat.leb_le in H
           | H : (_ =? _) = true |- _ => apply Nat.eqb_eq in H
           | H : check_AP _ = true |- _ => apply check_AP_spec in H as [? ?]
           end.
    split; auto.
    + intros i Hi1 Hi2. destruct (sst_is_Some p i Hi2) as [x Hx]. rewrite Hx; f_equal.
      apply sst_Some in Hx as (ps & Hps & <-).
      apply (scan_FP_forgotten (statements p) (num_statements p) i ps); auto; lia.
    + intros i Hi (ps & Hps & Hs)%sst_Some.
      apply (scan_FP_top (statements p) (num_statements p) i ps); auto.
      lia.
  - intros [H1 H2 H3 H4 H5 H6].
    rewrite (ASSERT_true (ap p <=? _)); [|apply Nat.leb_le; lia]. simpl.
    rewrite (ASSERT_true (ap p <=? _)); [|apply Nat.leb_le; lia]. simpl.
    rewrite (ASSERT_true (fp p <=? _)); [|apply Nat.leb_le; lia]. simpl.
    rewrite (ASSERT_true (check_AP p)); [|apply check_AP_spec; auto]. simpl.
    apply ASSERT_true, Nat.eqb_eq. symmetry; apply scan_FP_unique; auto.
    + intros i ps Hi1 Hi2 Hps. specialize (H5 i Hi1 Hi2).
      apply sst_Some in H5 as (? & ? & ?); congruence.
    + intros i ps Hi Hps Hs. apply (H6 i Hi). apply sst_Some; eauto.
Qed.

(** ** Frame lemmas *)

Lemma sst_set_ap n p i : sst (set_ap n p) i = sst p i.
Proof. reflexivity. Qed.
Lemma sst_set_fp n p i : sst (set_fp n p) i = sst p i.
Proof. reflexivity. Qed.
Lemma sst_set_timer t p i : sst (set_timer t p) i = sst p i.
Proof. reflexivity. Qed.
Lemma num_set_ap n p : num_statements (set_ap n p) = num_statements p.
Proof. reflexivity. Qed.
Lemma num_set_fp n p : num_statements (set_fp n p) = num_statements p.
Proof. reflexivity. Qed.
Lemma num_set_timer t p : num_statements (set_timer t p) = num_statements p.
Proof. reflexivity. Qed.

Create Rewrite HintDb proc.
#[local] Hint Rewrite sst_set_ap sst_set_fp sst_set_timer
  num_set_ap num_set_fp num_set_timer num_upd : proc.

Lemma pointers_ok_set_timer t p : pointers_ok p → pointers_ok (set_timer t p).
Proof. intros [? ? ? ? ? ?]; split; auto. Qed.

Lemma errors_expired_mono c c' p :
  (c ≤ c')%Z → errors_expired c p → errors_expired c' p.
Proof. intros Hc H i ps H1 H2 H3. specialize (H i ps H1 H2 H3). lia. Qed.

Lemma process_inv_mono term c c' p :
  (c ≤ c')%Z → process_inv term c p → process_inv term c' p.
Proof. intros Hc [? ? ? ? ? ?]; split; eauto using errors_expired_mono. Qed.

(** Updating a slot without changing its state. *)
Lemma sst_upd_same p i f j :
  (∀ ps, state (f ps) = state ps) → sst (upd_stmt i f p) j = sst p j.
Proof.
  intros Hf. destruct (decide (i = j)) as [->|]; [|apply sst_upd_ne; done].
  unfold sst; simpl. rewrite list_lookup_alter_eq.
  destruct (statements p !! j); simpl; [rewrite Hf|]; done.
Qed.

Lemma pointers_ok_upd_same p i f :
  (∀ ps, state (f ps) = state ps) → pointers_ok p → pointers_ok (upd_stmt i f p).
Proof.
  intros Hf [? ? ? ? ? ?]; split; simpl; intros; autorewrite with proc in *;
    rewrite ?sst_upd_same by done; auto.
Qed.

(** Overwriting a slot with one in the same state. *)
Lemma sst_upd_same_at p i f ps j :
  statements p !! i = Some ps → state (f ps) = state ps →
  sst (upd_stmt i f p) j = sst p j.
Proof.
  intros Hps Hf. destruct (decide (i = j)) as [->|]; [|apply sst_upd_ne; done].
  unfold sst; simpl. rewrite list_lookup_alter_eq, Hps; simpl. rewrite Hf; done.
Qed.

Lemma pointers_ok_upd_same_at p i f ps :
  statements p !! i = Some ps → state (f ps) = state ps →
  pointers_ok p → pointers_ok (upd_stmt i f p).
Proof.
  intros Hps Hf [? ? ? ? ? ?]; split; simpl; intros; autorewrite with proc in *;
    rewrite ?(sst_upd_same_at p i f ps) by done; auto.
Qed.

Lemma below_adult_ok p : below_adult p → ASSERT_below_adult p = Ret ().
Proof.
  intros H; unfold ASSERT_below_adult.
  destruct (Nat.ltb_spec 0 (ap p)); [|done].
  assert (Hx : sst p (ap p - 1) = Some SSTATE_ADULT) by (apply H; lia).
  apply sst_Some in Hx as (ps & Hps & Hs).
  unfold get_stmt; rewrite Hps; simpl. apply ASSERT_true, is_state_true, Hs.
Qed.

Lemma process_assert_ok p : pointers_ok p → process_assert p = Ret ().
Proof. apply process_assert_pointers_spec. Qed.

(** ** wait *)

Lemma process_wait_Ret p ps :
  pointers_ok p → ap p = fp p → below_adult p →
  statements p !! ap p = Some ps → have_error ps = true →
  process_wait p = Ret (set_timer (Some (error_until ps)) p).
Proof.
  intros Hp Hap Hb Hps He. unfold process_wait.
  rewrite (ASSERT_true (ap p =? fp p)) by (apply Nat.eqb_eq; done); simpl.
  rewrite below_adult_ok by done; simpl.
  rewrite ASSERT_true by (apply Nat.ltb_lt, (lookup_lt_Some _ _ _ Hps)); simpl.
  unfold get_stmt; rewrite Hps; simpl. rewrite He; simpl.
  rewrite process_assert_ok; [done|]. apply pointers_ok_set_timer, Hp.
Qed.

Lemma process_inv_waiting c p ps :
  pointers_ok p → errors_expired c p → ap p = fp p → below_adult p →
  statements p !! ap p = Some ps → have_error ps = true →
  process_inv false c (set_timer (Some (error_until ps)) p).
Proof.
  intros Hp He Hap Hb Hps Herr. split; simpl; auto using pointers_ok_set_timer.
  - intros; lia.
  - intros t [= <-]. eauto 10.
  - done.
Qed.

(** ** advance *)

Lemma find_referred_spec l modname i :
  i ≤ length l →
  ∃ j, find_referred l modname i = Ret j ∧ j ≤ i ∧
       (∀ k rps, j ≤ k → k < i → l !! k = Some rps → name_is modname rps = false) ∧
       (∀ k, k + 1 = j → ∃ rps, l !! k = Some rps ∧ name_is modname rps = true).
Proof.
  induction i as [|i IH]; simpl; intros Hi.
  - exists 0; repeat split; auto; intros; lia.
  - destruct (lookup_lt_is_Some_2 l i) as [rps Hrps]; [lia|]. rewrite Hrps.
    destruct (name_is modname rps) eqn:Hn.
    + exists (S i); repeat split; auto; [intros; lia|].
      intros k Hk. assert (k = i) as -> by lia. eauto.
    + destruct IH as (j & -> & Hj & Hno & Hyes); [lia|].
      exists j; repeat split; auto.
      intros k rps' H1 H2 H3. destruct (decide (k = i)) as [->|]; [congruence|].
      apply (Hno k); auto; lia.
Qed.

Lemma advance_pre_adult p j :
  advance_pre p → j < ap p → sst p j = Some SSTATE_ADULT.
Proof.
  intros [Hp _ Hb] Hj. destruct (decide (j + 1 = ap p)); [apply Hb; done|].
  apply (po_below _ Hp); lia.
Qed.

Lemma advance_arg_Ret E p k arg :
  advance_pre p → ∃ r, advance_arg E p k arg = Ret r.
Proof.
  intros Hpre. destruct arg as [modname varname|val]; simpl.
  - destruct (find_referred_spec (statements p) modname (ap p))
      as (i & -> & Hi & _ & _).
    { pose proof (po_ap_fp _ (adv_pointers _ Hpre)).
      pose proof (po_fp_num _ (adv_pointers _ Hpre)). unfold num_statements in *; lia. }
    simpl. destruct (Nat.eqb_spec i 0); [eauto|].
    assert (Hx : sst p (i - 1) = Some SSTATE_ADULT)
      by (apply advance_pre_adult; [done|lia]).
    apply sst_Some in Hx as (rps & Hrps & Hs).
    unfold get_stmt; rewrite Hrps; simpl.
    rewrite ASSERT_true by (apply is_state_true, Hs); simpl.
    destruct (NCDModuleInst_GetVar E (i - 1) _); eauto.
  - destruct (NCDValue_InitCopy E k); eauto.
Qed.

Lemma advance_args_Ret E p args k acc :
  advance_pre p → ∃ r, advance_args E p args k acc = Ret r.
Proof.
  intros Hpre. revert k acc; induction args as [|arg rest IH]; intros k acc; simpl.
  - eauto.
  - destruct (advance_arg_Ret E p k arg Hpre) as [[e|v] ->]; simpl; [eauto|].
    destruct (NCDValue_ListAppend E k); eauto.
Qed.

Lemma advance_try_Ret E p ps :
  advance_pre p → ∃ r, advance_try E p ps = Ret r.
Proof.
  intros Hpre. unfold advance_try.
  destruct (advance_args_Ret E p (first_arg (s ps)) 0 [] Hpre) as [[e|args] ->];
    simpl; [eauto|].
  destruct (NCDModuleInst_Init E (ap p) args); eauto.
Qed.

Lemma advance_pre_forgotten p ps :
  advance_pre p → statements p !! ap p = Some ps → state ps = SSTATE_FORGOTTEN.
Proof.
  intros [Hp Hap _] Hps.
  assert (Hx : sst p (ap p) = Some SSTATE_FORGOTTEN).
  { apply (po_above _ Hp); [lia|]. apply (lookup_lt_Some _ _ _ Hps). }
  apply sst_Some in Hx as (ps' & ? & ?); congruence.
Qed.

Lemma advance_fail1_Ret E p ps :
  advance_pre p → statements p !! ap p = Some ps →
  advance_fail1 E p ps =
    Ret (set_timer (Some (btime_gettime E + RETRY_TIME)%Z)
           (upd_stmt (ap p) (fun _ => failed_slot E ps) p)).
Proof.
  intros Hpre Hps. pose proof (advance_pre_forgotten p ps Hpre Hps) as Hst.
  destruct Hpre as [Hp Hap Hb].
  unfold advance_fail1, process_statement_set_error.
  rewrite ASSERT_true by (apply is_state_true, Hst); simpl.
  fold (failed_slot E ps).
  rewrite (process_wait_Ret _ (failed_slot E ps)); simpl; auto.
  - apply pointers_ok_upd_same_at with (ps := ps); auto.
  - intros i Hi. simpl in Hi. rewrite sst_upd_ne by lia. apply Hb, Hi.
  - rewrite list_lookup_alter_eq, Hps; done.
Qed.

Lemma errors_expired_upd c p i f ps :
  statements p !! i = Some ps → errors_expired c p →
  (have_error (f ps) = true → state (f ps) ≠ SSTATE_FORGOTTEN →
   (error_until (f ps) ≤ c)%Z) →
  errors_expired c (upd_stmt i f p).
Proof.
  intros Hps He Hf j ps'. simpl.
  destruct (decide (i = j)) as [->|].
  - rewrite list_lookup_alter_eq, Hps; simpl. intros [= <-]; exact Hf.
  - rewrite list_lookup_alter_ne by done. apply He.
Qed.

(** Slot states after [upd_stmt i f], by cases on the position. *)
Ltac sst_upd i j :=
  destruct (decide (i = j)) as [->|?];
  [erewrite sst_upd_eq by eassumption; simpl | rewrite sst_upd_ne by done].

Lemma pointers_ok_advance p ps f :
  advance_pre p → statements p !! ap p = Some ps →
  state (f ps) = SSTATE_CHILD →
  pointers_ok (set_fp (fp p + 1) (set_ap (ap p + 1) (upd_stmt (ap p) f p))).
Proof.
  intros [Hp Hap Hb] Hps Hf. pose proof (lookup_lt_Some _ _ _ Hps) as Hlt.
  fold (num_statements p) in Hlt.
  split; simpl; autorewrite with proc; try lia.
  - intros i Hi. autorewrite with proc. rewrite sst_upd_ne by lia.
    destruct (decide (i + 1 = ap p)); [apply Hb; done|apply (po_below _ Hp); lia].
  - intros i Hi. assert (i = ap p) as -> by lia. autorewrite with proc.
    erewrite sst_upd_eq by eassumption. rewrite Hf; auto.
  - intros i Hi1 Hi2. autorewrite with proc in *. rewrite sst_upd_ne by lia. apply (po_above _ Hp); lia.
  - intros i Hi. assert (i = ap p) as -> by lia. autorewrite with proc.
    erewrite sst_upd_eq by eassumption. rewrite Hf; done.
Qed.

Lemma process_advance_inv E c p :
  advance_pre p → errors_expired c p → wait_timer p = None →
  (c ≤ btime_gettime E)%Z →
  ∃ p', process_advance E p = Ret p' ∧ process_inv false (btime_gettime E) p'.
Proof.
  intros Hpre He Ht Hc. pose proof Hpre as [Hp Hap Hb].
  pose proof (errors_expired_mono _ _ _ Hc He) as He'.
  unfold process_advance.
  rewrite (ASSERT_true (ap p =? fp p)) by (apply Nat.eqb_eq; done); simpl.
  rewrite below_adult_ok by done; simpl.
  destruct (Nat.eqb_spec (ap p) (num_statements p)) as [Hn|Hn].
  - rewrite process_assert_ok by done; simpl. exists p; split; [done|].
    split; auto; try (intros; lia). rewrite Ht; done.
  - pose proof (po_fp_num _ Hp).
    destruct (lookup_lt_is_Some_2 (statements p) (ap p)) as [ps Hps];
      [unfold num_statements in *; lia|].
    unfold get_stmt; rewrite Hps; simpl.
    destruct (have_error ps && (btime_gettime E <? error_until ps)%Z) eqn:Hw.
    + apply andb_true_iff in Hw as [Hw _].
      rewrite (process_wait_Ret _ ps) by done.
      eexists; split; [done|]. apply process_inv_waiting; auto.
    + destruct (advance_try_Ret E p ps Hpre) as [[e|args] ->]; simpl.
      * rewrite advance_fail1_Ret by done. eexists; split; [done|].
        pose proof (advance_pre_forgotten _ _ Hpre Hps) as Hst.
        apply (process_inv_waiting _ _ (failed_slot E ps)); simpl; auto.
        -- apply pointers_ok_upd_same_at with (ps := ps); auto.
        -- apply errors_expired_upd with (ps := ps); auto. simpl; congruence.
        -- intros i Hi; simpl in Hi. rewrite sst_upd_ne by lia. apply Hb, Hi.
        -- rewrite list_lookup_alter_eq, Hps; done.
      * rewrite process_assert_ok
          by (apply pointers_ok_advance with (ps := ps); auto).
        simpl. eexists; split; [done|].
        split; simpl; try (intros; lia); try (rewrite Ht; done).
        -- apply pointers_ok_advance with (ps := ps); auto.
        -- apply errors_expired_upd with (ps := ps); auto; simpl.
           intros Herr _. rewrite Herr in Hw; simpl in Hw.
           apply Z.ltb_ge in Hw; done.
        -- intros _ _ _ Hba. specialize (Hba (ap p)). simpl in Hba.
           lapply Hba; [clear Hba; intros Hba|lia]. autorewrite with proc in Hba.
           erewrite sst_upd_eq in Hba by eassumption. done.
Qed.

(** ** fight *)

Lemma process_fight_inv E c p :
  pointers_ok p → errors_expired c p → wait_timer p = None →
  (c ≤ btime_gettime E)%Z →
  ∃ p', process_fight E p = Ret p' ∧ process_inv false (btime_gettime E) p'.
Proof.
  intros Hp He Ht Hc. pose proof (errors_expired_mono _ _ _ Hc He) as He'.
  unfold process_fight. destruct (Nat.eqb_spec (ap p) (fp p)) as [Hap|Hap].
  - destruct (Nat.ltb_spec 0 (ap p)) as [Hpos|Hpos].
    + destruct (po_last _ Hp (ap p - 1)) as [Hx|Hx]; [lia|..];
        pose proof Hx as (ps & Hps & Hs)%sst_Some;
        unfold get_stmt; rewrite Hps; simpl; unfold is_state; rewrite Hs; simpl.
      * apply process_advance_inv with (c := c); auto. split; auto.
        intros i Hi. replace i with (ap p - 1) by lia. done.
      * exists p; split; [done|]. split; auto; try (intros; lia).
        -- rewrite Ht; done.
        -- intros _ _ _ Hba. specialize (Hba (ap p - 1)).
           rewrite Hx in Hba. lapply Hba; [done|lia].
    + simpl. apply process_advance_inv with (c := c); auto. split; auto.
      intros i Hi; lia.
  - pose proof (po_ap_fp _ Hp). pose proof (po_fp_num _ Hp).
    destruct (fp p) as [|i] eqn:Hfp; [lia|].
    destruct (lookup_lt_is_Some_2 (statements p) i) as [ps Hps];
      [unfold num_statements in *; lia|].
    unfold get_stmt; rewrite Hps; simpl.
    destruct (is_state SSTATE_DYING ps) eqn:Hd; simpl.
    + rewrite process_assert_ok by done; simpl. exists p; split; [done|].
      split; auto; try (intros; lia); try (rewrite Ht; done).
      intros j _ Hj. assert (j = i) as -> by lia.
      apply sst_Some. exists ps; split; [done|]. apply is_state_true, Hd.
    + assert (Hp' : pointers_ok (upd_stmt i (set_state SSTATE_DYING) p)).
      { split; simpl; autorewrite with proc; try lia.
        - intros j Hj. autorewrite with proc. rewrite sst_upd_ne by lia. apply (po_below _ Hp), Hj.
        - intros j Hj. autorewrite with proc. rewrite sst_upd_ne by lia. apply (po_last _ Hp), Hj.
        - intros j Hj1 Hj2. autorewrite with proc in *. rewrite sst_upd_ne by lia. apply (po_above _ Hp); lia.
        - intros j Hj. assert (j = i) as -> by lia.
          erewrite sst_upd_eq by eassumption. done. }
      rewrite process_assert_ok by done; simpl. eexists; split; [done|].
      split; simpl; auto; try (intros; lia); try (rewrite Ht; done).
      * apply errors_expired_upd with (ps := ps); auto; simpl.
        intros Herr _. apply (He' i ps); auto.
        intros Hst. apply (po_top _ Hp i); [lia|]. apply sst_Some; eauto.
      * intros j _ Hj. assert (j = i) as -> by lia.
        erewrite sst_upd_eq by eassumption. done.
Qed.

(** ** retreat and work *)

Lemma delete_list_insert {A} (l : list A) k x : delete k (<[k:=x]> l) = delete k l.
Proof.
  revert k; induction l as [|y l IH]; intros [|k]; simpl; auto.
  f_equal; apply IH.
Qed.

Lemma pointers_ok_dying p i ps n :
  pointers_ok p → fp p = S i → statements p !! i = Some ps → n ≤ ap p → n ≤ i →
  pointers_ok (set_ap n (upd_stmt i (set_state SSTATE_DYING) p)).
Proof.
  intros Hp Hfp Hps Hn1 Hn2. pose proof (po_ap_fp _ Hp). pose proof (po_fp_num _ Hp).
  split; simpl; autorewrite with proc; try lia.
  - intros j Hj. autorewrite with proc. rewrite sst_upd_ne by lia.
    apply (po_below _ Hp); lia.
  - intros j Hj. autorewrite with proc. rewrite sst_upd_ne by lia.
    destruct (decide (n = ap p)); [apply (po_last _ Hp); lia|].
    left; apply (po_below _ Hp); lia.
  - intros j Hj1 Hj2. autorewrite with proc in *. rewrite sst_upd_ne by lia.
    apply (po_above _ Hp); lia.
  - intros j Hj. assert (j = i) as -> by lia. autorewrite with proc.
    erewrite sst_upd_eq by eassumption. done.
Qed.

Lemma errors_expired_dying c p i ps :
  pointers_ok p → fp p = S i → statements p !! i = Some ps → errors_expired c p →
  errors_expired c (upd_stmt i (set_state SSTATE_DYING) p).
Proof.
  intros Hp Hfp Hps He. apply errors_expired_upd with (ps := ps); auto; simpl.
  intros Herr _. apply (He i ps); auto.
  intros Hst. apply (po_top _ Hp i); [lia|]. apply sst_Some; eauto.
Qed.

Lemma process_inv_retreating c p i :
  pointers_ok p → errors_expired c p → wait_timer p = None →
  fp p = S i → ap p ≤ i → sst p i = Some SSTATE_DYING →
  process_inv true c p.
Proof.
  intros Hp He Ht Hfp Hap Hd. split; auto.
  - intros j _ Hj. assert (j = i) as -> by lia. done.
  - rewrite Ht; done.
  - intros _; lia.
Qed.

Lemma process_retreat_spec k c g p :
  processes g !! k = Some p → pointers_ok p → errors_expired c p →
  wait_timer p = None → terminating g = true →
  ∃ g', process_retreat k g = Ret g' ∧ work_result k c g g'.
Proof.
  intros Hk Hp He Ht Hterm. unfold process_retreat, get_process. rewrite Hk; simpl.
  pose proof (po_ap_fp _ Hp). pose proof (po_fp_num _ Hp).
  destruct (fp p) as [|i] eqn:Hfp.
  - unfold process_free, get_process. rewrite Hk; simpl.
    rewrite (ASSERT_true (ap p =? 0)) by (apply Nat.eqb_eq; lia); simpl.
    rewrite Hfp; simpl. eexists; split; [done|]. split.
    + destruct (delete k (processes g)); done.
    + right. rewrite Hterm. destruct (delete k (processes g)) eqn:Hd; simpl; auto.
  - destruct (lookup_lt_is_Some_2 (statements p) i) as [ps Hps];
      [unfold num_statements in *; lia|].
    unfold get_stmt; rewrite Hps; simpl.
    destruct (is_state SSTATE_DYING ps) eqn:Hd; simpl.
    + rewrite process_assert_ok by done; simpl. eexists; split; [done|].
      split; [done|]. left. exists p. rewrite Hterm. split; [done|split; [|done]].
      apply is_state_true in Hd.
      apply (process_inv_retreating c p i); auto.
      * destruct (decide (ap p = S i)) as [Hap|]; [|lia]. exfalso.
        destruct (po_last _ Hp i) as [Hx|Hx]; [lia|..];
          apply sst_Some in Hx as (ps' & ? & ?); congruence.
      * apply sst_Some; eauto.
    + set (p' := if i <? ap (upd_stmt i (set_state SSTATE_DYING) p)
                 then set_ap i (upd_stmt i (set_state SSTATE_DYING) p)
                 else upd_stmt i (set_state SSTATE_DYING) p).
      assert (pointers_ok p' ∧ errors_expired c p' ∧ ap p' ≤ i ∧
              fp p' = S i ∧ wait_timer p' = None ∧
              sst p' i = Some SSTATE_DYING) as (Hp1 & Hp2 & Hp3 & Hp4 & Hp5 & Hp6).
      { subst p'; simpl. destruct (Nat.ltb_spec i (ap p)).
        - split_and!; simpl; auto.
          + apply pointers_ok_dying with (ps := ps); auto; lia.
          + apply (errors_expired_dying c p i ps); auto.
          + autorewrite with proc. erewrite sst_upd_eq by eassumption. done.
        - split_and!; simpl; auto.
          + apply (pointers_ok_dying p i ps (ap p)); auto.
          + apply (errors_expired_dying c p i ps); auto.
          + erewrite sst_upd_eq by eassumption. done. }
      rewrite process_assert_ok by done; simpl. eexists; split; [done|].
      split; [done|]. left. exists p'. rewrite Hterm. split; [done|split; [|done]].
      apply (process_inv_retreating c p' i); auto.
Qed.

Lemma process_work_spec k E c g p :
  processes g !! k = Some p → pointers_ok p → errors_expired c p →
  (c ≤ btime_gettime E)%Z →
  ∃ g', process_work k E g = Ret g' ∧ work_result k (btime_gettime E) g g'.
Proof.
  intros Hk Hp He Hc. unfold process_work, get_process. rewrite Hk; simpl.
  rewrite (proj2 (process_assert_pointers_spec p)) by done; simpl.
  pose proof (lookup_lt_Some _ _ _ Hk) as Hlt.
  destruct (terminating g) eqn:Hterm.
  - destruct (process_retreat_spec k (btime_gettime E)
                (set_process k (set_timer None p) g) (set_timer None p))
      as (g' & -> & Hterm' & Hres); simpl; auto.
    + apply list_lookup_insert_eq, Hlt.
    + apply pointers_ok_set_timer, Hp.
    + eapply errors_expired_mono; eauto.
    + exists g'; split; [done|]. split; [exact Hterm'|].
      destruct Hres as [(p' & Hpr & Hinv & Hq)|(_ & Hpr & Hq)]; [left|right].
      * exists p'. split_and!; auto.
        rewrite Hpr. apply list_insert_insert_eq.
      * split_and!; auto. rewrite Hpr. apply delete_list_insert.
  - destruct (process_fight_inv E c (set_timer None p)) as (p' & -> & Hinv); auto.
    + apply pointers_ok_set_timer, Hp.
    + simpl. eexists; split; [done|]. split; [done|]. left.
      exists p'. rewrite Hterm. auto.
Qed.

(** ** Updates of one slot by the instance callbacks *)

Lemma pointers_ok_set_state p i ps x n :
  pointers_ok p → statements p !! i = Some ps →
  state ps ≠ SSTATE_FORGOTTEN → x ≠ SSTATE_FORGOTTEN →
  n ≤ ap p →
  (i + 1 < n → x = SSTATE_ADULT) →
  (i + 1 = n → x = SSTATE_ADULT ∨ x = SSTATE_CHILD) →
  pointers_ok (set_ap n (upd_stmt i (set_state x) p)).
Proof.
  intros Hp Hps Hst Hx Hn H1 H2.
  pose proof (po_ap_fp _ Hp). pose proof (po_fp_num _ Hp).
  split; simpl; autorewrite with proc; try lia.
  - intros j Hj. autorewrite with proc. sst_upd i j.
    + rewrite H1; [done|lia].
    + apply (po_below _ Hp); lia.
  - intros j Hj. autorewrite with proc. sst_upd i j.
    + destruct H2 as [->| ->]; auto.
    + destruct (decide (n = ap p)); [apply (po_last _ Hp); lia|].
      left; apply (po_below _ Hp); lia.
  - intros j Hj1 Hj2. autorewrite with proc in *. sst_upd i j.
    + exfalso. apply Hst.
      assert (Hs : sst p j = Some SSTATE_FORGOTTEN) by (apply (po_above _ Hp); lia).
      apply sst_Some in Hs as (? & ? & ?); congruence.
    + apply (po_above _ Hp); lia.
  - intros j Hj. autorewrite with proc. sst_upd i j.
    + congruence.
    + apply (po_top _ Hp), Hj.
Qed.

Lemma pointers_ok_set_state' p i ps x :
  pointers_ok p → statements p !! i = Some ps →
  state ps ≠ SSTATE_FORGOTTEN → x ≠ SSTATE_FORGOTTEN →
  (i + 1 < ap p → x = SSTATE_ADULT) →
  (i + 1 = ap p → x = SSTATE_ADULT ∨ x = SSTATE_CHILD) →
  pointers_ok (upd_stmt i (set_state x) p).
Proof.
  intros Hp Hps Hst Hx H1 H2.
  pose proof (pointers_ok_set_state p i ps x (ap p) Hp Hps Hst Hx (le_n _) H1 H2) as H.
  destruct H; split; auto.
Qed.

Lemma errors_expired_set_state c p i ps x :
  statements p !! i = Some ps → state ps ≠ SSTATE_FORGOTTEN →
  errors_expired c p → errors_expired c (upd_stmt i (set_state x) p).
Proof.
  intros Hps Hst He. apply errors_expired_upd with (ps := ps); auto; simpl.
  intros Herr _. apply (He i ps); auto.
Qed.

Lemma errors_expired_set_ap c n p : errors_expired c p → errors_expired c (set_ap n p).
Proof. done. Qed.

Lemma instance_event_update_spec c p i event x :
  pointers_ok p → errors_expired c p →
  sst p i = Some x → event_allowed event x →
  ∃ p1, instance_event_update p i event = Ret p1 ∧
        pointers_ok p1 ∧ errors_expired c p1.
Proof.
  intros Hp He (ps & Hps & Hs)%sst_Some Hev. unfold instance_event_update.
  unfold get_stmt; rewrite Hps; simpl.
  assert (Hnf : state ps ≠ SSTATE_FORGOTTEN)
    by (destruct event, x; simpl in Hev; intuition congruence).
  assert (Hb : is_state SSTATE_CHILD ps || is_state SSTATE_ADULT ps = true).
  { apply orb_true_iff; rewrite !is_state_true.
    destruct event; simpl in Hev; intuition congruence. }
  rewrite Hb; simpl.
  destruct event; simpl in Hev.
  - rewrite ASSERT_true by (apply is_state_true; congruence); simpl.
    eexists; split; [done|]. split.
    + apply pointers_ok_set_state' with (ps := ps); auto.
    + apply errors_expired_set_state with (ps := ps); auto.
  - rewrite ASSERT_true by (apply is_state_true; congruence); simpl.
    eexists; split; [done|]. destruct (Nat.ltb_spec (i + 1) (ap p)); split.
    + apply pointers_ok_set_state with (ps := ps); auto; lia.
    + apply errors_expired_set_ap, errors_expired_set_state with (ps := ps); auto.
    + apply pointers_ok_set_state' with (ps := ps); auto; lia.
    + apply errors_expired_set_state with (ps := ps); auto.
  - eexists; split; [done|]. destruct (Nat.ltb_spec i (ap p)); split.
    + apply pointers_ok_set_state with (ps := ps); auto; lia.
    + apply errors_expired_set_ap, errors_expired_set_state with (ps := ps); auto.
    + apply pointers_ok_set_state' with (ps := ps); auto; lia.
    + apply errors_expired_set_state with (ps := ps); auto.
  - eauto.
Qed.

Lemma scan_FP_ge l n m :
  m ≤ n → n ≤ length l →
  (∀ j, j + 1 = m → ∃ ps, l !! j = Some ps ∧ state ps ≠ SSTATE_FORGOTTEN) →
  m ≤ scan_FP l n.
Proof.
  induction n as [|n IH]; simpl; intros Hm Hn Hj; [lia|].
  destruct (l !! n) as [ps|] eqn:Hl; [|done].
  destruct (is_state SSTATE_FORGOTTEN ps) eqn:Hs; [|done].
  apply is_state_true in Hs. apply IH; auto; [|lia].
  destruct (decide (m = S n)) as [->|]; [|lia].
  destruct (Hj n) as (ps' & ? & ?); [lia|]. congruence.
Qed.

Lemma state_died_slot E is_error ps : state (died_slot E is_error ps) = SSTATE_FORGOTTEN.
Proof. unfold died_slot; destruct is_error; done. Qed.

Lemma instance_died_update_Ret E p i is_error ps :
  statements p !! i = Some ps → state ps ≠ SSTATE_FORGOTTEN →
  instance_died_update E p i is_error =
    Ret (let p1 := upd_stmt i (fun _ => died_slot E is_error ps) p in
         let p2 := if i <? ap p1 then set_ap i p1 else p1 in
         set_fp (scan_FP (statements p2) (fp p2)) p2).
Proof.
  intros Hps Hst. unfold instance_died_update, get_stmt. rewrite Hps; simpl.
  rewrite ASSERT_true
    by (unfold is_state; destruct (state ps); done).
  simpl. unfold died_slot. destruct is_error; simpl; done.
Qed.

Lemma instance_died_update_spec E c p i is_error ps :
  pointers_ok p → errors_expired c p →
  statements p !! i = Some ps → state ps ≠ SSTATE_FORGOTTEN →
  ∃ p1, instance_died_update E p i is_error = Ret p1 ∧
        pointers_ok p1 ∧ errors_expired c p1.
Proof.
  intros Hp He Hps Hst. rewrite (instance_died_update_Ret E p i is_error ps) by done.
  eexists; split; [done|].
  pose proof (po_ap_fp _ Hp). pose proof (po_fp_num _ Hp).
  pose proof (state_died_slot E is_error ps) as Hds.
  set (f := fun _ : process_statement => died_slot E is_error ps) in *.
  set (p1 := upd_stmt i f p).
  assert (Hi : i < fp p).
  { destruct (Nat.lt_ge_cases i (fp p)) as [|Hge]; [done|]. exfalso; apply Hst.
    assert (Hs : sst p i = Some SSTATE_FORGOTTEN).
    { apply (po_above _ Hp); [done|]. apply (lookup_lt_Some _ _ _ Hps). }
    apply sst_Some in Hs as (? & ? & ?); congruence. }
  set (n := if i <? ap p then i else ap p).
  assert (Hn : n ≤ ap p ∧ n ≤ i) by (subst n; destruct (Nat.ltb_spec i (ap p)); lia).
  assert (Hp2 : (if i <? ap p1 then set_ap i p1 else p1) = set_ap n p1).
  { subst n p1; simpl. destruct (i <? ap p); [done|]. by destruct p. }
  cbv zeta. fold p1. rewrite Hp2. simpl.
  assert (Hlow : ∀ j, j < n → sst p1 j = sst p j ∧
                   (sst p j = Some SSTATE_ADULT ∨ sst p j = Some SSTATE_CHILD)).
  { intros j Hj. split; [subst p1; apply sst_upd_ne; lia|].
    destruct (decide (j + 1 = ap p)); [apply (po_last _ Hp); done|].
    left; apply (po_below _ Hp); lia. }
  assert (Hge : n ≤ scan_FP (statements p1) (fp p)).
  { apply scan_FP_ge; [lia|subst p1; simpl; rewrite length_alter; done|].
    intros j Hj. destruct (Hlow j) as [Hj1 Hj2]; [lia|].
    rewrite <- Hj1 in Hj2.
    destruct Hj2 as [(q & ? & Hq)%sst_Some|(q & ? & Hq)%sst_Some];
      exists q; rewrite Hq; done. }
  pose proof (scan_FP_le (statements p1) (fp p)) as Hle.
  change (statements p1) with (alter f i (statements p)) in Hge, Hle.
  split.
  - split; simpl; autorewrite with proc; try lia.
    + subst p1; autorewrite with proc; lia.
    + intros j Hj. autorewrite with proc. destruct (Hlow j) as [-> _]; [lia|].
      apply (po_below _ Hp); lia.
    + intros j Hj. autorewrite with proc. destruct (Hlow j) as [-> ?]; [lia|done].
    + intros j Hj1 Hj2. autorewrite with proc in *.
      destruct (sst_is_Some p1 j Hj2) as [y Hy]. rewrite Hy; f_equal.
      apply sst_Some in Hy as (q & Hq & <-).
      destruct (Nat.lt_ge_cases j (fp p)).
      * apply (scan_FP_forgotten (statements p1) (fp p) j q); auto.
      * subst p1; simpl in Hq. rewrite list_lookup_alter_ne in Hq by lia.
        assert (Hs : sst p j = Some SSTATE_FORGOTTEN).
        { apply (po_above _ Hp); [done|]. apply (lookup_lt_Some _ _ _ Hq). }
        apply sst_Some in Hs as (? & ? & ?); congruence.
    + intros j Hj (q & Hq & Hqs)%sst_Some.
      apply (scan_FP_top (statements p1) (fp p) j q); auto.
      subst p1; simpl; rewrite length_alter; done.
  - apply (errors_expired_upd c p i f ps); auto. subst f; simpl. congruence.
Qed.

(** ** The wait timer callback *)

Lemma process_wait_timer_handler_inv E c p t :
  process_inv false c p → wait_timer p = Some t → (c ≤ btime_gettime E)%Z →
  ∃ p', process_wait_timer_handler E (set_timer None p) = Ret p' ∧
        process_inv false (btime_gettime E) p'.
Proof.
  intros Hinv Ht Hc. destruct (pi_timer _ _ _ Hinv t Ht) as (_ & Hap & Hb & ps & Hps & Herr & _).
  pose proof (pi_pointers _ _ _ Hinv) as Hp.
  unfold process_wait_timer_handler; simpl.
  rewrite (ASSERT_true (ap p =? fp p)) by (apply Nat.eqb_eq; done); simpl.
  rewrite (below_adult_ok (set_timer None p)) by done; simpl.
  rewrite ASSERT_true by (apply Nat.ltb_lt, (lookup_lt_Some _ _ _ Hps)); simpl.
  unfold get_stmt; simpl; rewrite Hps; simpl. rewrite Herr; simpl.
  apply process_advance_inv with (c := c); auto.
  - split; simpl; auto.
    + apply pointers_ok_upd_same, pointers_ok_set_timer, Hp. done.
    + intros j Hj; simpl in Hj. rewrite sst_upd_same by done. apply Hb, Hj.
  - apply (errors_expired_upd c (set_timer None p) (ap p) _ ps); auto.
    + apply (pi_errors _ _ _ Hinv).
    + simpl; done.
Qed.

(** ** The supervisor invariant *)

Lemma work_result_inv k c c' g g' :
  work_result k c' g g' → (c ≤ c')%Z →
  (∀ j q, j ≠ k → processes g !! j = Some q → process_inv (terminating g) c q) →
  quit g = None ∨ processes g = [] →
  supervisor_inv c' g'.
Proof.
  intros [Hterm Hres] Hc Hothers Hquit.
  destruct Hres as [(p' & Hpr & Hinv & Hq)|(_ & Hpr & Hq)]; split.
  - rewrite Hterm, Hpr. apply Forall_lookup. intros j q Hj.
    destruct (decide (k = j)) as [->|Hne].
    + pose proof (lookup_lt_Some _ _ _ Hj) as Hlt. rewrite length_insert in Hlt.
      rewrite list_lookup_insert_eq in Hj by done. congruence.
    + rewrite list_lookup_insert_ne in Hj by done.
      apply (process_inv_mono _ c); eauto.
  - rewrite Hq, Hpr. destruct Hquit as [?| ->]; auto.
  - rewrite Hterm, Hpr. apply Forall_lookup. intros j q Hj.
    apply (process_inv_mono _ c); [done|].
    destruct (Nat.lt_ge_cases j k).
    + rewrite list_lookup_delete_lt in Hj by done. apply (Hothers j); [lia|done].
    + rewrite list_lookup_delete_ge in Hj by done. apply (Hothers (S j)); [lia|done].
  - rewrite Hq. destruct (processes g') eqn:Hl; auto.
    destruct Hquit as [?| Hnil]; auto.
    rewrite Hnil in Hpr. destruct k; done.
Qed.

Lemma process_work_inv k E c g p p1 :
  supervisor_inv c g → processes g !! k = Some p →
  pointers_ok p1 → errors_expired c p1 → (c ≤ btime_gettime E)%Z →
  ∃ g', process_work k E (set_process k p1 g) = Ret g' ∧
        supervisor_inv (btime_gettime E) g'.
Proof.
  intros [Hall Hquit] Hk Hp1 He1 Hc. pose proof (lookup_lt_Some _ _ _ Hk) as Hlt.
  destruct (process_work_spec k E c (set_process k p1 g) p1) as (g' & Hw & Hres); auto.
  { simpl. apply list_lookup_insert_eq, Hlt. }
  exists g'; split; [done|]. apply (work_result_inv k c _ _ _ Hres Hc).
  - simpl. intros j q Hne Hj. rewrite list_lookup_insert_ne in Hj by done.
    apply (Forall_lookup_1 _ _ _ _ Hall Hj).
  - simpl. destruct Hquit as [?|Hnil]; auto. rewrite Hnil in Hk; done.
Qed.

Lemma slot_state_Some g k i x :
  slot_state g k i = Some x ↔
  ∃ p, processes g !! k = Some p ∧ sst p i = Some x.
Proof.
  unfold slot_state, sst. split.
  - destruct (processes g !! k) as [p|]; simpl; [|done].
    intros H; exists p; split; [done|].
    destruct (statements p !! i); simpl in *; done.
  - intros (p & -> & H); simpl.
    destruct (statements p !! i); simpl in *; done.
Qed.

Lemma instance_handler_event_inv k i event E c g x :
  supervisor_inv c g → slot_state g k i = Some x → event_allowed event x →
  (c ≤ btime_gettime E)%Z →
  ∃ g', process_statement_instance_handler_event k i event E g = Ret g' ∧
        supervisor_inv (btime_gettime E) g'.
Proof.
  intros Hinv (p & Hk & Hx)%slot_state_Some Hev Hc.
  pose proof (Forall_lookup_1 _ _ _ _ (si_processes _ _ Hinv) Hk) as Hpi.
  unfold process_statement_instance_handler_event, get_process. rewrite Hk; simpl.
  destruct (instance_event_update_spec c p i event x
              (pi_pointers _ _ _ Hpi) (pi_errors _ _ _ Hpi) Hx Hev)
    as (p1 & -> & Hp1 & He1).
  simpl. apply (process_work_inv k E c g p p1); auto.
Qed.

Lemma instance_handler_died_inv k i is_error E c g x :
  supervisor_inv c g → slot_state g k i = Some x → x ≠ SSTATE_FORGOTTEN →
  (c ≤ btime_gettime E)%Z →
  ∃ g', process_statement_instance_handler_died k i is_error E g = Ret g' ∧
        supervisor_inv (btime_gettime E) g'.
Proof.
  intros Hinv (p & Hk & (ps & Hps & Hs)%sst_Some)%slot_state_Some Hx Hc.
  pose proof (Forall_lookup_1 _ _ _ _ (si_processes _ _ Hinv) Hk) as Hpi.
  unfold process_statement_instance_handler_died, get_process. rewrite Hk; simpl.
  assert (Hnf : state ps ≠ SSTATE_FORGOTTEN) by congruence.
  destruct (instance_died_update_spec E c p i is_error ps
              (pi_pointers _ _ _ Hpi) (pi_errors _ _ _ Hpi) Hps Hnf)
    as (p1 & -> & Hp1 & He1).
  simpl. apply (process_work_inv k E c g p p1); auto.
Qed.

Lemma wait_timer_inv k E c g p t :
  supervisor_inv c g → processes g !! k = Some p → wait_timer p = Some t →
  (c ≤ btime_gettime E)%Z →
  ∃ g', dispatch (EV_wait_timer k) E g = Ret g' ∧ supervisor_inv (btime_gettime E) g'.
Proof.
  intros [Hall Hquit] Hk Ht Hc.
  pose proof (Forall_lookup_1 _ _ _ _ Hall Hk) as Hpi.
  assert (Hterm : terminating g = false) by (apply (pi_timer _ _ _ Hpi t Ht)).
  rewrite Hterm in *.
  unfold dispatch, get_process. rewrite Hk; simpl.
  destruct (process_wait_timer_handler_inv E c p t) as (p' & -> & Hp'); auto.
  simpl. eexists; split; [done|]. split; simpl; [|destruct Hquit as [?|Hnil]; auto].
  - rewrite Hterm. apply Forall_lookup. intros j q Hj.
    destruct (decide (k = j)) as [->|Hne].
    + pose proof (lookup_lt_Some _ _ _ Hj) as Hlt. rewrite length_insert in Hlt.
      rewrite list_lookup_insert_eq in Hj by done. congruence.
    + rewrite list_lookup_insert_ne in Hj by done.
      apply (process_inv_mono _ c); [done|]. apply (Forall_lookup_1 _ _ _ _ Hall Hj).
  - rewrite Hnil in Hk; done.
Qed.

(** ** terminate *)

Lemma terminate_loop_inv E n : ∀ k g,
  terminating g = true → k + n = length (processes g) →
  (∀ j q, processes g !! j = Some q →
     pointers_ok q ∧ errors_expired (btime_gettime E) q ∧
     (j < k → process_inv true (btime_gettime E) q)) →
  quit g = None ∨ processes g = [] →
  ∃ g', terminate_loop E n k g = Ret g' ∧ terminating g' = true ∧
        supervisor_inv (btime_gettime E) g'.
Proof.
  induction n as [|n IH]; intros k g Hterm Hlen Hall Hquit; simpl.
  - exists g; split; [done|]. split; [done|]. split; [|done].
    rewrite Hterm. apply Forall_lookup. intros j q Hj.
    apply (Hall j q Hj). pose proof (lookup_lt_Some _ _ _ Hj). lia.
  - destruct (lookup_lt_is_Some_2 (processes g) k) as [p Hk]; [lia|].
    destruct (Hall k p Hk) as (Hp & He & _).
    destruct (process_work_spec k E (btime_gettime E) g p)
      as (g' & -> & Hterm' & Hres); auto; [lia|]. simpl.
    rewrite Hterm in *.
    destruct Hres as [(p' & Hpr & Hinv & Hq)|(_ & Hpr & Hq)].
    + assert (Hl : length (processes g') = length (processes g))
        by (rewrite Hpr; apply length_insert).
      rewrite Hl. rewrite Nat.ltb_irrefl.
      apply IH; auto; [lia| |].
      * intros j q Hj. rewrite Hpr in Hj.
        destruct (decide (k = j)) as [->|Hne].
        -- rewrite list_lookup_insert_eq in Hj by lia.
           injection Hj as <-.
           split_and!; [apply (pi_pointers _ _ _ Hinv)|apply (pi_errors _ _ _ Hinv)|done].
        -- rewrite list_lookup_insert_ne in Hj by done.
           destruct (Hall j q Hj) as (? & ? & Hd). split_and!; auto.
           intros; apply Hd; lia.
      * rewrite Hq. destruct Hquit as [?|Hnil]; auto. rewrite Hnil in Hk; done.
    + assert (Hl : S (length (processes g')) = length (processes g)).
      { rewrite Hpr, length_delete; [lia|eauto]. }
      destruct (Nat.ltb_spec (length (processes g')) (length (processes g))); [|lia].
      apply IH; auto; [lia| |].
      * intros j q Hj. rewrite Hpr in Hj. destruct (Nat.lt_ge_cases j k).
        -- rewrite list_lookup_delete_lt in Hj by done. apply (Hall j q Hj).
        -- rewrite list_lookup_delete_ge in Hj by done.
           destruct (Hall (S j) q Hj) as (? & ? & _). split_and!; auto. lia.
      * rewrite Hq. destruct (processes g'); auto.
        destruct Hquit as [?|Hnil]; auto. rewrite Hnil in Hk; done.
Qed.

Lemma terminate_inv E c g :
  supervisor_inv c g → terminating g = false → (c ≤ btime_gettime E)%Z →
  ∃ g', terminate E g = Ret g' ∧ terminating g' = true ∧
        supervisor_inv (btime_gettime E) g'.
Proof.
  intros [Hall Hquit] Hterm Hc. unfold terminate. rewrite Hterm; simpl.
  destruct (processes g) as [|p l] eqn:Hl.
  - eexists; split; [done|]. split; [done|]. split; simpl; rewrite Hl; auto.
  - rewrite <- Hl in Hall, Hquit |- *.
    apply terminate_loop_inv; simpl; auto.
    intros j q Hj. pose proof (Forall_lookup_1 _ _ _ _ Hall Hj) as Hpi.
    split_and!; [apply (pi_pointers _ _ _ Hpi)| |lia].
    eapply errors_expired_mono; [exact Hc|apply (pi_errors _ _ _ Hpi)].
Qed.

Lemma supervisor_inv_mono c c' g :
  (c ≤ c')%Z → supervisor_inv c g → supervisor_inv c' g.
Proof.
  intros Hc [Hall Hquit]; split; [|done].
  apply Forall_lookup; intros j p Hj. apply (process_inv_mono _ c); [done|].
  apply (Forall_lookup_1 _ _ _ _ Hall Hj).
Qed.

Lemma signal_handler_inv E c g :
  supervisor_inv c g → (c ≤ btime_gettime E)%Z →
  ∃ g', signal_handler E g = Ret g' ∧ terminating g' = true ∧
        supervisor_inv (btime_gettime E) g'.
Proof.
  intros Hinv Hc. unfold signal_handler. destruct (terminating g) eqn:Hterm; simpl.
  - exists g; split_and!; auto. apply (supervisor_inv_mono c); done.
  - apply (terminate_inv E c); done.
Qed.

(** ** Process construction *)

Lemma new_process_ok c nm (sts : list statement) :
  let p := {| p_name := nm; statements := new_statement <$> sts;
              ap := 0; fp := 0; wait_timer := None |} in
  pointers_ok p ∧ errors_expired c p.
Proof.
  intros p. split.
  - split; simpl; try lia.
    intros i _ Hi. destruct (sst_is_Some p i Hi) as [x Hx]. rewrite Hx; f_equal.
    apply sst_Some in Hx as (ps & Hps & <-). subst p; simpl in Hps.
    rewrite list_lookup_fmap in Hps. destruct (sts !! i); simpl in Hps; [|done].
    injection Hps as <-. done.
  - intros i ps Hps Herr. subst p; simpl in Hps.
    rewrite list_lookup_fmap in Hps. destruct (sts !! i); simpl in Hps; [|done].
    injection Hps as <-. done.
Qed.

Lemma process_new_inv ncd_modules conf E c g :
  supervisor_inv c g → quit g = None → (c ≤ btime_gettime E)%Z →
  ∃ g', process_new ncd_modules conf E g = Ret g' ∧
        supervisor_inv (btime_gettime E) g' ∧
        terminating g' = terminating g ∧
        (terminating g = false → quit g' = quit g).
Proof.
  intros Hinv Hq0 Hc. unfold process_new.
  pose proof (supervisor_inv_mono _ _ _ Hc Hinv) as Hinv'.
  destruct (malloc_ok E); simpl; [|eauto].
  destruct (mapM _ _) as [sts|]; [|eauto].
  set (p := {| p_name := if_name conf; statements := new_statement <$> sts;
               ap := 0; fp := 0; wait_timer := None |}).
  destruct (new_process_ok c (if_name conf) sts) as [Hp He]. fold p in Hp, He.
  destruct Hinv as [Hall Hquit].
  destruct (process_work_spec (length (processes g)) E c
              (set_processes (processes g ++ [p]) g) p) as (g' & Hw & Hres); auto.
  { simpl. apply list_lookup_middle; done. }
  exists g'; split; [done|]. split_and!.
  - apply (work_result_inv _ c _ _ _ Hres Hc); simpl.
    + intros j q Hne Hj. apply lookup_app_Some in Hj as [Hj|[Hge Hj]].
      * apply (Forall_lookup_1 _ _ _ _ Hall Hj).
      * destruct (j - length (processes g)) as [|n] eqn:Hn; [lia|done].
    + auto.
  - apply Hres.
  - intros Hterm. destruct Hres as [_ [(p' & _ & _ & Hq)|(Ht & _)]]; [done|].
    simpl in Ht; congruence.
Qed.

(** ** Every callback preserves the invariant and hits no assertion *)

Lemma enabled_clock c e E g : enabled c e E g = true → (c ≤ btime_gettime E)%Z.
Proof.
  unfold enabled. intros [H _]%andb_true_iff. apply bool_decide_eq_true in H; done.
Qed.

Lemma dispatch_inv c e E g :
  supervisor_inv c g → enabled c e E g = true →
  ∃ g', dispatch e E g = Ret g' ∧ supervisor_inv (btime_gettime E) g'.
Proof.
  intros Hinv Hen. pose proof (enabled_clock _ _ _ _ Hen) as Hc.
  unfold enabled in Hen. apply andb_true_iff in Hen as [_ Hen].
  destruct e as [k|k i ev|k i is_error|].
  - destruct (processes g !! k) as [p|] eqn:Hk; [|done].
    destruct (wait_timer p) as [t|] eqn:Ht; [|done].
    apply (wait_timer_inv k E c g p t); auto.
  - simpl. destruct ev;
      try apply orb_true_iff in Hen as [Hen|Hen]; apply bool_decide_eq_true in Hen;
      eapply instance_handler_event_inv; eauto; simpl; auto.
  - simpl. apply orb_true_iff in Hen as [Hen|Hen];
      [apply orb_true_iff in Hen as [Hen|Hen]|]; apply bool_decide_eq_true in Hen;
      eapply instance_handler_died_inv; eauto; done.
  - simpl. destruct (signal_handler_inv E c g Hinv Hc) as (g' & ? & _ & ?); eauto.
Qed.

Lemma startup_inv ncd_modules c g :
  startup ncd_modules c g →
  supervisor_inv c g ∧ terminating g = false ∧ quit g = None.
Proof.
  induction 1 as [c|c g conf E g' _ (Hinv & Hterm & Hquit) Hc Hnew].
  - split_and!; auto. split; simpl; auto.
  - destruct (process_new_inv ncd_modules conf E c g Hinv Hquit Hc)
      as (g'' & Hnew' & Hinv' & Hterm' & Hquit').
    rewrite Hnew in Hnew'; injection Hnew' as <-.
    split_and!; auto; [congruence|]. rewrite Hquit'; done.
Qed.

Lemma reachable_inv c g : reachable c g → supervisor_inv c g.
Proof.
  induction 1 as [mods c g Hs|c g e E g' _ Hinv Hquit Hen Hd].
  - apply (startup_inv _ _ _ Hs).
  - destruct (dispatch_inv c e E g Hinv Hen) as (g'' & Hd' & Hinv').
    rewrite Hd in Hd'; injection Hd' as <-. done.
Qed.

Lemma reachable_process_inv c g k p :
  reachable c g → processes g !! k = Some p → process_inv (terminating g) c p.
Proof.
  intros Hr Hk. apply (Forall_lookup_1 _ _ _ _ (si_processes _ _ (reachable_inv _ _ Hr)) Hk).
Qed.

(** From a reachable state every callback that [enabled] admits runs to
    completion: past the entry of its handler no assertion fails and no
    array is accessed out of bounds; and so does [process_new] during
    startup. *)
Theorem callbacks_run_to_completion c g e E :
  reachable c g → enabled c e E g = true → ∃ g', dispatch e E g = Ret g'.
Proof.
  intros Hr Hen. destruct (dispatch_inv c e E g (reachable_inv _ _ Hr) Hen) as (g' & ? & _).
  eauto.
Qed.

Theorem process_new_runs_to_completion ncd_modules c g conf E :
  startup ncd_modules c g → (c ≤ btime_gettime E)%Z →
  ∃ g', process_new ncd_modules conf E g = Ret g'.
Proof.
  intros Hs Hc. destruct (startup_inv _ _ _ Hs) as (Hinv & _ & Hq).
  destruct (process_new_inv ncd_modules conf E c g Hinv Hq Hc) as (g' & ? & _). eauto.
Qed.

(** ** Executions are reachable *)

Lemma run_startup_sound ncd_modules l : ∀ c g c' g',
  startup ncd_modules c g → run_startup ncd_modules l c g = Some (c', g') →
  startup ncd_modules c' g'.
Proof.
  induction l as [|[conf E] l IH]; simpl; intros c g c' g' Hs Hrun.
  - injection Hrun as <- <-; done.
  - destruct (bool_decide_reflect (c ≤ btime_gettime E)%Z) as [Hc|]; [|done].
    destruct (process_new ncd_modules conf E g) as [g1|] eqn:Hnew; [|done].
    apply (IH _ _ _ _ (startup_process_new _ _ _ _ _ _ Hs Hc Hnew) Hrun).
Qed.

Lemma run_events_sound l : ∀ c g c' g',
  reachable c g → run_events l c g = Some (c', g') → reachable c' g'.
Proof.
  induction l as [|[e E] l IH]; simpl; intros c g c' g' Hr Hrun.
  - injection Hrun as <- <-; done.
  - destruct (quit g) eqn:Hq; [done|].
    destruct (enabled c e E g) eqn:Hen; [|done].
    destruct (dispatch e E g) as [g1|] eqn:Hd; [|done].
    apply (IH _ _ _ _ (reachable_dispatch _ _ _ _ _ Hr Hq Hen Hd) Hrun).
Qed.

Lemma run_sound ncd_modules l evs c g :
  run ncd_modules l evs = Some (c, g) → reachable c g.
Proof.
  unfold run. destruct (run_startup ncd_modules l 0 initial) as [[c0 g0]|] eqn:Hs;
    simpl; [|done].
  apply run_events_sound, (reachable_startup ncd_modules).
  apply (run_startup_sound _ _ _ _ _ _ (startup_initial _ _) Hs).
Qed.

Lemma ex_state_reachable evs :
  is_Some (ex_run evs) → reachable (ex_state evs).1 (ex_state evs).2.
Proof.
  unfold ex_state. intros [[c g] Hrun]. rewrite Hrun; simpl.
  apply (run_sound _ _ _ _ _ Hrun).
Qed.

(** ** The pointers of a process (C1) *)

(** C1: in every reachable state, every process has
    0 <= AP <= FP <= num_statements, every slot below AP-1 is ADULT and the
    slot AP-1, when AP > 0, is ADULT or CHILD; process_assert_pointers
    passes on it. *)
Theorem C1_pointers_and_committed_prefix c g k p :
  reachable c g → processes g !! k = Some p →
  0 ≤ ap p ∧ ap p ≤ fp p ∧ fp p ≤ num_statements p ∧
  (∀ i, i + 1 < ap p → sst p i = Some SSTATE_ADULT) ∧
  (0 < ap p →
   sst p (ap p - 1) = Some SSTATE_ADULT ∨ sst p (ap p - 1) = Some SSTATE_CHILD) ∧
  process_assert_pointers p = Ret ().
Proof.
  intros Hr Hk. pose proof (pi_pointers _ _ _ (reachable_process_inv _ _ _ _ Hr Hk)) as Hp.
  pose proof Hp as [H1 H2 H3 H4 _ _].
  split_and!; auto; [lia| |apply process_assert_pointers_spec, Hp].
  intros Hpos. apply H4; lia.
Qed.

Lemma C1_pointers_and_committed_prefix_witness :
  let p := ex_proc ex_both_alive in
  0 ≤ ap p ∧ ap p ≤ fp p ∧ fp p ≤ num_statements p ∧
  (∀ i, i + 1 < ap p → sst p i = Some SSTATE_ADULT) ∧
  (0 < ap p →
   sst p (ap p - 1) = Some SSTATE_ADULT ∨ sst p (ap p - 1) = Some SSTATE_CHILD) ∧
  process_assert_pointers p = Ret ().
Proof.
  apply (C1_pointers_and_committed_prefix
           (ex_state ex_both_alive).1 (ex_state ex_both_alive).2 0).
  - apply ex_state_reachable. vm_compute. eauto.
  - vm_compute. reflexivity.
Defined.

(** ** FP and the forgotten slots (C9) *)

(** C9: in every reachable state FP is the least position from which all
    slots are FORGOTTEN: the slots from FP on are FORGOTTEN, no smaller
    position has that property, the slot FP-1 (when FP > 0) is not
    FORGOTTEN, and FP is the value computed by the loop of
    process_assert_pointers. *)
Theorem C9_fp_is_least_forgotten_suffix c g k p :
  reachable c g → processes g !! k = Some p →
  (∀ i, fp p ≤ i → i < num_statements p → sst p i = Some SSTATE_FORGOTTEN) ∧
  (∀ n, (∀ i, n ≤ i → i < num_statements p → sst p i = Some SSTATE_FORGOTTEN) →
        fp p ≤ n) ∧
  (0 < fp p → ∃ x, sst p (fp p - 1) = Some x ∧ x ≠ SSTATE_FORGOTTEN) ∧
  fp p = scan_FP (statements p) (num_statements p).
Proof.
  intros Hr Hk. pose proof (pi_pointers _ _ _ (reachable_process_inv _ _ _ _ Hr Hk)) as Hp.
  pose proof Hp as [H1 H2 H3 H4 H5 H6].
  assert (Htop : 0 < fp p → ∃ x, sst p (fp p - 1) = Some x ∧ x ≠ SSTATE_FORGOTTEN).
  { intros Hpos. destruct (sst_is_Some p (fp p - 1)) as [x Hx]; [lia|].
    exists x; split; [done|]. intros ->. apply (H6 (fp p - 1)); [lia|done]. }
  split_and!; auto.
  - intros n Hn. destruct (Nat.le_gt_cases (fp p) n) as [|Hlt]; [done|]. exfalso.
    destruct Htop as (x & Hx & Hnf); [lia|].
    rewrite Hn in Hx by lia. congruence.
  - apply process_assert_pointers_spec in Hp. unfold process_assert_pointers in Hp.
    repeat (apply bind_Ret in Hp as ([] & _ & Hp)).
    apply ASSERT_Ret, Nat.eqb_eq in Hp. done.
Qed.

Lemma C9_fp_is_least_forgotten_suffix_witness :
  let p := ex_proc ex_first_dies in
  (∀ i, fp p ≤ i → i < num_statements p → sst p i = Some SSTATE_FORGOTTEN) ∧
  (∀ n, (∀ i, n ≤ i → i < num_statements p → sst p i = Some SSTATE_FORGOTTEN) →
        fp p ≤ n) ∧
  (0 < fp p → ∃ x, sst p (fp p - 1) = Some x ∧ x ≠ SSTATE_FORGOTTEN) ∧
  fp p = scan_FP (statements p) (num_statements p).
Proof.
  apply (C9_fp_is_least_forgotten_suffix
           (ex_state ex_first_dies).1 (ex_state ex_first_dies).2 0).
  - apply ex_state_reachable. vm_compute. eauto.
  - vm_compute. reflexivity.
Defined.

(** ** The region between AP and FP (C3) *)

(** C3, as stated, fails: after the instance of [a] has reported DYING and
    has died while the one of [b], ordered to die, is still alive, slot 0
    lies in the region AP <= i < FP and is FORGOTTEN. *)
Lemma C3_forgotten_slot_in_region :
  ¬ (∀ c g k p i, reachable c g → processes g !! k = Some p →
       ap p ≤ i → i < fp p →
       sst p i = Some SSTATE_CHILD ∨ sst p i = Some SSTATE_ADULT ∨
       sst p i = Some SSTATE_DYING).
Proof.
  intros H.
  specialize (H (ex_state ex_first_dies).1 (ex_state ex_first_dies).2 0
                (ex_proc ex_first_dies) 0).
  destruct H as [H|[H|H]]; try (vm_compute in H; discriminate H).
  - apply ex_state_reachable. vm_compute. eauto.
  - vm_compute. reflexivity.
  - vm_compute. lia.
  - vm_compute. lia.
Qed.

(** C3, amended: in every reachable state in which AP < FP the slot FP-1
    is DYING, so that the region AP <= i < FP, when it is not empty,
    contains a slot that is DYING or CHILD. *)
Theorem C3_region_tail_is_dying c g k p :
  reachable c g → processes g !! k = Some p → ap p < fp p →
  sst p (fp p - 1) = Some SSTATE_DYING ∧
  ∃ i, ap p ≤ i ∧ i < fp p ∧
       (sst p i = Some SSTATE_DYING ∨ sst p i = Some SSTATE_CHILD).
Proof.
  intros Hr Hk Hlt.
  pose proof (pi_tail _ _ _ (reachable_process_inv _ _ _ _ Hr Hk) (fp p - 1) Hlt) as Ht.
  assert (Hd : sst p (fp p - 1) = Some SSTATE_DYING) by (apply Ht; lia).
  split; [done|]. exists (fp p - 1). split_and!; auto; lia.
Qed.

Lemma C3_region_tail_is_dying_witness :
  let p := ex_proc ex_first_dies in
  sst p (fp p - 1) = Some SSTATE_DYING ∧
  ∃ i, ap p ≤ i ∧ i < fp p ∧
       (sst p i = Some SSTATE_DYING ∨ sst p i = Some SSTATE_CHILD).
Proof.
  apply (C3_region_tail_is_dying
           (ex_state ex_first_dies).1 (ex_state ex_first_dies).2 0).
  - apply ex_state_reachable. vm_compute. eauto.
  - vm_compute. reflexivity.
  - vm_compute. lia.
Defined.

(** ** What advance does *)

(** The three outcomes of [process_advance] on the statement at AP. *)
Lemma process_advance_eq E p ps :
  advance_pre p → statements p !! ap p = Some ps →
  process_advance E p =
    if have_error ps && (btime_gettime E <? error_until ps)%Z
    then Ret (set_timer (Some (error_until ps)) p)
    else
      match advance_try E p ps with
      | Ret (inr args) =>
          Ret (set_fp (fp p + 1)
                 (set_ap (ap p + 1)
                    (upd_stmt (ap p)
                       (fun ps => set_state SSTATE_CHILD (set_inst_args (Some args) ps))
                       p)))
      | Ret (inl _) =>
          Ret (set_timer (Some (btime_gettime E + RETRY_TIME)%Z)
                 (upd_stmt (ap p) (fun _ => failed_slot E ps) p))
      | Fault f => Fault f
      end.
Proof.
  intros Hpre Hps. pose proof Hpre as [Hp Hap Hb].
  pose proof (lookup_lt_Some _ _ _ Hps) as Hlt.
  unfold process_advance.
  rewrite (ASSERT_true (ap p =? fp p)) by (apply Nat.eqb_eq; done); simpl.
  rewrite below_adult_ok by done; simpl.
  destruct (Nat.eqb_spec (ap p) (num_statements p)) as [Hn|Hn];
    [unfold num_statements in Hn; lia|].
  unfold get_stmt; rewrite Hps; simpl.
  destruct (have_error ps && (btime_gettime E <? error_until ps)%Z) eqn:Hw.
  - apply andb_true_iff in Hw as [Hw _]. apply process_wait_Ret; auto.
  - destruct (advance_try E p ps) as [[e|args]|f]; simpl; auto.
    + apply advance_fail1_Ret; auto.
    + rewrite process_assert_ok; [done|].
      apply pointers_ok_advance with (ps := ps); auto.
Qed.

Lemma process_wait_timer_handler_eq E p p' :
  process_wait_timer_handler E p = Ret p' →
  ∃ ps, statements p !! ap p = Some ps ∧ have_error ps = true ∧
        process_advance E (upd_stmt (ap p) (set_have_error false) p) = Ret p'.
Proof.
  unfold process_wait_timer_handler. intros H.
  do 3 (apply bind_Ret in H as ([] & _ & H)).
  apply bind_Ret in H as (ps & Hps%get_stmt_Ret & H).
  apply bind_Ret in H as ([] & Herr%ASSERT_Ret & H). eauto.
Qed.

(** ** The wait timer (C4) *)

(** C4, as stated, fails from right to left: after the initialisation of
    [b] has failed and [a] has gone down, AP = FP = 1 < 2, slot 1 has an
    error, the supervisor is not terminating, and the timer is not set. *)
Lemma C4_timer_not_armed_below_child :
  ¬ (∀ c g k p, reachable c g → processes g !! k = Some p →
       (is_Some (wait_timer p) ↔
        ap p = fp p ∧ fp p < num_statements p ∧
        (∃ ps, statements p !! ap p = Some ps ∧ have_error ps = true) ∧
        terminating g = false)).
Proof.
  intros H.
  specialize (H (ex_state ex_error_then_down).1 (ex_state ex_error_then_down).2 0
                (ex_proc ex_error_then_down)).
  destruct H as [_ H].
  - apply ex_state_reachable. vm_compute. eauto.
  - vm_compute. reflexivity.
  - destruct H as [t Ht]; [|vm_compute in Ht; discriminate Ht].
    split_and!; [vm_compute; reflexivity|vm_compute; lia| |vm_compute; reflexivity].
    eexists; split; vm_compute; reflexivity.
Qed.

(** C4, amended: in every reachable state the wait timer of a process is
    set if and only if AP = FP < num_statements, the slot AP has an error,
    the supervisor is not terminating, and the slot AP-1 (when AP > 0) is
    ADULT; the timer is then set to the [error_until] of the slot AP. *)
Theorem C4_wait_timer_armed_iff c g k p :
  reachable c g → processes g !! k = Some p →
  (is_Some (wait_timer p) ↔
   ap p = fp p ∧ fp p < num_statements p ∧
   (∃ ps, statements p !! ap p = Some ps ∧ have_error ps = true) ∧
   terminating g = false ∧
   (ap p = 0 ∨ sst p (ap p - 1) = Some SSTATE_ADULT)) ∧
  (∀ t, wait_timer p = Some t →
        ∃ ps, statements p !! ap p = Some ps ∧ error_until ps = t).
Proof.
  intros Hr Hk. pose proof (reachable_process_inv _ _ _ _ Hr Hk) as Hinv.
  split; [split|].
  - intros [t Ht]. destruct (pi_timer _ _ _ Hinv t Ht) as (Hterm & Hap & Hb & ps & Hps & Herr & _).
    split_and!; auto.
    + rewrite <- Hap. apply (lookup_lt_Some _ _ _ Hps).
    + eauto.
    + destruct (ap p) as [|n] eqn:Hn; [auto|right]. apply Hb; lia.
  - intros (Hap & Hlt & _ & Hterm & Hb).
    destruct (wait_timer p) eqn:Ht; [eauto|]. exfalso.
    apply (pi_waiting _ _ _ Hinv); auto; [lia|].
    intros i Hi. destruct Hb as [Hz|Hb]; [lia|]. replace i with (ap p - 1) by lia. done.
  - intros t Ht. destruct (pi_timer _ _ _ Hinv t Ht) as (_ & _ & _ & ps & Hps & _ & Heu).
    eauto.
Qed.

Lemma C4_wait_timer_armed_iff_witness :
  let p := ex_proc ex_waiting in
  (is_Some (wait_timer p) ↔
   ap p = fp p ∧ fp p < num_statements p ∧
   (∃ ps, statements p !! ap p = Some ps ∧ have_error ps = true) ∧
   terminating (ex_state ex_waiting).2 = false ∧
   (ap p = 0 ∨ sst p (ap p - 1) = Some SSTATE_ADULT)) ∧
  (∀ t, wait_timer p = Some t →
        ∃ ps, statements p !! ap p = Some ps ∧ error_until ps = t).
Proof.
  apply (C4_wait_timer_armed_iff (ex_state ex_waiting).1 (ex_state ex_waiting).2 0).
  - apply ex_state_reachable. vm_compute. eauto.
  - vm_compute. reflexivity.
Defined.

(** ** The error flag (C2) *)

Lemma timer_advance_pre c p t :
  process_inv false c p → wait_timer p = Some t →
  advance_pre (upd_stmt (ap p) (set_have_error false) (set_timer None p)).
Proof.
  intros Hinv Ht.
  destruct (pi_timer _ _ _ Hinv t Ht) as (_ & Hap & Hb & _).
  split; simpl; auto.
  - apply pointers_ok_upd_same, pointers_ok_set_timer, (pi_pointers _ _ _ Hinv). done.
  - intros j Hj; simpl in Hj. rewrite sst_upd_same by done. apply Hb, Hj.
Qed.

(** C2, as stated, fails: the initialisation of [b] fails at time 1, [a]
    goes down (which stops the timer) and comes up again at time 6000,
    after the retry time of [b]; [b] is then initialised with its error
    flag still set, and is CHILD with [have_error]. *)
Lemma C2_have_error_on_live_slot :
  ¬ (∀ c g k p i ps, reachable c g → processes g !! k = Some p →
       statements p !! i = Some ps → have_error ps = true →
       state ps = SSTATE_FORGOTTEN).
Proof.
  intros H.
  pose proof (ex_state_reachable ex_error_then_late_up) as Hr.
  destruct (ex_proc ex_error_then_late_up) as [nm sts a f w] eqn:Hp.
  vm_compute in Hp. injection Hp as <- <- <- <- <-.
  eapply (H _ _ 0 _ 1) in Hr; [| |vm_compute; reflexivity|reflexivity|reflexivity].
  - discriminate Hr.
  - vm_compute. eauto.
Qed.

(** C2, amended: in every reachable state a slot with [have_error] is
    FORGOTTEN or its [error_until] is not after the time of the last
    callback; after the wait timer callback the slot that was at AP has
    [have_error] only when its advance has failed again, with a new
    [error_until]; and the died handler with [is_error] false leaves the
    slot without [have_error]. *)
Theorem C2_have_error_forgotten_or_expired :
  (∀ c g k p i ps,
     reachable c g → processes g !! k = Some p →
     statements p !! i = Some ps → have_error ps = true →
     state ps = SSTATE_FORGOTTEN ∨ (error_until ps ≤ c)%Z) ∧
  (∀ c g k p t E g' p' ps',
     reachable c g → processes g !! k = Some p → wait_timer p = Some t →
     dispatch (EV_wait_timer k) E g = Ret g' →
     processes g' !! k = Some p' → statements p' !! ap p = Some ps' →
     have_error ps' = true →
     state ps' = SSTATE_FORGOTTEN ∧
     error_until ps' = (btime_gettime E + RETRY_TIME)%Z) ∧
  (∀ E p i p1 ps1,
     instance_died_update E p i false = Ret p1 →
     statements p1 !! i = Some ps1 →
     have_error ps1 = false ∧ state ps1 = SSTATE_FORGOTTEN).
Proof.
  split_and!.
  - intros c g k p i ps Hr Hk Hps Herr.
    pose proof (pi_errors _ _ _ (reachable_process_inv _ _ _ _ Hr Hk) i ps Hps Herr) as He.
    destruct (decide (state ps = SSTATE_FORGOTTEN)); auto.
  - intros c g k p t E g' p' ps' Hr Hk Ht Hd Hk' Hps' Herr'.
    pose proof (reachable_process_inv _ _ _ _ Hr Hk) as Hinv.
    assert (Hterm : terminating g = false) by (apply (pi_timer _ _ _ Hinv t Ht)).
    rewrite Hterm in Hinv.
    unfold dispatch, get_process in Hd. rewrite Hk in Hd; simpl in Hd.
    apply bind_Ret in Hd as (p1 & Hh & [= <-]).
    simpl in Hk'. rewrite list_lookup_insert_eq in Hk' by (apply (lookup_lt_Some _ _ _ Hk)).
    injection Hk' as ->.
    apply process_wait_timer_handler_eq in Hh as (ps & Hps & _ & Hadv).
    simpl in Hps, Hadv.
    pose proof (timer_advance_pre c p t Hinv Ht) as Hpre.
    rewrite (process_advance_eq E _ (set_have_error false ps) Hpre) in Hadv
      by (simpl; rewrite list_lookup_alter_eq, Hps; done).
    simpl in Hadv.
    pose proof (advance_pre_forgotten _ (set_have_error false ps) Hpre) as Hst.
    simpl in Hst. rewrite list_lookup_alter_eq, Hps in Hst. specialize (Hst eq_refl).
    destruct (advance_try E _ _) as [[e|args]|f]; [| |done];
      injection Hadv as <-; simpl in Hps';
      rewrite list_lookup_alter_eq, list_lookup_alter_eq, Hps in Hps';
      injection Hps' as <-; simpl in *; [auto|done].
  - intros E p i p1 ps1 Hd Hps1. unfold instance_died_update in Hd.
    apply bind_Ret in Hd as (ps & Hps%get_stmt_Ret & Hd).
    apply bind_Ret in Hd as ([] & _ & Hd). simpl in Hd. injection Hd as <-.
    assert (Hl : statements
                   (if i <? ap p
                    then set_ap i (upd_stmt i (fun _ => set_have_error false
                           (set_state SSTATE_FORGOTTEN (set_inst_args None ps))) p)
                    else upd_stmt i (fun _ => set_have_error false
                           (set_state SSTATE_FORGOTTEN (set_inst_args None ps))) p)
                 = alter (fun _ => set_have_error false
                           (set_state SSTATE_FORGOTTEN (set_inst_args None ps))) i
                     (statements p))
      by (destruct (i <? ap p); done).
    simpl in Hps1. rewrite Hl, list_lookup_alter_eq, Hps in Hps1.
    injection Hps1 as <-. done.
Qed.

Lemma C2_have_error_forgotten_or_expired_witness :
  let ps := ex_slot ex_error_then_late_up 1 in
  have_error ps = true ∧
  (state ps = SSTATE_FORGOTTEN ∨ (error_until ps ≤ 6000)%Z).
Proof.
  split; [reflexivity|].
  apply (proj1 C2_have_error_forgotten_or_expired
           (ex_state ex_error_then_late_up).1 (ex_state ex_error_then_late_up).2 0
           (ex_proc ex_error_then_late_up) 1).
  - apply ex_state_reachable. vm_compute. eauto.
  - vm_compute. reflexivity.
  - vm_compute. reflexivity.
  - reflexivity.
Defined.

(** ** A failing argument fails the advance *)



(** ** Variable resolution (C5) *)

Lemma name_is_true modname rps :
  name_is modname rps = true ↔ name (s rps) = Some modname.
Proof.
  unfold name_is. destruct (name (s rps)) as [n|]; [|split; done].
  rewrite String.eqb_eq. split; congruence.
Qed.

Lemma advance_pre_asserts p :
  process_assert_pointers p = Ret () → ap p = fp p →
  ASSERT_below_adult p = Ret () → advance_pre p.
Proof.
  intros Hp%process_assert_pointers_spec Hap Hb. split; auto.
  intros i Hi. unfold ASSERT_below_adult in Hb.
  destruct (Nat.ltb_spec 0 (ap p)); [|lia].
  apply bind_Ret in Hb as (ps & Hps%get_stmt_Ret & Hs%ASSERT_Ret).
  apply is_state_true in Hs. replace i with (ap p - 1) by lia.
  apply sst_Some; eauto.
Qed.



(** ** A failed advance (C6) *)

Lemma find_referred_none p modname :
  advance_pre p →
  (∀ j rps, j < ap p → statements p !! j = Some rps → name (s rps) ≠ Some modname) →
  find_referred (statements p) modname (ap p) = Ret 0.
Proof.
  intros Hpre Hnone.
  destruct (find_referred_spec (statements p) modname (ap p))
    as (i & Hfind & Hi & Hno & Hyes).
  { pose proof (po_ap_fp _ (adv_pointers _ Hpre)).
    pose proof (po_fp_num _ (adv_pointers _ Hpre)). unfold num_statements in *; lia. }
  destruct i as [|i]; [done|]. exfalso.
  destruct (Hyes i) as (rps & Hrps & Hn); [lia|].
  apply name_is_true in Hn. apply (Hnone i rps); auto; lia.
Qed.

Lemma find_referred_nearest p modname j rps :
  advance_pre p →
  j < ap p → statements p !! j = Some rps → name (s rps) = Some modname →
  (∀ j' rps', j < j' → j' < ap p → statements p !! j' = Some rps' →
              name (s rps') ≠ Some modname) →
  find_referred (statements p) modname (ap p) = Ret (j + 1) ∧
  state rps = SSTATE_ADULT.
Proof.
  intros Hpre Hj Hrps Hname Hnearest.
  destruct (find_referred_spec (statements p) modname (ap p))
    as (i & Hfind & Hi & Hno & Hyes).
  { pose proof (po_ap_fp _ (adv_pointers _ Hpre)).
    pose proof (po_fp_num _ (adv_pointers _ Hpre)). unfold num_statements in *; lia. }
  assert (Hij : i = j + 1).
  { destruct (Nat.lt_trichotomy i (j + 1)) as [Hlt|[?|Hgt]]; [|done|]; exfalso.
    - apply name_is_true in Hname. rewrite (Hno j rps) in Hname; [done|lia|lia|done].
    - destruct (Hyes (i - 1)) as (rps' & Hrps' & Hn); [lia|].
      apply name_is_true in Hn. apply (Hnearest (i - 1) rps'); auto; lia. }
  subst i. split; [done|].
  assert (Hs : sst p j = Some SSTATE_ADULT) by (apply advance_pre_adult; done).
  apply sst_Some in Hs as (rps' & Hrps' & Hs). congruence.
Qed.

Lemma advance_arg_resolves E p k a v :
  advance_pre p → arg_resolves E p k a v → advance_arg E p k a = Ret (inr v).
Proof.
  intros Hpre Hres. destruct a as [modname varname|val]; simpl in *.
  - destruct Hres as (j & rps & Hj & Hrps & Hname & Hnearest & Hget).
    destruct (find_referred_nearest p modname j rps Hpre Hj Hrps Hname Hnearest)
      as [-> Hs]. simpl.
    replace (j + 1 =? 0) with false by (symmetry; apply Nat.eqb_neq; lia).
    replace (j + 1 - 1) with j by lia.
    unfold get_stmt. rewrite Hrps. simpl.
    rewrite ASSERT_true by (apply is_state_true, Hs). simpl. rewrite Hget. done.
  - destruct Hres as [-> ->]. done.
Qed.

Lemma advance_arg_fails E p k a e :
  advance_pre p → arg_fails E p k a e → advance_arg E p k a = Ret (inl e).
Proof.
  intros Hpre Hf. destruct a as [modname varname|val]; simpl in *.
  - destruct Hf as [[Hnone ->]|(j & rps & Hj & Hrps & Hname & Hnearest & Hget & ->)].
    + rewrite (find_referred_none p modname Hpre Hnone). done.
    + destruct (find_referred_nearest p modname j rps Hpre Hj Hrps Hname Hnearest)
        as [-> Hs]. simpl.
      replace (j + 1 =? 0) with false by (symmetry; apply Nat.eqb_neq; lia).
      replace (j + 1 - 1) with j by lia.
      unfold get_stmt. rewrite Hrps. simpl.
      rewrite ASSERT_true by (apply is_state_true, Hs). simpl. rewrite Hget. done.
  - destruct Hf as [-> ->]. done.
Qed.

Lemma advance_args_materialised E p pre : ∀ k acc vs rest,
  advance_pre p →
  length vs = length pre →
  (∀ n a, pre !! n = Some a →
     ∃ v, vs !! n = Some v ∧ arg_resolves E p (k + n) a v ∧
          NCDValue_ListAppend E (k + n) = true) →
  advance_args E p (pre ++ rest) k acc =
    advance_args E p rest (k + length pre) (acc ++ vs).
Proof.
  induction pre as [|a pre IH]; intros k acc vs rest Hpre Hlen Hall.
  - destruct vs; [|done]. simpl. rewrite Nat.add_0_r, app_nil_r. done.
  - destruct vs as [|v vs]; [done|]. simpl in Hlen.
    destruct (Hall 0 a eq_refl) as (v' & [= <-] & Hres & Happ).
    rewrite Nat.add_0_r in Hres, Happ. simpl.
    rewrite (advance_arg_resolves E p k a v Hpre Hres). simpl. rewrite Happ.
    rewrite (IH (S k) (acc ++ [v]) vs rest Hpre); [|lia|].
    + rewrite <- app_assoc. simpl. f_equal. lia.
    + intros n a' Hn. replace (S k + n) with (k + S n) by lia.
      apply (Hall (S n) a' Hn).
Qed.

Lemma advance_try_fails E p ps e :
  advance_pre p → advance_fails E p ps e → advance_try E p ps = Ret (inl e).
Proof.
  intros Hpre Hf. unfold advance_try.
  destruct Hf as [pre a post vs e Hargs [Hlen Hall] Ha
                 |pre a post vs v Hargs [Hlen Hall] Ha Happ
                 |vs [Hlen Hall] Hinit].
  - rewrite Hargs, (advance_args_materialised E p pre 0 [] vs _ Hpre Hlen Hall).
    simpl. rewrite (advance_arg_fails E p _ a e Hpre Ha). done.
  - rewrite Hargs, (advance_args_materialised E p pre 0 [] vs _ Hpre Hlen Hall).
    simpl. rewrite (advance_arg_resolves E p _ a v Hpre Ha). simpl. rewrite Happ. done.
  - rewrite <- (app_nil_r (first_arg (s ps))).
    rewrite (advance_args_materialised E p _ 0 [] vs [] Hpre Hlen Hall).
    simpl. rewrite Hinit. done.
Qed.

Lemma advance_try_succeeds E p ps vs :
  advance_pre p → args_materialised E p (first_arg (s ps)) vs →
  NCDModuleInst_Init E (ap p) vs = true →
  advance_try E p ps = Ret (inr vs).
Proof.
  intros Hpre [Hlen Hall] Hinit. unfold advance_try.
  rewrite <- (app_nil_r (first_arg (s ps))).
  rewrite (advance_args_materialised E p _ 0 [] vs [] Hpre Hlen Hall).
  simpl. rewrite Hinit. done.
Qed.

(** C6: when process_advance attempts the statement at AP and a step of
    the attempt fails, whichever it is (the value of an argument, that is
    the resolution of a variable or the copy of a literal; the append of
    a value to the list; the initialisation of the instance), the
    construction stops with the error of that step, and the result is
    the process unchanged but for the slot AP, which is still FORGOTTEN,
    has no instance arguments, has [have_error] set and [error_until]
    equal to the current time plus RETRY_TIME, and for the wait timer,
    which is set to that time; AP and FP keep their values. *)
Theorem C6_failed_advance E p ps e :
  process_assert_pointers p = Ret () → ap p = fp p →
  ASSERT_below_adult p = Ret () →
  statements p !! ap p = Some ps →
  have_error ps && (btime_gettime E <? error_until ps)%Z = false →
  advance_fails E p ps e →
  ∃ p' ps',
    advance_try E p ps = Ret (inl e) ∧
    process_advance E p = Ret p' ∧
    statements p' !! ap p = Some ps' ∧
    inst_args ps' = None ∧
    have_error ps' = true ∧
    error_until ps' = (btime_gettime E + RETRY_TIME)%Z ∧
    state ps = SSTATE_FORGOTTEN ∧ state ps' = SSTATE_FORGOTTEN ∧
    s ps' = s ps ∧
    wait_timer p' = Some (btime_gettime E + RETRY_TIME)%Z ∧
    ap p' = ap p ∧ fp p' = fp p ∧ p_name p' = p_name p ∧
    num_statements p' = num_statements p ∧
    (∀ j, j ≠ ap p → statements p' !! j = statements p !! j).
Proof.
  intros Hp Hap Hb Hps Hw Hfail. pose proof (advance_pre_asserts p Hp Hap Hb) as Hpre.
  pose proof (advance_pre_forgotten p ps Hpre Hps) as Hst.
  pose proof (advance_try_fails E p ps e Hpre Hfail) as Htry.
  rewrite (process_advance_eq E p ps Hpre Hps), Hw, Htry.
  eexists _, (failed_slot E ps). split; [reflexivity|].
  split; [reflexivity|]. simpl.
  split_and!; auto.
  - rewrite list_lookup_alter_eq, Hps; done.
  - unfold num_statements; simpl. apply length_alter.
  - intros j Hj. apply list_lookup_alter_ne; done.
Qed.

(** The process of [ex_waiting] when its timer has fired at time 7000
    (the timer is no longer set and the handler has cleared the error):
    the variable [a.x] is resolved on the instance of [a], and the append
    of its value to the list fails. *)
Lemma C6_failed_advance_witness :
  let E := {| btime_gettime := 7000;
              NCDModuleInst_GetVar := NCDModuleInst_GetVar (ex_env 7000 true);
              NCDValue_InitCopy := fun _ => true;
              NCDValue_ListAppend := fun _ => false;
              NCDModuleInst_Init := fun _ _ => true;
              malloc_ok := true |} in
  let p := upd_stmt 1 (set_have_error false) (set_timer None (ex_proc ex_waiting)) in
  ∃ p' ps',
    advance_try E p (set_have_error false (ex_slot ex_waiting 1))
      = Ret (inl ListAppend_failed) ∧
    process_advance E p = Ret p' ∧
    statements p' !! ap p = Some ps' ∧
    inst_args ps' = None ∧
    have_error ps' = true ∧
    error_until ps' = (7000 + RETRY_TIME)%Z ∧
    state (ex_slot ex_waiting 1) = SSTATE_FORGOTTEN ∧ state ps' = SSTATE_FORGOTTEN ∧
    s ps' = s (ex_slot ex_waiting 1) ∧
    wait_timer p' = Some (7000 + RETRY_TIME)%Z ∧
    ap p' = ap p ∧ fp p' = fp p ∧ p_name p' = p_name p ∧
    num_statements p' = num_statements p ∧
    (∀ j, j ≠ ap p → statements p' !! j = statements p !! j).
Proof.
  intros E p.
  apply (C6_failed_advance E p (set_have_error false (ex_slot ex_waiting 1))
           ListAppend_failed);
    try reflexivity.
  apply (fails_at_append E p _ [] (arg_var "a" (Some "x"%string)) [] []
           (NCDValue_String "v")).
  - reflexivity.
  - split; [reflexivity|]. intros n a Hn. discriminate Hn.
  - exists 0, (ex_slot ex_waiting 0). split_and!; try reflexivity.
    + vm_compute. lia.
    + intros j' rps' H1 H2. vm_compute in H2. lia.
  - reflexivity.
Defined.

(** ** The termination signal (C8) *)

Lemma process_retreat_terminating k g g' :
  process_retreat k g = Ret g' → terminating g' = terminating g.
Proof.
  unfold process_retreat. intros H.
  apply bind_Ret in H as (p & _ & H). destruct (fp p) as [|i].
  - apply bind_Ret in H as (g1 & Hfree & [= <-]).
    unfold process_free in Hfree.
    apply bind_Ret in Hfree as (p1 & _ & Hfree).
    do 2 (apply bind_Ret in Hfree as ([] & _ & Hfree)). injection Hfree as <-.
    simpl. destruct (delete k (processes g)); done.
  - apply bind_Ret in H as (ps & _ & H).
    apply bind_Ret in H as ([] & _ & [= <-]). done.
Qed.

Lemma process_work_terminating k E g g' :
  process_work k E g = Ret g' → terminating g' = terminating g.
Proof.
  unfold process_work. intros H.
  apply bind_Ret in H as (p & _ & H). apply bind_Ret in H as ([] & _ & H).
  destruct (terminating g) eqn:Hterm.
  - apply process_retreat_terminating in H. simpl in H. congruence.
  - apply bind_Ret in H as (p' & _ & [= <-]). done.
Qed.

Lemma terminate_loop_terminating E n : ∀ k g g',
  terminate_loop E n k g = Ret g' → terminating g' = terminating g.
Proof.
  induction n as [|n IH]; simpl; intros k g g' H.
  - injection H as <-; done.
  - apply bind_Ret in H as (g1 & Hw%process_work_terminating & H).
    apply IH in H. congruence.
Qed.

Lemma signal_handler_latches E g g1 :
  signal_handler E g = Ret g1 → terminating g1 = true.
Proof.
  unfold signal_handler. destruct (terminating g) eqn:Hterm; simpl.
  - intros [= <-]; done.
  - unfold terminate. rewrite Hterm; simpl.
    destruct (processes g) as [|p l]; [intros [= <-]; done|].
    intros H%terminate_loop_terminating. done.
Qed.

Lemma signal_handler_ignored E g :
  terminating g = true → signal_handler E g = Ret g.
Proof. unfold signal_handler. intros ->; done. Qed.

Lemma dispatch_terminating e E g g' :
  dispatch e E g = Ret g' → terminating g = true → terminating g' = true.
Proof.
  destruct e as [k|k i ev|k i is_error|]; simpl; intros H Hterm.
  - apply bind_Ret in H as (p & _ & H). apply bind_Ret in H as (p' & _ & [= <-]). done.
  - unfold process_statement_instance_handler_event in H.
    apply bind_Ret in H as (p & _ & H). apply bind_Ret in H as (p1 & _ & H).
    apply process_work_terminating in H. simpl in H; congruence.
  - unfold process_statement_instance_handler_died in H.
    apply bind_Ret in H as (p & _ & H). apply bind_Ret in H as (p1 & _ & H).
    apply process_work_terminating in H. simpl in H; congruence.
  - apply signal_handler_latches in H; done.
Qed.


Lemma process_inv_is_retreating c p : process_inv true c p → retreating p.
Proof.
  intros Hinv. pose proof (pi_term _ _ _ Hinv eq_refl) as Hlt. split_and!; auto.
  - destruct (wait_timer p) as [t|] eqn:Ht; [|done].
    destruct (pi_timer _ _ _ Hinv t Ht) as [? _]; done.
  - apply (pi_tail _ _ _ Hinv); lia.
Qed.



(** ** The command line and the exit code (C7, C10) *)


Lemma negb_andb_eqb b x y : negb b && String.eqb x y = true → x = y.
Proof. intros [_ H%String.eqb_eq]%andb_true_iff; done. Qed.

(** The flags [help] and [version] are set only by the arguments
    [--help] and [--version]. *)
Lemma parse_arguments_loop_flags W n : ∀ args o0 o,
  length args ≤ n → parse_arguments_loop W args o0 = inr o →
  (help o = true → help o0 = true ∨ "--help"%string ∈ args) ∧
  (version o = true → version o0 = true ∨ "--version"%string ∈ args).
Proof.
  induction n as [|n IH]; intros args o0 o Hlen H.
  - destruct args; [|simpl in Hlen; lia]. injection H as <-. auto.
  - destruct args as [|arg rest]; simpl in H; [injection H as <-; auto|].
    repeat (match type of H with
            | context [if ?b then _ else _] => destruct b eqn:?
            | context [match ?l with [] => _ | _ :: _ => _ end] =>
                destruct l as [|? ?]
            end; simpl in H);
      try discriminate H;
      (apply IH in H; [|simpl in *; lia]);
      destruct H as [H1 H2]; simpl in H1, H2;
      repeat match goal with
             | Hx : String.eqb _ _ = true |- _ => apply String.eqb_eq in Hx; subst
             end;
      rewrite !elem_of_cons; split; intros Hx;
      try (destruct (H1 Hx); tauto); try (destruct (H2 Hx); tauto); tauto.
Qed.

Lemma parse_arguments_flags W argv o :
  parse_arguments W argv = inr o → help o = true ∨ version o = true →
  "--help"%string ∈ tail argv ∨ "--version"%string ∈ tail argv.
Proof.
  unfold parse_arguments. destruct argv as [|argv0 args]; [done|]. simpl.
  destruct (parse_arguments_loop W args _) as [msg|o'] eqn:Hloop; [done|].
  intros Ho Hflag.
  assert (o' = o) as ->.
  { destruct (help o' || version o'); [congruence|].
    destruct (config_file o'); congruence. }
  destruct (parse_arguments_loop_flags W _ _ _ _ (le_n _) Hloop) as [H1 H2].
  destruct Hflag as [Hh|Hv]; [destruct (H1 Hh)|destruct (H2 Hv)]; auto; done.
Qed.

(** What [main] does once the arguments are parsed and neither flag is
    set: it never returns 0. *)
Lemma main_exit_cases W argv code out :
  main W argv = Ret (Some (code, out)) →
  (code = 0%Z ∧
   ∃ o, parse_arguments W argv = inr o ∧ (help o = true ∨ version o = true) ∧
        out = version_banner :: (if help o then [usage (hd ""%string argv)] else [])) ∨
  (code = 1%Z ∧
   ¬ ∃ o, parse_arguments W argv = inr o ∧ (help o = true ∨ version o = true)).
Proof.
  unfold main, exit. destruct argv as [|argv0 args]; [intros [= <- <-]; right; split; [done|]|].
  { intros (o & Ho & _). done. }
  destruct (parse_arguments W (argv0 :: args)) as [msg|o] eqn:Hparse.
  { intros [= <- <-]. right; split; [done|]. intros (o & Ho & _); done. }
  destruct (help o) eqn:Hh.
  { intros [= <- <-]. left; split; [done|]. exists o. rewrite Hh. auto. }
  destruct (version o) eqn:Hv.
  { intros [= <- <-]. left; split; [done|]. exists o. rewrite Hh. auto. }
  intros H. right.
  assert (Hno : ¬ ∃ o', @inr (option string) options o = inr o' ∧
                        (help o' = true ∨ version o' = true)).
  { intros (o' & [= <-] & [?|?]); congruence. }
  split; [|done].
  apply bind_Ret in H as (logger_ok & _ & H).
  repeat (match type of H with
          | context [if ?b then _ else _] => destruct b
          | context [match ?x with Some _ => _ | None => _ end] => destruct x
          end; try discriminate H; try (injection H as <- <-; reflexivity)).
  apply bind_Ret in H as ([c g] & _ & H). apply bind_Ret in H as (r & _ & H).
  destruct r; [|done]. apply bind_Ret in H as (g' & _ & H).
  injection H as <- <-; reflexivity.
Qed.

Lemma main_help_version W argv0 args o :
  parse_arguments W (argv0 :: args) = inr o → help o = true ∨ version o = true →
  main W (argv0 :: args) =
    Ret (Some (0%Z, version_banner :: (if help o then [usage argv0] else []))).
Proof.
  intros Hparse Hflag. unfold main. rewrite Hparse.
  destruct (help o); [done|]. destruct Hflag as [Hx | ->]; done.
Qed.

(** C7: when [main] returns, the exit code is 0 or 1; it is 0 exactly when
    the arguments were parsed and [--help] or [--version] was given, and
    then the version banner (and for [--help] the usage text) has been
    printed; on every other path that returns, the failures of startup and
    the return of the event loop included, it is 1.  A failure to parse
    the arguments does return 1, and [--help] or [--version] does
    return 0. *)
Theorem C7_exit_code W argv :
  (∀ code out, main W argv = Ret (Some (code, out)) →
     (code = 0%Z ∧
      ("--help"%string ∈ tail argv ∨ "--version"%string ∈ tail argv) ∧
      ∃ o, parse_arguments W argv = inr o ∧ (help o = true ∨ version o = true) ∧
           out = version_banner :: (if help o then [usage (hd ""%string argv)] else []))
     ∨
     (code = 1%Z ∧
      ¬ ∃ o, parse_arguments W argv = inr o ∧ (help o = true ∨ version o = true))) ∧
  (∀ o, parse_arguments W argv = inr o → help o = true ∨ version o = true →
        ∃ out, main W argv = Ret (Some (0%Z, out))) ∧
  (∀ msg, parse_arguments W argv = inl msg →
          ∃ out, main W argv = Ret (Some (1%Z, out))).
Proof.
  split_and!.
  - intros code out H.
    destruct (main_exit_cases W argv code out H) as [(Hc & o & Ho & Hf & Hout)|?];
      [left|right; done].
    split_and!; eauto. apply (parse_arguments_flags W argv o Ho Hf).
  - intros o Ho Hf. destruct argv as [|argv0 args]; [done|].
    rewrite (main_help_version W argv0 args o Ho Hf). eauto.
  - intros msg Hmsg. unfold main. destruct argv as [|argv0 args]; [unfold exit; eauto|].
    rewrite Hmsg. unfold exit; eauto.
Qed.

(** A run that ends normally: the signal arrives, the instances die, the
    last process is freed and the reactor quits. *)
Lemma C7_exit_code_witness :
  let W := ex_platform ex_shutdown in
  let argv := ["ncd"; "--config-file"; "ncd.conf"]%string in
  main W argv = Ret (Some (1%Z, [])) ∧
  ((1 = 0)%Z ∧
   ("--help"%string ∈ tail argv ∨ "--version"%string ∈ tail argv) ∧
   (∃ o, parse_arguments W argv = inr o ∧ (help o = true ∨ version o = true) ∧
         [] = version_banner :: (if help o then [usage (hd ""%string argv)] else []))
   ∨
   ((1 = 1)%Z ∧
    ¬ ∃ o, parse_arguments W argv = inr o ∧ (help o = true ∨ version o = true))).
Proof.
  intros W argv. split; [vm_compute; reflexivity|].
  apply (proj1 (C7_exit_code W argv) 1%Z []). vm_compute. reflexivity.
Defined.


(** Without [--help] and [--version] the option [--config-file] is
    required. *)
Lemma parse_arguments_config_file_required W argv0 args o :
  parse_arguments_loop W args (default_options W argv0) = inr o →
  help o = false → version o = false → config_file o = None →
  parse_arguments W (argv0 :: args) = inl (Some "--config-file is required"%string).
Proof.
  intros Hloop Hh Hv Hc. unfold parse_arguments. rewrite Hloop, Hh, Hv, Hc. done.
Qed.




(** ** main runs to completion *)

Lemma parse_arguments_loop_logger W n : ∀ args o0 o,
  length args ≤ n → parse_arguments_loop W args o0 = inr o →
  logger_valid W o0 → logger_valid W o.
Proof.
  induction n as [|n IH]; intros args o0 o Hlen H Hv.
  - destruct args; [|simpl in Hlen; lia]. injection H as <-. auto.
  - destruct args as [|arg rest]; simpl in H; [injection H as <-; auto|].
    repeat (match type of H with
            | context [if ?b then _ else _] => destruct b eqn:?
            | context [match ?l with [] => _ | _ :: _ => _ end] =>
                destruct l as [|? ?]
            end; simpl in H);
      try discriminate H;
      (apply IH in H; [done|simpl in *; lia|]); try exact Hv.
    + left; done.
    + right. split; [|done].
      match goal with
      | Hx : negb _ && _ = true |- _ => apply andb_true_iff in Hx as [Hx _];
          apply negb_true_iff in Hx; exact Hx
      end.
Qed.

Lemma parse_arguments_inr W argv o :
  parse_arguments W argv = inr o →
  logger_valid W o ∧ (help o = false → version o = false → is_Some (config_file o)).
Proof.
  unfold parse_arguments. destruct argv as [|argv0 args]; [done|].
  destruct (parse_arguments_loop W args _) as [msg|o'] eqn:Hloop; [done|].
  intros Ho.
  assert (Hv : logger_valid W o').
  { apply (parse_arguments_loop_logger W _ _ _ _ (le_n _) Hloop). left; done. }
  destruct (help o') eqn:Hh; simpl in Ho; [injection Ho as <-; split; [done|congruence]|].
  destruct (version o') eqn:Hver; simpl in Ho; [injection Ho as <-; split; [done|congruence]|].
  destruct (config_file o') eqn:Hc; [|done]. injection Ho as <-. rewrite Hc. eauto.
Qed.

Lemma init_processes_startup W confs : ∀ k c g,
  startup (ncd_modules W).*1 c g →
  (c ≤ btime_gettime (process_new_env W k))%Z →
  (∀ j, (btime_gettime (process_new_env W j)
         ≤ btime_gettime (process_new_env W (S j)))%Z) →
  ∃ c' g', init_processes W confs k c g = Ret (c', g') ∧
           startup (ncd_modules W).*1 c' g'.
Proof.
  induction confs as [|pc rest IH]; intros k c g Hs Hc Hmono; simpl; [eauto|].
  destruct (process_new_runs_to_completion _ c g pc (process_new_env W k) Hs Hc)
    as [g' Hnew].
  rewrite Hnew; simpl. apply IH; auto.
  apply (startup_process_new _ _ _ _ _ _ Hs Hc Hnew).
Qed.

Lemma BReactor_Exec_enabled evs : ∀ c g,
  reachable c g → callbacks_enabled evs c g = true →
  ∃ r, BReactor_Exec evs g = Ret r ∧
       ∀ g', r = Some g' → processes g' = [].
Proof.
  induction evs as [|[e E] evs IH]; intros c g Hr Hall; simpl in *.
  - destruct (quit g) eqn:Hq; eexists; (split; [done|]); [|done].
    intros g' [= <-]. destruct (si_quit _ _ (reachable_inv _ _ Hr)); congruence.
  - destruct (quit g) eqn:Hq.
    + eexists; split; [done|]. intros g' [= <-].
      destruct (si_quit _ _ (reachable_inv _ _ Hr)); congruence.
    + apply andb_true_iff in Hall as [Hen Hall].
      destruct (callbacks_run_to_completion c g e E Hr Hen) as [g1 Hd].
      rewrite Hd in Hall |- *. simpl. apply (IH (btime_gettime E)); [|done].
      apply (reachable_dispatch _ _ _ _ _ Hr Hq Hen Hd).
Qed.

(** [main] runs to completion when the clock does not go back during
    startup and every callback that the reactor delivers can happen when
    it is delivered: the [ASSERT(0)] of the [switch] on the logger is not
    reached, [read_file] is not given a null [config_file], no
    [process_new] and no callback fails an assertion or leaves the
    bounds of [statements], and there is no process left for the loop
    "free processes", whose [process_free] asserts AP = FP = 0.  [main]
    exits, or it is still in the event loop when the callbacks are
    exhausted. *)
Theorem main_runs_to_completion W argv :
  startup_clock_monotone W →
  (∀ o path file confs c g,
     parse_arguments W argv = inr o → config_file o = Some path →
     read_file W path = Some file → NCDConfigParser_Parse W file = Some confs →
     init_processes W confs 0 (BTime_Init W) initial = Ret (c, g) →
     callbacks_enabled (reactor_events W) c g = true) →
  ∃ r, main W argv = Ret r.
Proof.
  intros [Hc0 Hmono] Hall. unfold main, exit.
  destruct argv as [|argv0 args]; [eauto|].
  destruct (parse_arguments W (argv0 :: args)) as [msg|o] eqn:Hparse; [eauto|].
  specialize (Hall o).
  destruct (parse_arguments_inr W _ o Hparse) as [Hlog Hconf].
  destruct (help o); [eauto|]. destruct (version o); [eauto|].
  destruct (Hconf eq_refl eq_refl) as [path Hpath]. rewrite Hpath.
  specialize (Hall path).
  assert (Hl : ∃ b,
    (if (logger o =? LOGGER_STDOUT)%Z then Ret true
     else if negb (BADVPN_USE_WINAPI W) && (logger o =? LOGGER_SYSLOG)%Z
          then Ret (BLog_InitSyslog W (logger_syslog_ident o) (logger_syslog_facility o))
          else Fault AssertionFailed) = Ret b).
  { destruct Hlog as [-> | [-> ->]]; simpl; eauto. }
  destruct Hl as [b ->]; simpl.
  destruct (negb b); [eauto|].
  destruct (BSocket_GlobalInit W <? 0)%Z; [eauto|].
  destruct (negb (BReactor_Init W)); [eauto|].
  destruct (negb (BProcessManager_Init W)); [eauto|].
  destruct (negb (BSignal_Init W)); [eauto|].
  destruct (read_file W path) as [file|] eqn:Hfile; [|eauto].
  destruct (NCDConfigParser_Parse W file) as [confs|] eqn:Hconfs; [|eauto].
  destruct (negb (forallb _ _)); [eauto|].
  destruct (init_processes_startup W confs 0 (BTime_Init W) initial
              (startup_initial _ _) Hc0 Hmono) as (c & g & Hinit & Hs).
  rewrite Hinit. simpl.
  destruct (BReactor_Exec_enabled (reactor_events W) c g
              (reachable_startup _ _ _ Hs)) as (r & -> & Hr).
  { apply (Hall file confs c g); done. }
  simpl. destruct r as [g'|]; [|eauto].
  rewrite (Hr g' eq_refl). simpl. eauto.
Qed.

Lemma main_runs_to_completion_witness :
  ∃ r, main (ex_platform ex_shutdown) ["ncd"; "--config-file"; "ncd.conf"]%string
       = Ret r.
Proof.
  apply (main_runs_to_completion (ex_platform ex_shutdown)).
  - split; [vm_compute; discriminate|]. intros k. vm_compute. discriminate.
  - intros o path file confs c g Hparse Hpath Hfile Hconfs Hinit.
    vm_compute in Hparse. injection Hparse as <-.
    vm_compute in Hpath. injection Hpath as <-.
    vm_compute in Hfile. injection Hfile as <-.
    vm_compute in Hconfs. injection Hconfs as <-.
    vm_compute in Hinit. injection Hinit as <- <-.
    vm_compute. reflexivity.
Defined.

(** ** The scenarios of the specification, run on the model *)

(** Happy path: all three statements come up. *)
Example scenario_happy_path :
  run3 ex_all_up =
    Some ([([SSTATE_ADULT; SSTATE_ADULT; SSTATE_ADULT], 3, 3, None)], None).
Proof. vm_compute. reflexivity. Qed.

(** A failed initialisation is retried when the timer fires, not before. *)
Example scenario_transient_failure :
  observe (run ex_modules [(ex_conf, ex_env 0 false)]
             [(EV_wait_timer 0, ex_env 5000 false);
              (EV_wait_timer 0, ex_env 10000 true)]) =
    Some ([([SSTATE_CHILD; SSTATE_FORGOTTEN], 1, 1, None)], None) ∧
  observe (run ex_modules [(ex_conf, ex_env 0 false)]
             [(EV_wait_timer 0, ex_env 4999 false)]) = None.
Proof. split; vm_compute; reflexivity. Qed.

(** [B] goes down: [C] is ordered to die, and is initialised again once it
    has died and [B] is up again. *)
Example scenario_mid_stack_down :
  run3 (ex_all_up ++ [(EV_instance_event 0 1 NCDMODULE_EVENT_DOWN, ex_env 4 true)]) =
    Some ([([SSTATE_ADULT; SSTATE_CHILD; SSTATE_DYING], 2, 3, None)], None) ∧
  run3 (ex_all_up ++ [(EV_instance_event 0 1 NCDMODULE_EVENT_DOWN, ex_env 4 true);
                      (EV_instance_died 0 2 false, ex_env 5 true);
                      (EV_instance_event 0 1 NCDMODULE_EVENT_UP, ex_env 6 true)]) =
    Some ([([SSTATE_ADULT; SSTATE_ADULT; SSTATE_CHILD], 3, 3, None)], None).
Proof. split; vm_compute; reflexivity. Qed.

(** [B] is dying: [C] is ordered to die first; when both have died [B] is
    initialised again. *)
Example scenario_dying_in_the_middle :
  run3 (ex_all_up ++ [(EV_instance_event 0 1 NCDMODULE_EVENT_DYING, ex_env 4 true)]) =
    Some ([([SSTATE_ADULT; SSTATE_DYING; SSTATE_DYING], 1, 3, None)], None) ∧
  run3 (ex_all_up ++ [(EV_instance_event 0 1 NCDMODULE_EVENT_DYING, ex_env 4 true);
                      (EV_instance_died 0 2 false, ex_env 5 true);
                      (EV_instance_died 0 1 false, ex_env 6 true)]) =
    Some ([([SSTATE_ADULT; SSTATE_CHILD; SSTATE_FORGOTTEN], 2, 2, None)], None).
Proof. split; vm_compute; reflexivity. Qed.

(** Shutdown while [B] is being built: [B] then [A] are ordered to die, the
    process is freed and the reactor is told to quit. *)
Example scenario_shutdown_mid_build :
  run3 [(EV_instance_event 0 0 NCDMODULE_EVENT_UP, ex_env 1 true);
        (EV_signal, ex_env 2 true)] =
    Some ([([SSTATE_ADULT; SSTATE_DYING; SSTATE_FORGOTTEN], 1, 2, None)], None) ∧
  run3 [(EV_instance_event 0 0 NCDMODULE_EVENT_UP, ex_env 1 true);
        (EV_signal, ex_env 2 true);
        (EV_instance_died 0 1 false, ex_env 3 true)] =
    Some ([([SSTATE_DYING; SSTATE_FORGOTTEN; SSTATE_FORGOTTEN], 0, 1, None)], None) ∧
  run3 [(EV_instance_event 0 0 NCDMODULE_EVENT_UP, ex_env 1 true);
        (EV_signal, ex_env 2 true);
        (EV_instance_died 0 1 false, ex_env 3 true);
        (EV_instance_died 0 0 false, ex_env 4 true)] =
    Some ([], Some 1%Z).
Proof. split_and!; vm_compute; reflexivity. Qed.

(** A process without statements is freed by the first signal. *)
Example scenario_empty_process :
  observe (run ex_modules [({| if_name := "e"; if_statements := [] |}, ex_env 0 true)]
             [(EV_signal, ex_env 1 true)]) = Some ([], Some 1%Z).
Proof. vm_compute. reflexivity. Qed.

(** The variable [a.x] of [b] is resolved on the instance of [a]. *)
Example scenario_variable_reference :
  inst_args (ex_slot ex_both_alive 1) = Some [NCDValue_String "v"].
Proof. vm_compute. reflexivity. Qed.

(** * Further properties of the code *)

(** ** Inversion of the engine functions *)

Lemma below_adult_inv p : ASSERT_below_adult p = Ret () → below_adult p.
Proof.
  intros Hb i Hi. unfold ASSERT_below_adult in Hb.
  destruct (Nat.ltb_spec 0 (ap p)); [|lia].
  apply bind_Ret in Hb as (ps & Hps%get_stmt_Ret & Hs%ASSERT_Ret).
  apply is_state_true in Hs. replace i with (ap p - 1) by lia.
  apply sst_Some; eauto.
Qed.

Lemma process_wait_Ret_inv p p' :
  process_wait p = Ret p' →
  ∃ ps, statements p !! ap p = Some ps ∧ have_error ps = true ∧
        p' = set_timer (Some (error_until ps)) p.
Proof.
  unfold process_wait. intros H.
  do 3 (apply bind_Ret in H as ([] & _ & H)).
  apply bind_Ret in H as (ps & Hps%get_stmt_Ret & H).
  apply bind_Ret in H as ([] & Herr%ASSERT_Ret & H).
  apply bind_Ret in H as ([] & _ & [= <-]). eauto.
Qed.

Lemma process_advance_Ret_inv E p p' :
  process_advance E p = Ret p' →
  ap p = fp p ∧ below_adult p ∧
  ((ap p = num_statements p ∧ p' = p) ∨
   ∃ ps, statements p !! ap p = Some ps ∧
     ((have_error ps = true ∧ (btime_gettime E < error_until ps)%Z ∧
       p' = set_timer (Some (error_until ps)) p) ∨
      ((have_error ps = false ∨ (error_until ps ≤ btime_gettime E)%Z) ∧
       ((∃ args, advance_try E p ps = Ret (inr args) ∧ p' = advanced args p) ∨
        (state ps = SSTATE_FORGOTTEN ∧
         (∃ e, advance_try E p ps = Ret (inl e)) ∧ p' = advance_failed E ps p))))).
Proof.
  unfold process_advance. intros H.
  apply bind_Ret in H as ([] & Hap%ASSERT_Ret%Nat.eqb_eq & H).
  apply bind_Ret in H as ([] & Hb%below_adult_inv & H).
  split; [done|]. split; [done|].
  destruct (Nat.eqb_spec (ap p) (num_statements p)) as [Hn|Hn].
  { apply bind_Ret in H as ([] & _ & [= <-]). auto. }
  right. apply bind_Ret in H as (ps & Hps%get_stmt_Ret & H). exists ps; split; [done|].
  destruct (have_error ps && (btime_gettime E <? error_until ps)%Z) eqn:Hw.
  - apply andb_true_iff in Hw as [Herr Hlt%Z.ltb_lt].
    apply process_wait_Ret_inv in H as (ps' & Hps' & _ & ->).
    left. split_and!; auto. congruence.
  - right. split.
    { apply andb_false_iff in Hw as [Hw|Hw%Z.ltb_ge]; auto. }
    apply bind_Ret in H as (r & Htry & H). destruct r as [e|args].
    + right. unfold advance_fail1, process_statement_set_error in H.
      apply bind_Ret in H as (ps1 & Hps1 & H).
      apply bind_Ret in Hps1 as ([] & Hst%ASSERT_Ret%is_state_true & [= <-]).
      apply process_wait_Ret_inv in H as (ps2 & Hps2 & _ & ->).
      simpl in Hps2. rewrite list_lookup_alter_eq, Hps in Hps2. injection Hps2 as <-.
      split_and!; eauto.
    + left. apply bind_Ret in H as ([] & _ & [= <-]). eauto.
Qed.

Lemma process_fight_Ret_inv E p p' :
  process_fight E p = Ret p' →
  (ap p = fp p ∧
   ((0 < ap p ∧ sst p (ap p - 1) = Some SSTATE_CHILD ∧ p' = p) ∨
    process_advance E p = Ret p')) ∨
  (ap p ≠ fp p ∧
   ∃ i ps, fp p = S i ∧ statements p !! i = Some ps ∧
     ((state ps = SSTATE_DYING ∧ p' = p) ∨
      (state ps ≠ SSTATE_DYING ∧ p' = upd_stmt i (set_state SSTATE_DYING) p))).
Proof.
  unfold process_fight. intros H.
  destruct (Nat.eqb_spec (ap p) (fp p)) as [Hap|Hap]; [left|right]; (split; [done|]).
  - apply bind_Ret in H as (b & Hb & H). destruct b; simpl in H; [left|right; done].
    destruct (Nat.ltb_spec 0 (ap p)); [|done].
    apply bind_Ret in Hb as (ps & Hps%get_stmt_Ret & [= Hs]).
    apply is_state_true in Hs. injection H as <-.
    split_and!; auto. apply sst_Some; eauto.
  - destruct (fp p) as [|i]; [done|].
    apply bind_Ret in H as (ps & Hps%get_stmt_Ret & H).
    apply bind_Ret in H as ([] & _ & [= <-]).
    exists i, ps. split_and!; auto.
    destruct (is_state SSTATE_DYING ps) eqn:Hd; simpl.
    + left. apply is_state_true in Hd. done.
    + right. apply is_state_false in Hd. done.
Qed.

Lemma process_retreat_Ret_inv k g g' :
  process_retreat k g = Ret g' →
  ∃ p, processes g !! k = Some p ∧ terminating g' = terminating g ∧
       match retreat_step p with
       | None =>
           processes g' = delete k (processes g) ∧
           quit g' = match processes g' with [] => Some 1%Z | _ => quit g end
       | Some p' => processes g' = <[k:=p']> (processes g) ∧ quit g' = quit g
       end.
Proof.
  unfold process_retreat, retreat_step. intros H.
  apply bind_Ret in H as (p & Hp%get_process_Ret & H). exists p; split; [done|].
  destruct (fp p) as [|i].
  - apply bind_Ret in H as (g1 & Hfree & [= <-]).
    unfold process_free in Hfree.
    apply bind_Ret in Hfree as (p1 & _ & Hfree).
    do 2 (apply bind_Ret in Hfree as ([] & _ & Hfree)). injection Hfree as <-.
    simpl. destruct (delete k (processes g)); simpl; done.
  - apply bind_Ret in H as (ps & Hps%get_stmt_Ret & H). rewrite Hps.
    apply bind_Ret in H as ([] & _ & [= <-]). simpl.
    destruct (is_state SSTATE_DYING ps); simpl; done.
Qed.

Lemma process_work_Ret_inv k E g g' :
  process_work k E g = Ret g' →
  ∃ p, processes g !! k = Some p ∧ pointers_ok p ∧
       terminating g' = terminating g ∧
       if terminating g then
         match retreat_step (set_timer None p) with
         | None =>
             processes g' = delete k (processes g) ∧
             quit g' = match processes g' with [] => Some 1%Z | _ => quit g end
         | Some p' => processes g' = <[k:=p']> (processes g) ∧ quit g' = quit g
         end
       else
         ∃ p', process_fight E (set_timer None p) = Ret p' ∧
               processes g' = <[k:=p']> (processes g) ∧ quit g' = quit g.
Proof.
  unfold process_work. intros H.
  apply bind_Ret in H as (p & Hp%get_process_Ret & H).
  apply bind_Ret in H as ([] & Hok%process_assert_pointers_spec & H).
  exists p. split; [done|]. split; [done|].
  pose proof (lookup_lt_Some _ _ _ Hp) as Hlt.
  destruct (terminating g) eqn:Hterm.
  - apply process_retreat_Ret_inv in H as (p1 & Hp1 & Hterm' & H).
    simpl in Hp1, Hterm', H. rewrite list_lookup_insert_eq in Hp1 by done.
    injection Hp1 as <-. split; [congruence|].
    destruct (retreat_step (set_timer None p)) as [p'|].
    + rewrite list_insert_insert_eq in H. done.
    + rewrite delete_list_insert in H. done.
  - apply bind_Ret in H as (p' & Hf & [= <-]). simpl. eauto.
Qed.

Lemma instance_event_update_Ret_inv p i event p1 :
  instance_event_update p i event = Ret p1 →
  ∃ ps, statements p !! i = Some ps ∧
        (state ps = SSTATE_CHILD ∨ state ps = SSTATE_ADULT) ∧
        ∃ x n, x ≠ SSTATE_FORGOTTEN ∧ n ≤ ap p ∧ (n = ap p ∨ n ≤ i + 1) ∧
               (p1 = p ∨ p1 = set_ap n (upd_stmt i (set_state x) p)).
Proof.
  unfold instance_event_update. intros H.
  apply bind_Ret in H as (ps & Hps%get_stmt_Ret & H). exists ps; split; [done|].
  apply bind_Ret in H as ([] & Hs%ASSERT_Ret & H).
  split. { apply orb_true_iff in Hs as [Hs|Hs]; apply is_state_true in Hs; auto. }
  destruct event.
  - apply bind_Ret in H as ([] & _ & [= <-]).
    exists SSTATE_ADULT, (ap p). split_and!; [done|lia|lia|auto].
  - apply bind_Ret in H as ([] & _ & [= <-]). simpl.
    destruct (Nat.ltb_spec (i + 1) (ap p)).
    + exists SSTATE_CHILD, (i + 1). split_and!; [done|lia|lia|auto].
    + exists SSTATE_CHILD, (ap p). split_and!; [done|lia|lia|auto].
  - apply bind_Ret in H as ([] & _ & [= <-]). simpl.
    destruct (Nat.ltb_spec i (ap p)).
    + exists SSTATE_DYING, i. split_and!; [done|lia|lia|auto].
    + exists SSTATE_DYING, (ap p). split_and!; [done|lia|lia|auto].
  - injection H as <-. exists SSTATE_ADULT, (ap p). split_and!; [done|lia|lia|auto].
Qed.

Lemma instance_died_update_Ret_inv E p i is_error p1 :
  instance_died_update E p i is_error = Ret p1 →
  ∃ ps n m, statements p !! i = Some ps ∧ state ps ≠ SSTATE_FORGOTTEN ∧
            p1 = set_fp m (set_ap n (upd_stmt i (fun _ => died_slot E is_error ps) p)).
Proof.
  intros H. pose proof H as H0. unfold instance_died_update in H0.
  apply bind_Ret in H0 as (ps & Hps%get_stmt_Ret & H0).
  apply bind_Ret in H0 as ([] & Hs%ASSERT_Ret & _).
  assert (Hnf : state ps ≠ SSTATE_FORGOTTEN).
  { intros Hf. unfold is_state in Hs. rewrite Hf in Hs. done. }
  rewrite (instance_died_update_Ret E p i is_error ps Hps Hnf) in H.
  injection H as <-. cbv zeta. simpl.
  destruct (i <? ap p); eexists ps, _, _; (split_and!; [done|done|]).
  - reflexivity.
  - set (q := upd_stmt i _ p).
    replace q with (set_ap (ap q) q) at 1 3 by (destruct q; done). reflexivity.
Qed.

(** ** The exit request *)

Lemma process_work_quit k E g g' :
  quit_consistent g → process_work k E g = Ret g' → quit_consistent g'.
Proof.
  intros Hq H. apply process_work_Ret_inv in H as (p & Hp & _ & Hterm & H).
  unfold quit_consistent in *.
  destruct (quit g) as [code|] eqn:Hquit.
  { destruct Hq as (_ & _ & Hnil). rewrite Hnil in Hp. done. }
  pose proof (lookup_lt_Some _ _ _ Hp) as Hlt.
  assert (Hins : ∀ p', <[k:=p']> (processes g) ≠ []).
  { intros p' Hnil. apply (f_equal length) in Hnil.
    rewrite length_insert in Hnil. simpl in Hnil. lia. }
  destruct (terminating g) eqn:Ht.
  - destruct (retreat_step (set_timer None p)) as [p'|].
    + destruct H as [-> ->]. auto.
    + destruct H as [Hpr ->]. destruct (processes g'); [done|]. done.
  - destruct H as (p' & _ & -> & ->). intros; congruence.
Qed.

Lemma set_process_quit k p p1 g :
  processes g !! k = Some p → quit_consistent g → quit_consistent (set_process k p1 g).
Proof.
  intros Hp Hq. unfold quit_consistent in *. simpl.
  destruct (quit g) as [code|].
  - destruct Hq as (_ & _ & Hnil). rewrite Hnil in Hp. done.
  - intros Ht Hnil. apply (f_equal length) in Hnil. rewrite length_insert in Hnil.
    apply lookup_lt_Some in Hp. simpl in Hnil. lia.
Qed.

Lemma terminate_loop_quit E n : ∀ k g g',
  quit_consistent g → terminate_loop E n k g = Ret g' → quit_consistent g'.
Proof.
  induction n as [|n IH]; intros k g g' Hq H; simpl in H.
  - injection H as <-. done.
  - apply bind_Ret in H as (g1 & Hw & H).
    apply (IH _ _ _ (process_work_quit _ _ _ _ Hq Hw) H).
Qed.

Lemma dispatch_quit e E g g' :
  quit_consistent g → dispatch e E g = Ret g' → quit_consistent g'.
Proof.
  intros Hq H. destruct e as [k|k i ev|k i is_error|]; simpl in H.
  - apply bind_Ret in H as (p & Hp%get_process_Ret & H).
    apply bind_Ret in H as (p' & _ & [= <-]).
    apply (set_process_quit _ _ _ _ Hp Hq).
  - unfold process_statement_instance_handler_event in H.
    apply bind_Ret in H as (p & Hp%get_process_Ret & H).
    apply bind_Ret in H as (p1 & _ & H).
    apply (process_work_quit _ _ _ _ (set_process_quit _ _ p1 _ Hp Hq) H).
  - unfold process_statement_instance_handler_died in H.
    apply bind_Ret in H as (p & Hp%get_process_Ret & H).
    apply bind_Ret in H as (p1 & _ & H).
    apply (process_work_quit _ _ _ _ (set_process_quit _ _ p1 _ Hp Hq) H).
  - unfold signal_handler in H. destruct (terminating g) eqn:Ht; simpl in H.
    { injection H as <-. done. }
    unfold terminate in H. apply bind_Ret in H as ([] & _ & H). simpl in H.
    destruct (processes g) as [|p l] eqn:Hl.
    + injection H as <-. unfold quit_consistent. simpl. done.
    + revert H. apply terminate_loop_quit.
      unfold quit_consistent in *. simpl. rewrite Hl in *.
      destruct (quit g); [destruct Hq as (_ & _ & ?); done|done].
Qed.

Lemma reachable_quit_consistent c g : reachable c g → quit_consistent g.
Proof.
  induction 1 as [mods c g Hs|c g e E g' _ IH _ _ Hd].
  - apply startup_inv in Hs as (_ & Ht & Hq).
    unfold quit_consistent. rewrite Hq. congruence.
  - apply (dispatch_quit _ _ _ _ IH Hd).
Qed.

(** The reactor is told to quit only with code 1, only while terminating
    and only when the last process has been freed; and it has been told
    so whenever the program is terminating and no process is left. *)
Theorem quit_only_when_all_freed c g :
  reachable c g →
  (∀ code, quit g = Some code →
     code = 1%Z ∧ terminating g = true ∧ processes g = []) ∧
  (terminating g = true → processes g = [] → quit g = Some 1%Z).
Proof.
  intros Hq%reachable_quit_consistent.
  unfold quit_consistent in Hq. destruct (quit g) as [code|].
  - destruct Hq as (-> & Ht & Hnil). split; [|done]. intros ? [= <-]. done.
  - split; [done|]. intros Ht Hnil. destruct (Hq Ht Hnil).
Qed.

Lemma quit_only_when_all_freed_witness :
  let g := (ex_state ex_shutdown).2 in
  (∀ code, quit g = Some code →
     code = 1%Z ∧ terminating g = true ∧ processes g = []) ∧
  (terminating g = true → processes g = [] → quit g = Some 1%Z).
Proof.
  apply (quit_only_when_all_freed (ex_state ex_shutdown).1).
  apply ex_state_reachable. vm_compute. eauto.
Defined.

(** ** What a process waits for *)

(** Between two callbacks, while the program is not terminating, every
    process is in one of four modes, each with the event that will move
    it: all its statements are up; its last initialised statement has
    still to come up; the retry timer of the next statement is running;
    or it is waiting for the death of the statement below FP. *)
Theorem process_never_idle c g k p :
  reachable c g → terminating g = false → processes g !! k = Some p →
  ∃ m, in_mode m p.
Proof.
  intros Hr Ht Hk. pose proof (reachable_process_inv _ _ _ _ Hr Hk) as Hinv.
  rewrite Ht in Hinv. destruct Hinv as [Hp He Htail Htimer Hwait _].
  pose proof Hp as [H1 H2 H3 H4 H5 H6].
  destruct (decide (ap p = fp p)) as [Heq|Hne].
  - destruct (decide (0 < ap p ∧ sst p (ap p - 1) = Some SSTATE_CHILD)) as [[Hpos Hc]|Hnc].
    + exists MODE_wait_up. simpl. split_and!; auto.
      destruct (wait_timer p) as [t|] eqn:Hw; [|done].
      destruct (Htimer t eq_refl) as (_ & _ & Hb & _).
      rewrite (Hb (ap p - 1)) in Hc by lia. done.
    + assert (Hb : below_adult p).
      { intros i Hi. destruct (H4 i Hi) as [Ha|Hc]; [done|].
        exfalso. apply Hnc. replace (ap p - 1) with i by lia. split; [lia|done]. }
      destruct (decide (ap p = num_statements p)) as [Hn|Hn].
      * exists MODE_complete. simpl. split_and!; [done|lia| |].
        -- destruct (wait_timer p) as [t|] eqn:Hw; [|done].
           destruct (Htimer t eq_refl) as (_ & _ & _ & ps & Hps & _).
           apply lookup_lt_Some in Hps. unfold num_statements in Hn. lia.
        -- intros i Hi. destruct (decide (i + 1 = ap p)); [auto|apply H3; lia].
      * exists MODE_wait_retry. simpl. split_and!; auto.
        destruct (wait_timer p) as [t|] eqn:Hw; [|destruct Hwait; auto; lia].
        destruct (Htimer t eq_refl) as (_ & _ & _ & ps & Hps & Herr & <-).
        exists ps. split_and!; auto.
        assert (Hf : sst p (ap p) = Some SSTATE_FORGOTTEN) by (apply H5; lia).
        apply sst_Some in Hf as (ps' & Hps' & Hf). congruence.
  - exists MODE_teardown. simpl. split_and!; [lia| |].
    + apply Htail; lia.
    + destruct (wait_timer p) as [t|] eqn:Hw; [|done].
      destruct (Htimer t eq_refl) as (_ & ? & _). lia.
Qed.

Lemma process_never_idle_witness :
  ∃ m, in_mode m (ex_proc ex_waiting).
Proof.
  apply (process_never_idle (ex_state ex_waiting).1 (ex_state ex_waiting).2 0).
  - apply ex_state_reachable. vm_compute. eauto.
  - vm_compute. reflexivity.
  - vm_compute. reflexivity.
Defined.

(** ** The assertions that a callback can fail *)

Lemma instance_event_update_entry p i ev p1 :
  instance_event_update p i ev = Ret p1 →
  ∃ ps, statements p !! i = Some ps ∧ event_allowed ev (state ps).
Proof.
  unfold instance_event_update. intros H.
  apply bind_Ret in H as (ps & Hps%get_stmt_Ret & H). exists ps; split; [done|].
  apply bind_Ret in H as ([] & Hs%ASSERT_Ret & H).
  assert (Hlive : state ps = SSTATE_CHILD ∨ state ps = SSTATE_ADULT).
  { apply orb_true_iff in Hs as [Hs|Hs]; apply is_state_true in Hs; auto. }
  destruct ev; simpl; try done.
  - apply bind_Ret in H as ([] & Ha%ASSERT_Ret%is_state_true & _). done.
  - apply bind_Ret in H as ([] & Ha%ASSERT_Ret%is_state_true & _). done.
Qed.

Lemma wait_timer_handler_entry E p p' :
  process_wait_timer_handler E p = Ret p' →
  ap p = fp p ∧ below_adult p ∧ ap p < num_statements p.
Proof.
  unfold process_wait_timer_handler. intros H.
  apply bind_Ret in H as ([] & Hap%ASSERT_Ret%Nat.eqb_eq & H).
  apply bind_Ret in H as ([] & Hb%below_adult_inv & H).
  apply bind_Ret in H as ([] & Hn%ASSERT_Ret%Nat.ltb_lt & _). done.
Qed.

(** In a state of the event loop, when the clock has not gone back, the
    handler of a callback runs to completion if and only if what it
    requires on entry holds.  So the only assertions of ncd.c that a
    callback can fail are the ASSERTs on the state of the slot at the
    entry of the two handlers of an instance, and they fail exactly when
    the instance reports in a state that they do not accept (an event
    when the slot is DYING or FORGOTTEN, UP when it is ADULT, DOWN when
    it is CHILD, its death when the slot is FORGOTTEN); the handler of
    the retry timer completes exactly when the timer is set. *)
Theorem callbacks_fault_only_at_entry c g e E :
  reachable c g → (c ≤ btime_gettime E)%Z →
  ((∃ g', dispatch e E g = Ret g') ↔ entry_assertion e g).
Proof.
  intros Hr Hc. pose proof (reachable_inv _ _ Hr) as Hinv. split.
  - intros [g' Hd]. destruct e as [k|k i ev|k i b|]; simpl in *; [| | |done].
    + apply bind_Ret in Hd as (p & Hk%get_process_Ret & Hd).
      apply bind_Ret in Hd as (p' & Hh & _).
      apply wait_timer_handler_entry in Hh as (Hap & Hb & Hn).
      pose proof (reachable_process_inv _ _ _ _ Hr Hk) as Hp.
      exists p. destruct (terminating g).
      * pose proof (pi_term _ _ _ Hp eq_refl). simpl in Hap. lia.
      * destruct (wait_timer p) as [t|] eqn:Ht; [eauto|].
        destruct (pi_waiting _ _ _ Hp eq_refl Hap Hn Hb Ht).
    + unfold process_statement_instance_handler_event in Hd.
      apply bind_Ret in Hd as (p & Hk%get_process_Ret & Hd).
      apply bind_Ret in Hd as (p1 & (ps & Hps & Hev)%instance_event_update_entry & _).
      exists (state ps). split; [|done]. apply slot_state_Some.
      exists p. split; [done|]. apply sst_Some. eauto.
    + unfold process_statement_instance_handler_died in Hd.
      apply bind_Ret in Hd as (p & Hk%get_process_Ret & Hd).
      apply bind_Ret in Hd as (p1 & Hu & _).
      apply instance_died_update_Ret_inv in Hu as (ps & _ & _ & Hps & Hlive & _).
      exists (state ps). split; [|done]. apply slot_state_Some.
      exists p. split; [done|]. apply sst_Some. eauto.
  - intros Hen. destruct e as [k|k i ev|k i b|]; simpl in *.
    + destruct Hen as (p & t & Hk & Ht).
      destruct (wait_timer_inv k E c g p t Hinv Hk Ht Hc) as (g' & Hd & _). eauto.
    + destruct Hen as (x & Hs & Hev).
      destruct (instance_handler_event_inv k i ev E c g x Hinv Hs Hev Hc)
        as (g' & Hd & _). eauto.
    + destruct Hen as (x & Hs & Hx).
      destruct (instance_handler_died_inv k i b E c g x Hinv Hs Hx Hc)
        as (g' & Hd & _). eauto.
    + destruct (signal_handler_inv E c g Hinv Hc) as (g' & Hd & _). eauto.
Qed.

(** After the signal the supervisor has ordered the instance of [b] to
    die; the DYING event that the instance may then report fails the
    first ASSERT of the event handler. *)
Lemma callbacks_fault_only_at_entry_witness :
  let g := (ex_state (ex_both_alive ++ [(EV_signal, ex_env 2 true)])).2 in
  let e := EV_instance_event 0 1 NCDMODULE_EVENT_DYING in
  let E := ex_env 3 true in
  dispatch e E g = Fault AssertionFailed ∧
  ((∃ g', dispatch e E g = Ret g') ↔ entry_assertion e g).
Proof.
  intros g e E. split; [vm_compute; reflexivity|].
  apply (callbacks_fault_only_at_entry
           (ex_state (ex_both_alive ++ [(EV_signal, ex_env 2 true)])).1).
  - apply ex_state_reachable. vm_compute. eauto.
  - vm_compute. discriminate.
Defined.

(** ** The command line is parsed option by option *)

Lemma parse_arguments_loop_app_len W rest n : ∀ pre o0 o1,
  length pre ≤ n → parse_arguments_loop W pre o0 = inr o1 →
  parse_arguments_loop W (pre ++ rest) o0 = parse_arguments_loop W rest o1.
Proof.
  induction n as [|n IH]; intros pre o0 o1 Hlen H.
  - destruct pre; [|simpl in Hlen; lia]. injection H as <-. done.
  - destruct pre as [|arg pre]; [injection H as <-; done|].
    simpl in H. simpl app. cbn [parse_arguments_loop].
    repeat (match type of H with
            | context [if ?b then _ else _] => destruct b eqn:?
            | context [match ?l with [] => _ | _ :: _ => _ end] =>
                destruct l as [|? ?]
            end; simpl in H; simpl app);
      try discriminate H; simpl;
      repeat (match goal with
              | Hx : ?b = _ |- context [if ?b then _ else _] => rewrite Hx
              end; simpl);
      (apply IH in H; [exact H|simpl in *; lia]).
Qed.

(** A prefix of the arguments that [parse_arguments] accepts is consumed
    whole: parsing the command line is parsing the prefix, then the rest
    with the options the prefix has set. *)
Theorem parse_arguments_loop_app W pre rest o0 o1 :
  parse_arguments_loop W pre o0 = inr o1 →
  parse_arguments_loop W (pre ++ rest) o0 = parse_arguments_loop W rest o1.
Proof. apply (parse_arguments_loop_app_len W rest (length pre)). done. Qed.

Lemma parse_arguments_loop_app_witness :
  let W := ex_platform [] in
  let pre := ["--logger"; "syslog"; "--config-file"; "a.conf"]%string in
  let rest := ["--config-file"; "b.conf"; "--version"]%string in
  parse_arguments_loop W (pre ++ rest) (default_options W "ncd") =
  parse_arguments_loop W rest
    (set_config_file (Some "a.conf"%string)
       (set_logger LOGGER_SYSLOG (default_options W "ncd"))).
Proof.
  intros W pre rest.
  apply (parse_arguments_loop_app W pre rest). vm_compute. reflexivity.
Defined.

Lemma unknown_option W arg rest o :
  arg ∉ option_names W →
  parse_arguments_loop W (arg :: rest) o = inl ("unknown option: " ++ arg)%string.
Proof.
  intros Hn.
  assert (Hne : ∀ s, s ∈ option_names W → String.eqb arg s = false).
  { intros s Hs. apply String.eqb_neq. intros ->. done. }
  cbn [parse_arguments_loop]. unfold option_names in Hne.
  destruct (BADVPN_USE_WINAPI W); simpl in Hne |- *;
    rewrite !Hne
      by (repeat first [apply list_elem_of_here | apply list_elem_of_further]);
    reflexivity.
Qed.

(** An argument in the position of an option that is none of the option
    names makes [main] print "unknown option", "Failed to parse
    arguments" and the usage, and exit with code 1, whatever follows it;
    on a WinAPI build [--syslog-facility] and [--syslog-ident] are such
    arguments. *)
Theorem main_unknown_option W argv0 pre arg rest o1 :
  parse_arguments_loop W pre (default_options W argv0) = inr o1 →
  arg ∉ option_names W →
  main W (argv0 :: pre ++ arg :: rest) =
    Ret (Some (1%Z, [stderr_line ("unknown option: " ++ arg)%string;
                     stderr_line "Failed to parse arguments"%string;
                     usage argv0])).
Proof.
  intros Hpre Harg. unfold main, parse_arguments.
  rewrite (parse_arguments_loop_app_len W _ _ _ _ _ (le_n _) Hpre).
  rewrite (unknown_option W arg rest o1 Harg). reflexivity.
Qed.

Lemma main_unknown_option_witness :
  let W := ex_platform [] in
  main W (["ncd"; "--config-file"; "a.conf"; "--verbose"; "--help"]%string) =
    Ret (Some (1%Z, [stderr_line "unknown option: --verbose"%string;
                     stderr_line "Failed to parse arguments"%string;
                     usage "ncd"%string])).
Proof.
  intros W.
  apply (main_unknown_option W "ncd"%string ["--config-file"; "a.conf"]%string
           "--verbose"%string ["--help"%string]
           (set_config_file (Some "a.conf"%string) (default_options W "ncd"))).
  - vm_compute. reflexivity.
  - vm_compute. intros H. repeat (apply elem_of_cons in H as [H|H]; [discriminate H|]).
    apply elem_of_nil in H. done.
Defined.

(** ** A callback keeps the templates and the other processes *)

Lemma fmap_s_alter f i (l : list process_statement) :
  (∀ ps, l !! i = Some ps → s (f ps) = s ps) → s <$> alter f i l = s <$> l.
Proof.
  intros Hf. apply list_eq. intros j. rewrite !list_lookup_fmap.
  destruct (decide (i = j)) as [<-|Hne].
  - rewrite list_lookup_alter_eq. destruct (l !! i) as [ps|] eqn:Hps; simpl; [|done].
    rewrite (Hf ps); done.
  - rewrite list_lookup_alter_ne; done.
Qed.

Lemma same_templates_refl p : same_templates p p.
Proof. split; done. Qed.

Lemma same_templates_trans p1 p2 p3 :
  same_templates p1 p2 → same_templates p2 p3 → same_templates p1 p3.
Proof. intros [H1 H2] [H3 H4]. split; congruence. Qed.

Lemma same_templates_upd i f p :
  (∀ ps, statements p !! i = Some ps → s (f ps) = s ps) →
  same_templates p (upd_stmt i f p).
Proof. intros Hf. split; [done|]. simpl. apply fmap_s_alter, Hf. Qed.

Lemma same_templates_set_timer t p : same_templates p (set_timer t p).
Proof. split; done. Qed.

Lemma same_templates_set_ap n p : same_templates p (set_ap n p).
Proof. split; done. Qed.

Lemma same_templates_set_fp n p : same_templates p (set_fp n p).
Proof. split; done. Qed.

Lemma same_templates_advance E p p' :
  process_advance E p = Ret p' → same_templates p p'.
Proof.
  intros H. apply process_advance_Ret_inv in H as (_ & _ & [[_ ->]|(ps & Hps & H)]).
  { apply same_templates_refl. }
  destruct H as [(_ & _ & ->)|(_ & [(args & _ & ->)|(_ & _ & ->)])].
  - apply same_templates_set_timer.
  - unfold advanced.
    eapply same_templates_trans; [|apply same_templates_set_fp].
    eapply same_templates_trans; [|apply same_templates_set_ap].
    apply same_templates_upd. done.
  - unfold advance_failed.
    eapply same_templates_trans; [|apply same_templates_set_timer].
    apply same_templates_upd. intros ps' Hps'. simpl. congruence.
Qed.

Lemma same_templates_fight E p p' :
  process_fight E p = Ret p' → same_templates p p'.
Proof.
  intros H. apply process_fight_Ret_inv in H as [(_ & [(_ & _ & ->)|H])|H].
  - apply same_templates_refl.
  - apply (same_templates_advance _ _ _ H).
  - destruct H as (_ & i & ps & _ & _ & [(_ & ->)|(_ & ->)]).
    + apply same_templates_refl.
    + apply same_templates_upd. done.
Qed.

Lemma same_templates_retreat p p' :
  retreat_step p = Some p' → same_templates p p'.
Proof.
  unfold retreat_step. destruct (fp p) as [|i]; [done|].
  destruct (statements p !! i) as [ps|]; intros [= <-]; [|apply same_templates_refl].
  destruct (is_state SSTATE_DYING ps); [apply same_templates_refl|]. cbv zeta.
  destruct (i <? _).
  - eapply same_templates_trans; [|apply same_templates_set_ap].
    apply same_templates_upd. done.
  - apply same_templates_upd. done.
Qed.

Lemma same_templates_event p i ev p1 :
  instance_event_update p i ev = Ret p1 → same_templates p p1.
Proof.
  intros H. apply instance_event_update_Ret_inv in H
    as (ps & _ & _ & x & n & _ & _ & _ & [->| ->]).
  - apply same_templates_refl.
  - eapply same_templates_trans; [|apply same_templates_set_ap].
    apply same_templates_upd. done.
Qed.

Lemma s_died_slot E b ps : s (died_slot E b ps) = s ps.
Proof. unfold died_slot. destruct b; done. Qed.

Lemma same_templates_died E p i b p1 :
  instance_died_update E p i b = Ret p1 → same_templates p p1.
Proof.
  intros H. apply instance_died_update_Ret_inv in H as (ps & n & m & Hps & _ & ->).
  eapply same_templates_trans; [|apply same_templates_set_fp].
  eapply same_templates_trans; [|apply same_templates_set_ap].
  apply same_templates_upd. intros ps' Hps'. rewrite s_died_slot. congruence.
Qed.

Lemma same_templates_timer E p p' :
  process_wait_timer_handler E p = Ret p' → same_templates p p'.
Proof.
  intros H. apply process_wait_timer_handler_eq in H as (ps & _ & _ & H).
  eapply same_templates_trans; [|apply (same_templates_advance _ _ _ H)].
  apply same_templates_upd. done.
Qed.

Lemma process_work_frame k E p1 g g' :
  k < length (processes g) →
  process_work k E (set_process k p1 g) = Ret g' →
  (terminating g = true ∧ processes g' = delete k (processes g)) ∨
  ∃ p', processes g' = <[k:=p']> (processes g) ∧ same_templates p1 p'.
Proof.
  intros Hlt H. apply process_work_Ret_inv in H as (p & Hp & _ & _ & H).
  simpl in Hp, H. rewrite list_lookup_insert_eq in Hp by done. injection Hp as <-.
  destruct (terminating g).
  - destruct (retreat_step (set_timer None p1)) as [p'|] eqn:Hr.
    + right. exists p'. rewrite list_insert_insert_eq in H. split; [apply H|].
      eapply same_templates_trans; [apply (same_templates_set_timer None)|].
      apply (same_templates_retreat _ _ Hr).
    + left. rewrite delete_list_insert in H. split; [done|apply H].
  - destruct H as (p' & Hf & Hpr & _). rewrite list_insert_insert_eq in Hpr.
    right. exists p'. split; [done|].
    eapply same_templates_trans; [apply (same_templates_set_timer None)|].
    apply (same_templates_fight _ _ _ Hf).
Qed.

(** A callback of a process creates no process and leaves the other
    processes as they are: it frees its process, which happens only while
    terminating, or replaces it by one with the same name and the same
    statement templates. *)
Theorem callback_is_local e k E g g' :
  event_process e = Some k → dispatch e E g = Ret g' →
  ∃ p, processes g !! k = Some p ∧
       ((terminating g = true ∧ processes g' = delete k (processes g)) ∨
        ∃ p', processes g' = <[k:=p']> (processes g) ∧ same_templates p p').
Proof.
  intros He H. destruct e as [k0|k0 i ev|k0 i b|]; simpl in He; [| | |done];
    injection He as ->; simpl in H.
  - apply bind_Ret in H as (p & Hp%get_process_Ret & H).
    apply bind_Ret in H as (p' & Hh & [= <-]).
    exists p. split; [done|]. right. exists p'. split; [done|].
    apply same_templates_timer in Hh.
    destruct Hh as [H1 H2]. split; [exact H1|exact H2].
  - unfold process_statement_instance_handler_event in H.
    apply bind_Ret in H as (p & Hp%get_process_Ret & H).
    apply bind_Ret in H as (p1 & Hu & H). exists p. split; [done|].
    apply process_work_frame in H as [H|(p' & Hpr & Hst)];
      [auto| |apply (lookup_lt_Some _ _ _ Hp)].
    right. exists p'. split; [done|].
    apply (same_templates_trans _ p1); [apply (same_templates_event _ _ _ _ Hu)|done].
  - unfold process_statement_instance_handler_died in H.
    apply bind_Ret in H as (p & Hp%get_process_Ret & H).
    apply bind_Ret in H as (p1 & Hu & H). exists p. split; [done|].
    apply process_work_frame in H as [H|(p' & Hpr & Hst)];
      [auto| |apply (lookup_lt_Some _ _ _ Hp)].
    right. exists p'. split; [done|].
    apply (same_templates_trans _ p1); [apply (same_templates_died _ _ _ _ _ Hu)|done].
Qed.

Lemma callback_is_local_witness :
  let e := EV_instance_event 0 0 NCDMODULE_EVENT_DYING in
  let E := ex_env 2 true in
  let g := (ex_state ex_both_alive).2 in
  let g' := (ex_state (ex_both_alive ++ [(e, E)])).2 in
  ∃ p, processes g !! 0 = Some p ∧
       ((terminating g = true ∧ processes g' = delete 0 (processes g)) ∨
        ∃ p', processes g' = <[0:=p']> (processes g) ∧ same_templates p p').
Proof.
  intros e E g g'. apply (callback_is_local e 0 E g g').
  - reflexivity.
  - vm_compute. reflexivity.
Defined.

(** ** The signal handler retreats every process once *)

Lemma terminate_loop_omap E : ∀ l2 l1 g g',
  terminating g = true → processes g = l1 ++ l2 →
  terminate_loop E (length l2) (length l1) g = Ret g' →
  processes g' = l1 ++ omap (λ p, retreat_step (set_timer None p)) l2.
Proof.
  induction l2 as [|p l2 IH]; intros l1 g g' Hterm Hl H; simpl in H.
  - injection H as <-. done.
  - apply bind_Ret in H as (g1 & Hw & H).
    pose proof (process_work_terminating _ _ _ _ Hw) as Hterm1.
    apply process_work_Ret_inv in Hw as (p0 & Hp0 & _ & _ & Hw).
    rewrite Hl, list_lookup_middle in Hp0 by done. injection Hp0 as <-.
    rewrite Hterm in Hw, Hterm1. simpl omap.
    destruct (retreat_step (set_timer None p)) as [p'|].
    + destruct Hw as [Hpr _]. rewrite Hl in Hpr.
      replace (length l1) with (length l1 + 0) in Hpr at 1 by lia.
      rewrite insert_app_r in Hpr. simpl in Hpr.
      assert (Hlen : length (processes g1) = length (processes g)).
      { rewrite Hpr, Hl, !length_app. done. }
      rewrite Hlen, Nat.ltb_irrefl in H.
      replace (S (length l1)) with (length (l1 ++ [p'])) in H
        by (rewrite length_app; simpl; lia).
      apply IH in H; [|done|rewrite Hpr, <- app_assoc; done].
      rewrite H, <- app_assoc. done.
    + destruct Hw as [Hpr _]. rewrite Hl, delete_middle in Hpr.
      assert (Hlen : length (processes g1) < length (processes g)).
      { rewrite Hpr, Hl, !length_app. simpl. lia. }
      apply Nat.ltb_lt in Hlen. rewrite Hlen in H.
      apply IH in H; done.
Qed.

Lemma signal_handler_omap E g g' :
  signal_handler E g = Ret g' → terminating g = false →
  processes g' = omap (λ p, retreat_step (set_timer None p)) (processes g).
Proof.
  intros Hd Hterm. unfold signal_handler in Hd. rewrite Hterm in Hd. simpl in Hd.
  unfold terminate in Hd. apply bind_Ret in Hd as ([] & _ & Hd). simpl in Hd.
  destruct (processes g) as [|p l] eqn:Hl.
  - injection Hd as <-. simpl. done.
  - apply (terminate_loop_omap E (p :: l) [] (set_terminating true g) g');
      [done|simpl; done|exact Hd].
Qed.

(** The first termination signal runs [process_work] once on every
    process, without a failed assertion: every process has its timer
    stopped and is retreated one step, those without a live statement are
    freed and the others stay in their order; the reactor is told to quit
    when none is left. *)
Theorem signal_retreats_every_process c E g :
  reachable c g → (c ≤ btime_gettime E)%Z → terminating g = false →
  ∃ g', signal_handler E g = Ret g' ∧ terminating g' = true ∧
        processes g' =
          omap (λ p, retreat_step (set_timer None p)) (processes g) ∧
        quit g' = match processes g' with [] => Some 1%Z | _ => None end.
Proof.
  intros Hr Hc Hterm.
  destruct (dispatch_inv c EV_signal E g (reachable_inv _ _ Hr)) as (g' & Hd & _).
  { unfold enabled. rewrite bool_decide_eq_true_2 by done. done. }
  exists g'. simpl in Hd. split; [done|].
  pose proof (signal_handler_latches _ _ _ Hd) as Hterm'. split; [done|].
  pose proof (dispatch_quit EV_signal E g g' (reachable_quit_consistent _ _ Hr) Hd)
    as Hq.
  split; [apply (signal_handler_omap _ _ _ Hd Hterm)|].
  unfold quit_consistent in Hq.
  destruct (quit g') as [code|].
  - destruct Hq as (-> & _ & ->). done.
  - destruct (processes g'); [destruct (Hq Hterm'); done|done].
Qed.

Lemma signal_retreats_every_process_witness :
  let E := ex_env 2 true in
  let g := (ex_state ex_both_alive).2 in
  ∃ g', signal_handler E g = Ret g' ∧ terminating g' = true ∧
        processes g' =
          omap (λ p, retreat_step (set_timer None p)) (processes g) ∧
        quit g' = match processes g' with [] => Some 1%Z | _ => None end.
Proof.
  intros E g. apply (signal_retreats_every_process (ex_state ex_both_alive).1).
  - apply ex_state_reachable. vm_compute. eauto.
  - vm_compute. discriminate.
  - vm_compute. reflexivity.
Defined.

(** ** process_new *)

Lemma sst_new_statement nm (sts : list statement) a f t i :
  i < length sts →
  sst {| p_name := nm; statements := new_statement <$> sts;
         ap := a; fp := f; wait_timer := t |} i = Some SSTATE_FORGOTTEN.
Proof.
  intros Hi. apply lookup_lt_is_Some_2 in Hi as [st Hst].
  unfold sst. simpl. rewrite list_lookup_fmap, Hst. done.
Qed.

(** [process_new] leaves the supervisor as it is when an allocation fails
    or a statement names a module that is not in the table.  Otherwise it
    appends one process, with the name and the statements of the
    configuration in their order, and has run [process_work] on it: the
    first statement has been tried, so that it is CHILD with AP = FP = 1,
    or it has failed and the retry timer runs; every later statement is
    FORGOTTEN. *)
Theorem process_new_result ncd_modules conf E g :
  (malloc_ok E = false ∨
   Exists (λ st, statement_init ncd_modules st = None) (if_statements conf) →
   process_new ncd_modules conf E g = Ret g) ∧
  (malloc_ok E = true →
   Forall (λ st, is_Some (statement_init ncd_modules st)) (if_statements conf) →
   terminating g = false →
   ∃ g' p',
     process_new ncd_modules conf E g = Ret g' ∧
     processes g' = processes g ++ [p'] ∧
     terminating g' = false ∧ quit g' = quit g ∧
     p_name p' = if_name conf ∧
     mapM (statement_init ncd_modules) (if_statements conf)
       = Some (s <$> statements p') ∧
     (∀ i, 0 < i → i < num_statements p' → sst p' i = Some SSTATE_FORGOTTEN) ∧
     (if_statements conf = [] ∨
      (sst p' 0 = Some SSTATE_CHILD ∧ ap p' = 1 ∧ fp p' = 1 ∧ wait_timer p' = None) ∨
      (sst p' 0 = Some SSTATE_FORGOTTEN ∧ ap p' = 0 ∧ fp p' = 0 ∧
       wait_timer p' = Some (btime_gettime E + RETRY_TIME)%Z))).
Proof.
  split.
  - intros [Hm|Hex]; unfold process_new.
    + rewrite Hm. done.
    + apply mapM_None_2 in Hex. rewrite Hex. destruct (malloc_ok E); done.
  - intros Hm Hall Hterm. unfold process_new. rewrite Hm. simpl.
    destruct (mapM_is_Some_2 (statement_init ncd_modules) (if_statements conf))
      as [sts Hsts].
    { exact Hall. }
    rewrite Hsts.
    set (p0 := {| p_name := if_name conf; statements := new_statement <$> sts;
                  ap := 0; fp := 0; wait_timer := None |}).
    set (g0 := set_processes (processes g ++ [p0]) g).
    destruct (new_process_ok (btime_gettime E) (if_name conf) sts) as [Hp He].
    fold p0 in Hp, He.
    assert (Hk : processes g0 !! length (processes g) = Some p0).
    { simpl. apply list_lookup_middle. done. }
    destruct (process_work_spec (length (processes g)) E (btime_gettime E) g0 p0)
      as (g' & Hw & _); auto; [lia|].
    pose proof Hw as Hinv.
    apply process_work_Ret_inv in Hinv as (p & Hp' & _ & Ht' & H).
    rewrite Hk in Hp'. injection Hp' as <-.
    change (terminating g0) with (terminating g) in H, Ht'. rewrite Hterm in H, Ht'.
    destruct H as (p' & Hf & Hpr & Hq).
    exists g', p'. split; [done|].
    assert (Hpr' : processes g' = processes g ++ [p']).
    { rewrite Hpr. simpl.
      replace (length (processes g)) with (length (processes g) + 0) by lia.
      rewrite insert_app_r. done. }
    pose proof (same_templates_fight _ _ _ Hf) as [Hname Hs].
    assert (Hstmts : s <$> statements p' = sts).
    { rewrite Hs. simpl. rewrite <- list_fmap_compose.
      rewrite <- (list_fmap_id sts) at 2. done. }
    split; [done|]. split; [done|]. split; [done|]. split; [done|].
    split; [congruence|].
    assert (Hlen : length (statements p') = length sts).
    { rewrite <- Hstmts, length_fmap. done. }
    apply process_fight_Ret_inv in Hf as [(_ & [(Hpos & _)|Hadv])|(Hne & _)];
      [simpl in Hpos; lia| |simpl in Hne; done].
    apply process_advance_Ret_inv in Hadv as (_ & _ & [[Hn ->]|(ps & Hps & Hadv)]).
    + split.
      * intros i _ Hi. apply sst_new_statement.
        unfold num_statements in Hi. simpl in Hi. rewrite length_fmap in Hi. done.
      * left. unfold num_statements in Hn. simpl in Hn. rewrite length_fmap in Hn.
        apply mapM_Some, Forall2_length in Hsts.
        destruct (if_statements conf); [done|]. simpl in Hsts. lia.
    + simpl in Hps. rewrite list_lookup_fmap in Hps.
      destruct (sts !! 0) as [st|] eqn:Hst; [|done]. injection Hps as <-.
      assert (Hrest : ∀ f i, 0 < i → i < length sts →
                sst (upd_stmt 0 f (set_timer None p0)) i = Some SSTATE_FORGOTTEN).
      { intros f i Hi Hlt. rewrite sst_upd_ne by lia.
        apply (sst_new_statement (if_name conf) sts 0 0 None i Hlt). }
      destruct Hadv as [(Herr & _)|(_ & [(args & _ & ->)|(_ & _ & ->)])];
        [done| |].
      * split.
        -- intros i Hi Hlt. unfold num_statements in Hlt. rewrite Hlen in Hlt.
           apply (Hrest _ i Hi Hlt).
        -- right. left. split_and!; try done.
           unfold sst, advanced. simpl. rewrite list_lookup_alter_eq.
           rewrite list_lookup_fmap, Hst. done.
      * split.
        -- intros i Hi Hlt. unfold num_statements in Hlt. rewrite Hlen in Hlt.
           apply (Hrest _ i Hi Hlt).
        -- right. right. split_and!; try done.
           unfold sst, advance_failed. simpl. rewrite list_lookup_alter_eq.
           rewrite list_lookup_fmap, Hst. done.
Qed.

Lemma process_new_result_witness :
  let E := ex_env 0 true in
  ∃ g' p',
    process_new ex_modules ex_conf E initial = Ret g' ∧
    processes g' = processes initial ++ [p'] ∧
    terminating g' = false ∧ quit g' = quit initial ∧
    p_name p' = if_name ex_conf ∧
    mapM (statement_init ex_modules) (if_statements ex_conf)
      = Some (s <$> statements p') ∧
    (∀ i, 0 < i → i < num_statements p' → sst p' i = Some SSTATE_FORGOTTEN) ∧
    (if_statements ex_conf = [] ∨
     (sst p' 0 = Some SSTATE_CHILD ∧ ap p' = 1 ∧ fp p' = 1 ∧ wait_timer p' = None) ∨
     (sst p' 0 = Some SSTATE_FORGOTTEN ∧ ap p' = 0 ∧ fp p' = 0 ∧
      wait_timer p' = Some (btime_gettime E + RETRY_TIME)%Z)).
Proof.
  intros E. apply (proj2 (process_new_result ex_modules ex_conf E initial)).
  - reflexivity.
  - repeat constructor; vm_compute; eauto.
  - reflexivity.
Defined.

(** ** What a callback does to one slot *)

Lemma advance_keeps_slot E q p' j ps :
  process_advance E q = Ret p' → statements q !! j = Some ps →
  j ≠ ap q ∨ (have_error ps = true ∧ (btime_gettime E < error_until ps)%Z) →
  statements p' !! j = Some ps.
Proof.
  intros H Hj Hc.
  apply process_advance_Ret_inv in H as (_ & _ & [[_ ->]|(ps0 & Hps0 & H)]); [done|].
  destruct H as [(_ & _ & ->)|(Hexp & H)]; [done|].
  assert (Hne : ap q ≠ j).
  { intros <-. destruct Hc as [Hc|[Herr Hlt]]; [done|].
    rewrite Hps0 in Hj. injection Hj as ->.
    destruct Hexp as [Hexp|Hexp]; [congruence|lia]. }
  destruct H as [(args & _ & ->)|(_ & _ & ->)]; simpl;
    rewrite list_lookup_alter_ne; done.
Qed.

Lemma fight_keeps_slot E q p' j ps :
  pointers_ok q → process_fight E q = Ret p' → statements q !! j = Some ps →
  state ps = SSTATE_FORGOTTEN → have_error ps = true →
  (btime_gettime E < error_until ps)%Z →
  statements p' !! j = Some ps.
Proof.
  intros Hok H Hj Hf Herr Hlt.
  apply process_fight_Ret_inv in H as [(_ & [(_ & _ & ->)|H])|H]; [done| |].
  - apply (advance_keeps_slot _ _ _ _ _ H Hj). auto.
  - destruct H as (_ & i & ps0 & Hfp & Hps0 & [(_ & ->)|(_ & ->)]); [done|].
    simpl. rewrite list_lookup_alter_ne; [done|]. intros <-.
    apply (po_top _ Hok i); [lia|]. apply sst_Some. exists ps. split; [done|].
    congruence.
Qed.

(** A statement whose initialisation has failed is left alone until its
    retry time: while the program is not terminating, a callback that
    runs before [error_until] changes nothing in its slot. *)
Theorem no_retry_before_error_until c g e E g' k p j ps :
  reachable c g → enabled c e E g = true → dispatch e E g = Ret g' →
  terminating g' = false →
  processes g !! k = Some p → statements p !! j = Some ps →
  state ps = SSTATE_FORGOTTEN → have_error ps = true →
  (btime_gettime E < error_until ps)%Z →
  ∃ p', processes g' !! k = Some p' ∧ statements p' !! j = Some ps.
Proof.
  intros Hr Hen Hd Hterm' Hk Hj Hf Herr Hlt.
  assert (Hterm : terminating g = false).
  { destruct (terminating g) eqn:Ht; [|done].
    rewrite (dispatch_terminating _ _ _ _ Hd Ht) in Hterm'. done. }
  pose proof (reachable_process_inv _ _ _ _ Hr Hk) as Hinv. rewrite Hterm in Hinv.
  pose proof (lookup_lt_Some _ _ _ Hk) as Hlen.
  assert (Hwork : ∀ p1, statements p1 !! j = Some ps →
            process_work k E (set_process k p1 g) = Ret g' →
            ∃ p', processes g' !! k = Some p' ∧ statements p' !! j = Some ps).
  { intros p1 Hj1 Hw. apply process_work_Ret_inv in Hw as (q & Hq & Hok & _ & Hw).
    simpl in Hq, Hw. rewrite list_lookup_insert_eq in Hq by done. injection Hq as <-.
    rewrite Hterm in Hw. destruct Hw as (p' & Hfight & Hpr & _).
    exists p'. split.
    - rewrite Hpr. apply list_lookup_insert_eq. rewrite length_insert. done.
    - apply (fight_keeps_slot E (set_timer None p1) p' j ps); auto.
      apply pointers_ok_set_timer. done. }
  assert (Hother : ∀ k0 p1, k0 ≠ k →
            process_work k0 E (set_process k0 p1 g) = Ret g' →
            ∃ p', processes g' !! k = Some p' ∧ statements p' !! j = Some ps).
  { intros k0 p1 Hne Hw. apply process_work_Ret_inv in Hw as (q & Hq & _ & _ & Hw).
    simpl in Hw. rewrite Hterm in Hw. destruct Hw as (p' & _ & Hpr & _).
    exists p. split; [|done]. rewrite Hpr. simpl.
    rewrite !list_lookup_insert_ne by done. done. }
  destruct e as [k0|k0 i ev|k0 i b|]; simpl in Hd.
  - apply bind_Ret in Hd as (p0 & Hp0%get_process_Ret & Hd).
    apply bind_Ret in Hd as (p' & Hh & [= <-]). simpl.
    destruct (decide (k0 = k)) as [->|Hne].
    + rewrite Hk in Hp0. injection Hp0 as <-.
      exists p'. split; [apply list_lookup_insert_eq; done|].
      apply process_wait_timer_handler_eq in Hh as (ps0 & Hps0 & _ & Hadv).
      simpl in Hps0, Hadv.
      unfold enabled in Hen. rewrite Hk in Hen.
      apply andb_true_iff in Hen as [_ Hen].
      destruct (wait_timer p) as [t|] eqn:Ht; [|done].
      apply bool_decide_eq_true in Hen.
      destruct (pi_timer _ _ _ Hinv t Ht) as (_ & _ & _ & ps1 & Hps1 & _ & Heu).
      assert (Hne : j ≠ ap p).
      { intros ->. rewrite Hj in Hps1. injection Hps1 as <-. lia. }
      apply (advance_keeps_slot _ _ _ _ _ Hadv).
      * simpl. rewrite list_lookup_alter_ne by done. done.
      * left. done.
    + exists p. split; [|done]. rewrite list_lookup_insert_ne by done. done.
  - unfold process_statement_instance_handler_event in Hd.
    apply bind_Ret in Hd as (p0 & Hp0%get_process_Ret & Hd).
    apply bind_Ret in Hd as (p1 & Hu & Hd).
    destruct (decide (k0 = k)) as [->|Hne]; [|apply (Hother _ _ Hne Hd)].
    rewrite Hk in Hp0. injection Hp0 as <-. apply (Hwork p1); [|done].
    apply instance_event_update_Ret_inv in Hu
      as (ps0 & Hps0 & Hlive & x & n & _ & _ & _ & [->| ->]); [done|].
    simpl. rewrite list_lookup_alter_ne; [done|]. intros <-.
    rewrite Hj in Hps0. injection Hps0 as <-. destruct Hlive; congruence.
  - unfold process_statement_instance_handler_died in Hd.
    apply bind_Ret in Hd as (p0 & Hp0%get_process_Ret & Hd).
    apply bind_Ret in Hd as (p1 & Hu & Hd).
    destruct (decide (k0 = k)) as [->|Hne]; [|apply (Hother _ _ Hne Hd)].
    rewrite Hk in Hp0. injection Hp0 as <-. apply (Hwork p1); [|done].
    apply instance_died_update_Ret_inv in Hu as (ps0 & n & m & Hps0 & Hlive & ->).
    simpl. rewrite list_lookup_alter_ne; [done|]. intros <-.
    rewrite Hj in Hps0. injection Hps0 as <-. done.
  - rewrite (signal_handler_latches _ _ _ Hd) in Hterm'. done.
Qed.

Lemma no_retry_before_error_until_witness :
  let g' := (ex_state ex_error_then_down).2 in
  ∃ p', processes g' !! 0 = Some p' ∧
        statements p' !! 1 = Some (ex_slot ex_waiting 1).
Proof.
  intros g'.
  apply (no_retry_before_error_until
           (ex_state ex_waiting).1 (ex_state ex_waiting).2
           (EV_instance_event 0 0 NCDMODULE_EVENT_DOWN) (ex_env 2 true) g'
           0 (ex_proc ex_waiting) 1 (ex_slot ex_waiting 1)).
  - apply ex_state_reachable. vm_compute. eauto.
  - vm_compute. reflexivity.
  - vm_compute. reflexivity.
  - vm_compute. reflexivity.
  - vm_compute. reflexivity.
  - vm_compute. reflexivity.
  - vm_compute. reflexivity.
  - vm_compute. reflexivity.
  - vm_compute. reflexivity.
Defined.

(** ** Statements are initialised in order *)

Lemma advance_new_child E q p' j ps ps' :
  pointers_ok q →
  process_advance E q = Ret p' → statements q !! j = Some ps →
  state ps ≠ SSTATE_CHILD → statements p' !! j = Some ps' →
  state ps' = SSTATE_CHILD →
  state ps = SSTATE_FORGOTTEN ∧ ap q = j ∧ fp q = j ∧ below_adult q ∧
  ap p' = j + 1 ∧ fp p' = j + 1 ∧ wait_timer p' = wait_timer q ∧
  (have_error ps = false ∨ (error_until ps ≤ btime_gettime E)%Z) ∧
  ∃ args, advance_try E q ps = Ret (inr args) ∧ inst_args ps' = Some args.
Proof.
  intros Hok H Hj Hnc Hj' Hc.
  apply process_advance_Ret_inv in H as (Hap & Hb & [[_ ->]|(ps0 & Hps0 & H)]).
  { congruence. }
  destruct H as [(_ & _ & ->)|(Hexp & H)]; [simpl in Hj'; congruence|].
  destruct H as [(args & Htry & ->)|(Hf & _ & ->)].
  - destruct (decide (ap q = j)) as [<-|Hne].
    + rewrite Hps0 in Hj. injection Hj as <-.
      simpl in Hj'. rewrite list_lookup_alter_eq, Hps0 in Hj'. injection Hj' as <-.
      split_and!; simpl; eauto; try lia.
      assert (Hf : sst q (ap q) = Some SSTATE_FORGOTTEN).
      { apply (po_above _ Hok); [lia|]. apply (lookup_lt_Some _ _ _ Hps0). }
      apply sst_Some in Hf as (ps1 & Hps1 & Hf). congruence.
    + simpl in Hj'. rewrite list_lookup_alter_ne in Hj' by done. congruence.
  - destruct (decide (ap q = j)) as [<-|Hne].
    + simpl in Hj'. rewrite list_lookup_alter_eq, Hps0 in Hj'. injection Hj' as <-.
      simpl in Hc. rewrite Hf in Hc. done.
    + simpl in Hj'. rewrite list_lookup_alter_ne in Hj' by done. congruence.
Qed.

Lemma fight_new_child E q p' j ps ps' :
  pointers_ok q →
  process_fight E q = Ret p' → statements q !! j = Some ps →
  state ps ≠ SSTATE_CHILD → statements p' !! j = Some ps' →
  state ps' = SSTATE_CHILD →
  state ps = SSTATE_FORGOTTEN ∧ ap q = j ∧ fp q = j ∧ below_adult q ∧
  ap p' = j + 1 ∧ fp p' = j + 1 ∧ wait_timer p' = wait_timer q ∧
  (have_error ps = false ∨ (error_until ps ≤ btime_gettime E)%Z) ∧
  ∃ args, advance_try E q ps = Ret (inr args) ∧ inst_args ps' = Some args.
Proof.
  intros Hok H Hj Hnc Hj' Hc.
  apply process_fight_Ret_inv in H as [(_ & [(_ & _ & ->)|H])|H]; [congruence| |].
  - apply (advance_new_child E q p' j ps ps'); done.
  - destruct H as (_ & i & ps0 & Hfp & Hps0 & [(_ & ->)|(_ & ->)]); [congruence|].
    simpl in Hj'. destruct (decide (i = j)) as [->|Hne].
    + rewrite list_lookup_alter_eq, Hps0 in Hj'. injection Hj' as <-. done.
    + rewrite list_lookup_alter_ne in Hj' by done. congruence.
Qed.

(** A statement is initialised only when every statement before it is up:
    when a callback turns a slot that was FORGOTTEN or DYING into CHILD,
    while the program is not terminating, the slot is the one below AP
    and FP, every earlier slot is ADULT, its arguments were built and
    [NCDModuleInst_Init] succeeded, and no retry timer is left running. *)
Theorem initialised_in_order c g e E g' k p p' j ps ps' :
  reachable c g → quit g = None → enabled c e E g = true →
  dispatch e E g = Ret g' → terminating g' = false →
  processes g !! k = Some p → processes g' !! k = Some p' →
  statements p !! j = Some ps → statements p' !! j = Some ps' →
  state ps = SSTATE_FORGOTTEN ∨ state ps = SSTATE_DYING →
  state ps' = SSTATE_CHILD →
  ap p' = j + 1 ∧ fp p' = j + 1 ∧ wait_timer p' = None ∧
  is_Some (inst_args ps') ∧
  ∀ i, i < j → sst p' i = Some SSTATE_ADULT.
Proof.
  intros Hr Hq Hen Hd Hterm' Hk Hk' Hj Hj' Hs Hc.
  assert (Hterm : terminating g = false).
  { destruct (terminating g) eqn:Ht; [|done].
    rewrite (dispatch_terminating _ _ _ _ Hd Ht) in Hterm'. done. }
  pose proof (reachable_dispatch _ _ _ _ _ Hr Hq Hen Hd) as Hr'.
  pose proof (reachable_process_inv _ _ _ _ Hr' Hk') as Hinv'.
  pose proof (reachable_process_inv _ _ _ _ Hr Hk) as Hinv. rewrite Hterm in Hinv.
  pose proof (lookup_lt_Some _ _ _ Hk) as Hlen.
  assert (Hnc : state ps ≠ SSTATE_CHILD) by (destruct Hs; congruence).
  cut (ap p' = j + 1 ∧ fp p' = j + 1 ∧ wait_timer p' = None ∧ is_Some (inst_args ps')).
  { intros (Hap & Hfp & Hw & Ha). split_and!; try done.
    intros i Hi. apply (po_below _ (pi_pointers _ _ _ Hinv')). lia. }
  assert (Hwork : ∀ p1 ps1, statements p1 !! j = Some ps1 →
            state ps1 ≠ SSTATE_CHILD →
            process_work k E (set_process k p1 g) = Ret g' →
            ap p' = j + 1 ∧ fp p' = j + 1 ∧ wait_timer p' = None ∧
            is_Some (inst_args ps')).
  { intros p1 ps1 Hj1 Hnc1 Hw.
    apply process_work_Ret_inv in Hw as (q & Hq1 & Hok & _ & Hw).
    simpl in Hq1, Hw. rewrite list_lookup_insert_eq in Hq1 by done.
    injection Hq1 as <-. rewrite Hterm in Hw. destruct Hw as (p2 & Hfight & Hpr & _).
    rewrite Hpr, list_lookup_insert_eq in Hk' by (rewrite length_insert; done).
    injection Hk' as ->.
    destruct (fight_new_child E (set_timer None p1) p' j ps1 ps')
      as (_ & _ & _ & _ & Hap & Hfp & Hw & _ & args & _ & Hargs);
      [apply pointers_ok_set_timer; done|done..|].
    split_and!; done. }
  assert (Hother : ∀ k0 p1, k0 ≠ k →
            process_work k0 E (set_process k0 p1 g) = Ret g' → p' = p).
  { intros k0 p1 Hne Hw. apply process_work_Ret_inv in Hw as (q & _ & _ & _ & Hw).
    simpl in Hw. rewrite Hterm in Hw. destruct Hw as (p2 & _ & Hpr & _).
    rewrite Hpr in Hk'. simpl in Hk'.
    rewrite !list_lookup_insert_ne in Hk' by done. congruence. }
  assert (Hcontra : p' = p → ap p' = j + 1 ∧ fp p' = j + 1 ∧ wait_timer p' = None ∧
                             is_Some (inst_args ps')).
  { intros ->. congruence. }
  destruct e as [k0|k0 i ev|k0 i b|]; simpl in Hd.
  - apply bind_Ret in Hd as (p0 & Hp0%get_process_Ret & Hd).
    apply bind_Ret in Hd as (p2 & Hh & [= <-]). simpl in Hk'.
    destruct (decide (k0 = k)) as [->|Hne].
    + rewrite Hk in Hp0. injection Hp0 as <-.
      rewrite list_lookup_insert_eq in Hk' by done. injection Hk' as ->.
      unfold enabled in Hen. rewrite Hk in Hen.
      apply andb_true_iff in Hen as [_ Hen].
      destruct (wait_timer p) as [t|] eqn:Ht; [|done].
      pose proof (timer_advance_pre c p t Hinv Ht) as [Hok _ _].
      apply process_wait_timer_handler_eq in Hh as (ps0 & Hps0 & _ & Hadv).
      simpl in Hps0, Hadv.
      assert (∃ ps1, statements
                (upd_stmt (ap p) (set_have_error false) (set_timer None p)) !! j
                = Some ps1 ∧ state ps1 ≠ SSTATE_CHILD) as (ps1 & Hj1 & Hnc1).
      { simpl. destruct (decide (ap p = j)) as [<-|Hne].
        - rewrite list_lookup_alter_eq, Hj. simpl. eauto.
        - rewrite list_lookup_alter_ne by done. eauto. }
      destruct (advance_new_child E _ p' j ps1 ps' Hok Hadv Hj1 Hnc1 Hj' Hc)
        as (_ & _ & _ & _ & Hap & Hfp & Hw & _ & args & _ & Hargs).
      split_and!; done.
    + rewrite list_lookup_insert_ne in Hk' by done. apply Hcontra. congruence.
  - unfold process_statement_instance_handler_event in Hd.
    apply bind_Ret in Hd as (p0 & Hp0%get_process_Ret & Hd).
    apply bind_Ret in Hd as (p1 & Hu & Hd).
    destruct (decide (k0 = k)) as [->|Hne]; [|apply Hcontra, (Hother _ _ Hne Hd)].
    rewrite Hk in Hp0. injection Hp0 as <-. apply (Hwork p1 ps); [|done|done].
    apply instance_event_update_Ret_inv in Hu
      as (ps0 & Hps0 & Hlive & x & n & _ & _ & _ & [->| ->]); [done|].
    simpl. rewrite list_lookup_alter_ne; [done|]. intros <-.
    rewrite Hj in Hps0. injection Hps0 as <-. destruct Hs, Hlive; congruence.
  - unfold process_statement_instance_handler_died in Hd.
    apply bind_Ret in Hd as (p0 & Hp0%get_process_Ret & Hd).
    apply bind_Ret in Hd as (p1 & Hu & Hd).
    destruct (decide (k0 = k)) as [->|Hne]; [|apply Hcontra, (Hother _ _ Hne Hd)].
    rewrite Hk in Hp0. injection Hp0 as <-.
    apply instance_died_update_Ret_inv in Hu as (ps0 & n & m & Hps0 & Hlive & ->).
    destruct (decide (i = j)) as [->|Hne].
    + refine (Hwork _ (died_slot E b ps0) _ _ Hd); [|rewrite state_died_slot; done].
      simpl. rewrite list_lookup_alter_eq, Hps0. done.
    + refine (Hwork _ ps _ Hnc Hd).
      simpl. rewrite list_lookup_alter_ne by done. done.
  - rewrite (signal_handler_latches _ _ _ Hd) in Hterm'. done.
Qed.

Lemma initialised_in_order_witness :
  let p' := ex_proc ex_both_alive in
  ap p' = 1 + 1 ∧ fp p' = 1 + 1 ∧ wait_timer p' = None ∧
  is_Some (inst_args (ex_slot ex_both_alive 1)) ∧
  ∀ i, i < 1 → sst p' i = Some SSTATE_ADULT.
Proof.
  intros p'.
  apply (initialised_in_order
           (ex_state []).1 (ex_state []).2
           (EV_instance_event 0 0 NCDMODULE_EVENT_UP) (ex_env 1 true)
           (ex_state ex_both_alive).2 0 (ex_proc []) p' 1
           (ex_slot [] 1) (ex_slot ex_both_alive 1)).
  - apply ex_state_reachable. vm_compute. eauto.
  - vm_compute. reflexivity.
  - vm_compute. reflexivity.
  - vm_compute. reflexivity.
  - vm_compute. reflexivity.
  - vm_compute. reflexivity.
  - vm_compute. reflexivity.
  - vm_compute. reflexivity.
  - vm_compute. reflexivity.
  - left. vm_compute. reflexivity.
  - vm_compute. reflexivity.
Defined.

(** ** Shutdown makes progress *)

Lemma sum_list_with_alter {A} (w : A → nat) f i l x :
  l !! i = Some x →
  sum_list_with w (alter f i l) + w x = sum_list_with w l + w (f x).
Proof.
  revert i. induction l as [|y l IH]; intros [|i] Hi; try done.
  - injection Hi as ->. cbn. lia.
  - specialize (IH i Hi). cbn. rewrite <- !Nat.add_assoc. f_equal. exact IH.
Qed.

Lemma sum_list_with_insert {A} (w : A → nat) i l x y :
  l !! i = Some x →
  sum_list_with w (<[i:=y]> l) + w x = sum_list_with w l + w y.
Proof.
  revert i. induction l as [|z l IH]; intros [|i] Hi; try done.
  - injection Hi as ->. cbn. lia.
  - specialize (IH i Hi). cbn. rewrite <- !Nat.add_assoc. f_equal. exact IH.
Qed.

Lemma sum_list_with_delete {A} (w : A → nat) i l x :
  l !! i = Some x → sum_list_with w (delete i l) + w x = sum_list_with w l.
Proof.
  revert i. induction l as [|z l IH]; intros [|i] Hi; try done.
  - injection Hi as ->. cbn. lia.
  - specialize (IH i Hi). cbn. rewrite <- !Nat.add_assoc. f_equal. exact IH.
Qed.

Lemma sum_list_with_zero {A} (w : A → nat) l :
  (∀ i x, l !! i = Some x → w x = 0) → sum_list_with w l = 0.
Proof.
  induction l as [|y l IH]; intros H; cbn; [done|].
  rewrite (H 0 y eq_refl), IH; [done|]. intros i x Hi. apply (H (S i) x Hi).
Qed.

Lemma sum_list_with_ge {A} (w : A → nat) l :
  (∀ i x, l !! i = Some x → 1 ≤ w x) → length l ≤ sum_list_with w l.
Proof.
  induction l as [|y l IH]; intros H; cbn; [done|].
  pose proof (H 0 y eq_refl).
  assert (length l ≤ sum_list_with w l); [|lia].
  apply IH. intros i x Hi. apply (H (S i) x Hi).
Qed.

Lemma live_FORGOTTEN ps : state ps = SSTATE_FORGOTTEN → live ps = 0.
Proof. intros H. unfold live, is_state. rewrite H. done. Qed.

Lemma live_not_FORGOTTEN ps : state ps ≠ SSTATE_FORGOTTEN → live ps = 1.
Proof. intros H%is_state_false. unfold live. rewrite H. done. Qed.

Lemma live_slots_upd p i f ps :
  statements p !! i = Some ps →
  live_slots (upd_stmt i f p) + live ps = live_slots p + live (f ps).
Proof. intros H. apply (sum_list_with_alter live f i _ ps H). Qed.

Lemma live_slots_retreat q :
  pointers_ok q →
  match retreat_step q with
  | Some p' => live_slots p' = live_slots q
  | None => live_slots q = 0
  end.
Proof.
  intros Hok. unfold retreat_step. destruct (fp q) as [|i] eqn:Hfp.
  - apply sum_list_with_zero. intros i ps Hi. apply live_FORGOTTEN.
    assert (Hf : sst q i = Some SSTATE_FORGOTTEN).
    { apply (po_above _ Hok); [lia|apply (lookup_lt_Some _ _ _ Hi)]. }
    apply sst_Some in Hf as (ps' & Hps' & Hf). congruence.
  - destruct (statements q !! i) as [ps|] eqn:Hps; [|done].
    destruct (is_state SSTATE_DYING ps); [done|]. cbv zeta.
    assert (Hl : live_slots (upd_stmt i (set_state SSTATE_DYING) q) = live_slots q).
    { pose proof (live_slots_upd q i (set_state SSTATE_DYING) ps Hps) as H.
      rewrite (live_not_FORGOTTEN ps) in H.
      - rewrite (live_not_FORGOTTEN (set_state SSTATE_DYING ps)) in H by done. lia.
      - intros Hf. apply (po_top _ Hok i); [lia|]. apply sst_Some. eauto. }
    destruct (i <? _); exact Hl.
Qed.

Lemma live_slots_event p i ev p1 :
  instance_event_update p i ev = Ret p1 → live_slots p1 = live_slots p.
Proof.
  intros H. apply instance_event_update_Ret_inv in H
    as (ps & Hps & Hlive & x & n & Hx & _ & _ & [->| ->]); [done|].
  change (live_slots (upd_stmt i (set_state x) p) = live_slots p).
  pose proof (live_slots_upd p i (set_state x) ps Hps) as H.
  rewrite (live_not_FORGOTTEN ps) in H by (destruct Hlive; congruence).
  rewrite (live_not_FORGOTTEN (set_state x ps)) in H by done. lia.
Qed.

Lemma live_slots_died E p i b p1 :
  instance_died_update E p i b = Ret p1 → live_slots p1 + 1 = live_slots p.
Proof.
  intros H. apply instance_died_update_Ret_inv in H as (ps & n & m & Hps & Hlive & ->).
  change (live_slots (upd_stmt i (λ _, died_slot E b ps) p) + 1 = live_slots p).
  pose proof (live_slots_upd p i (λ _, died_slot E b ps) ps Hps) as H.
  rewrite (live_not_FORGOTTEN ps) in H by done.
  rewrite (live_FORGOTTEN (died_slot E b ps)) in H by apply state_died_slot. lia.
Qed.

Lemma live_instances_work k E p p1 g g' :
  processes g !! k = Some p → terminating g = true →
  process_work k E (set_process k p1 g) = Ret g' →
  live_instances g' + live_slots p = live_instances g + live_slots p1.
Proof.
  intros Hk Hterm Hw. pose proof (lookup_lt_Some _ _ _ Hk) as Hlen.
  apply process_work_Ret_inv in Hw as (q & Hq & Hok & _ & Hw).
  simpl in Hq, Hw. rewrite list_lookup_insert_eq in Hq by done. injection Hq as <-.
  rewrite Hterm in Hw.
  pose proof (live_slots_retreat (set_timer None p1) (pointers_ok_set_timer _ _ Hok))
    as Hl.
  change (live_slots (set_timer None p1)) with (live_slots p1) in Hl.
  unfold live_instances.
  destruct (retreat_step (set_timer None p1)) as [p'|].
  - destruct Hw as [-> _]. rewrite list_insert_insert_eq.
    pose proof (sum_list_with_insert live_slots k _ p p' Hk). lia.
  - destruct Hw as [-> _]. rewrite delete_list_insert.
    pose proof (sum_list_with_delete live_slots k _ p Hk). lia.
Qed.

(** While the program is terminating, the number of module instances
    never grows: the death of an instance lowers it by one and every other
    callback leaves it as it is; every process that is left has an
    instance, so that the reactor is told to quit when the last instance
    has died. *)
Theorem shutdown_progress c g e E g' :
  reachable c g → terminating g = true → enabled c e E g = true →
  dispatch e E g = Ret g' →
  live_instances g' + (match e with EV_instance_died _ _ _ => 1 | _ => 0 end)
    = live_instances g ∧
  length (processes g') ≤ live_instances g' ∧
  (live_instances g' = 0 → quit g' = Some 1%Z).
Proof.
  intros Hr Hterm Hen Hd.
  assert (Hlen : length (processes g') ≤ live_instances g').
  { destruct (dispatch_inv c e E g (reachable_inv _ _ Hr) Hen) as (g'' & Hd' & Hinv).
    rewrite Hd in Hd'. injection Hd' as <-.
    apply sum_list_with_ge. intros i p Hi.
    pose proof (Forall_lookup_1 _ _ _ _ (si_processes _ _ Hinv) Hi) as Hp.
    rewrite (dispatch_terminating _ _ _ _ Hd Hterm) in Hp.
    destruct (process_inv_is_retreating _ _ Hp) as (_ & Hlt & Hdy).
    apply sst_Some in Hdy as (ps & Hps & Hdy).
    pose proof (sum_list_with_in ps live (statements p)
                  (list_elem_of_lookup_2 _ _ _ Hps)) as Hle.
    rewrite (live_not_FORGOTTEN ps) in Hle by congruence. exact Hle. }
  split; [|split; [done|]].
  - destruct e as [k|k i ev|k i b|]; simpl in Hd.
    + exfalso. unfold enabled in Hen. apply andb_true_iff in Hen as [_ Hen].
      destruct (processes g !! k) as [p|] eqn:Hk; [|done].
      destruct (wait_timer p) as [t|] eqn:Ht; [|done].
      pose proof (reachable_process_inv _ _ _ _ Hr Hk) as Hinv. rewrite Hterm in Hinv.
      destruct (pi_timer _ _ _ Hinv t Ht) as (Hf & _). done.
    + unfold process_statement_instance_handler_event in Hd.
      apply bind_Ret in Hd as (p & Hp%get_process_Ret & Hd).
      apply bind_Ret in Hd as (p1 & Hu & Hd).
      pose proof (live_instances_work _ _ _ _ _ _ Hp Hterm Hd).
      pose proof (live_slots_event _ _ _ _ Hu). lia.
    + unfold process_statement_instance_handler_died in Hd.
      apply bind_Ret in Hd as (p & Hp%get_process_Ret & Hd).
      apply bind_Ret in Hd as (p1 & Hu & Hd).
      pose proof (live_instances_work _ _ _ _ _ _ Hp Hterm Hd).
      pose proof (live_slots_died _ _ _ _ _ Hu). lia.
    + rewrite (signal_handler_ignored _ _ Hterm) in Hd. injection Hd as <-. lia.
  - intros Hz.
    pose proof (dispatch_quit _ _ _ _ (reachable_quit_consistent _ _ Hr) Hd) as Hq.
    unfold quit_consistent in Hq.
    destruct (quit g') as [code|]; [destruct Hq as (-> & _); done|].
    destruct Hq; [apply (dispatch_terminating _ _ _ _ Hd Hterm)|].
    destruct (processes g'); [done|simpl in Hlen; lia].
Qed.

Lemma shutdown_progress_witness :
  let g := (ex_state (ex_both_alive ++ [(EV_signal, ex_env 2 true)])).2 in
  let e := EV_instance_died 0 1 false in
  let g' := (ex_state (ex_both_alive ++ [(EV_signal, ex_env 2 true);
                                         (e, ex_env 3 true)])).2 in
  live_instances g' + 1 = live_instances g ∧
  length (processes g') ≤ live_instances g' ∧
  (live_instances g' = 0 → quit g' = Some 1%Z).
Proof.
  intros g e g'.
  apply (shutdown_progress
           (ex_state (ex_both_alive ++ [(EV_signal, ex_env 2 true)])).1
           g e (ex_env 3 true) g').
  - apply ex_state_reachable. vm_compute. eauto.
  - vm_compute. reflexivity.
  - vm_compute. reflexivity.
  - vm_compute. reflexivity.
Defined.

(** ** Instances are ordered to die from the top *)

Lemma advance_new_dying E q p' j ps ps' :
  process_advance E q = Ret p' → statements q !! j = Some ps →
  statements p' !! j = Some ps' → state ps' = SSTATE_DYING →
  state ps = SSTATE_DYING.
Proof.
  intros H Hj Hj' Hd.
  apply process_advance_Ret_inv in H as (_ & _ & [[_ ->]|(ps0 & Hps0 & H)]).
  { congruence. }
  destruct H as [(_ & _ & ->)|(_ & [(args & _ & ->)|(Hf & _ & ->)])];
    simpl in Hj'; [congruence| |].
  - destruct (decide (ap q = j)) as [<-|Hne].
    + rewrite list_lookup_alter_eq, Hps0 in Hj'. injection Hj' as <-. done.
    + rewrite list_lookup_alter_ne in Hj' by done. congruence.
  - destruct (decide (ap q = j)) as [<-|Hne].
    + rewrite list_lookup_alter_eq, Hps0 in Hj'. injection Hj' as <-.
      simpl in Hd. congruence.
    + rewrite list_lookup_alter_ne in Hj' by done. congruence.
Qed.

Lemma fight_new_dying E q p' j ps ps' :
  pointers_ok q → process_fight E q = Ret p' → statements q !! j = Some ps →
  statements p' !! j = Some ps' → state ps ≠ SSTATE_DYING →
  state ps' = SSTATE_DYING →
  fp p' = j + 1 ∧ ap p' ≤ j.
Proof.
  intros Hok H Hj Hj' Hnd Hd.
  apply process_fight_Ret_inv in H as [(_ & [(_ & _ & ->)|H])|H]; [congruence| |].
  - destruct Hnd. apply (advance_new_dying _ _ _ _ _ _ H Hj Hj' Hd).
  - destruct H as (Hne & i & ps0 & Hfp & Hps0 & [(_ & ->)|(_ & ->)]); [congruence|].
    simpl in Hj'. destruct (decide (i = j)) as [->|Hne'].
    + simpl. pose proof (po_ap_fp _ Hok). lia.
    + rewrite list_lookup_alter_ne in Hj' by done. congruence.
Qed.

Lemma retreat_new_dying q p' j ps ps' :
  retreat_step q = Some p' → statements q !! j = Some ps →
  statements p' !! j = Some ps' → state ps ≠ SSTATE_DYING →
  state ps' = SSTATE_DYING →
  fp p' = j + 1 ∧ ap p' ≤ j.
Proof.
  unfold retreat_step. intros H Hj Hj' Hnd Hd.
  destruct (fp q) as [|i] eqn:Hfp; [done|].
  destruct (statements q !! i) as [ps0|] eqn:Hps0; [|injection H as <-; congruence].
  destruct (is_state SSTATE_DYING ps0); injection H as <-; [congruence|].
  cbv zeta in Hj' |- *. simpl ap in *.
  assert (Hj'' : alter (set_state SSTATE_DYING) i (statements q) !! j = Some ps').
  { destruct (i <? ap q); exact Hj'. }
  destruct (decide (i = j)) as [->|Hne'].
  - destruct (Nat.ltb_spec j (ap q)); simpl; lia.
  - rewrite list_lookup_alter_ne in Hj'' by done. congruence.
Qed.

Lemma event_update_not_dying p i ev p1 j ps ps1 :
  instance_event_update p i ev = Ret p1 →
  (i = j → ev ≠ NCDMODULE_EVENT_DYING) →
  statements p !! j = Some ps → state ps ≠ SSTATE_DYING →
  statements p1 !! j = Some ps1 → state ps1 ≠ SSTATE_DYING.
Proof.
  unfold instance_event_update. intros H Hev Hj Hnd Hj1.
  apply bind_Ret in H as (ps0 & Hps0%get_stmt_Ret & H).
  apply bind_Ret in H as ([] & _ & H).
  assert (Hset : ∀ x n q, x ≠ SSTATE_DYING →
            statements q = statements (upd_stmt i (set_state x) p) →
            p1 = q ∨ p1 = set_ap n q → state ps1 ≠ SSTATE_DYING).
  { intros x n q Hx Hq Hp1.
    assert (Hs : statements p1 = alter (set_state x) i (statements p))
      by (destruct Hp1 as [-> | ->]; exact Hq).
    rewrite Hs in Hj1. destruct (decide (i = j)) as [->|Hne].
    - rewrite list_lookup_alter_eq, Hj in Hj1. injection Hj1 as <-. done.
    - rewrite list_lookup_alter_ne in Hj1 by done. congruence. }
  destruct ev.
  - apply bind_Ret in H as ([] & _ & [= <-]).
    apply (Hset SSTATE_ADULT 0 _ ltac:(done) eq_refl). auto.
  - apply bind_Ret in H as ([] & _ & [= <-]). cbv zeta in Hj1.
    apply (Hset SSTATE_CHILD (i + 1) (upd_stmt i (set_state SSTATE_CHILD) p)
             ltac:(done) eq_refl).
    destruct (i + 1 <? _); auto.
  - destruct (decide (i = j)) as [->|Hne]; [destruct (Hev eq_refl eq_refl)|].
    apply bind_Ret in H as ([] & _ & [= <-]). cbv zeta in Hj1.
    assert (Hs : statements p !! j = Some ps1).
    { destruct (i <? _); simpl in Hj1;
        rewrite list_lookup_alter_ne in Hj1 by done; done. }
    congruence.
  - injection H as <-. congruence.
Qed.

Lemma length_omap_le {A B} (f : A → option B) l : length (omap f l) ≤ length l.
Proof.
  induction l as [|x l IH]; [done|]. cbn. destruct (f x); simpl; lia.
Qed.

Lemma omap_lookup_same_length {A B} (f : A → option B) l k x :
  length (omap f l) = length l → l !! k = Some x → omap f l !! k = f x.
Proof.
  revert k. induction l as [|y l IH]; intros k Hlen Hk; [done|].
  pose proof (length_omap_le f l) as Hle. cbn in Hlen |- *.
  destruct (f y) as [z|] eqn:Hy; simpl in Hlen; [|lia].
  destruct k as [|k]; simpl in Hk |- *.
  - injection Hk as ->. done.
  - apply IH; [lia|done].
Qed.

(** The supervisor orders an instance to die only from the top: when a
    callback in which no process is freed turns a slot DYING, and is not
    the DYING event of that slot itself, then the slot is the one below
    FP, AP is not above it, and every slot after it is FORGOTTEN. *)
Theorem killed_from_the_top c g e E g' k p p' j ps ps' :
  reachable c g → enabled c e E g = true → dispatch e E g = Ret g' →
  length (processes g') = length (processes g) →
  processes g !! k = Some p → processes g' !! k = Some p' →
  statements p !! j = Some ps → statements p' !! j = Some ps' →
  state ps ≠ SSTATE_DYING → state ps' = SSTATE_DYING →
  e ≠ EV_instance_event k j NCDMODULE_EVENT_DYING →
  fp p' = j + 1 ∧ ap p' ≤ j ∧
  ∀ i, j < i → i < num_statements p' → sst p' i = Some SSTATE_FORGOTTEN.
Proof.
  intros Hr Hen Hd Hlen Hk Hk' Hj Hj' Hnd Hdy He.
  pose proof (lookup_lt_Some _ _ _ Hk) as Hlt.
  cut (fp p' = j + 1 ∧ ap p' ≤ j).
  { intros [Hfp Hap]. split; [done|]. split; [done|].
    destruct (dispatch_inv c e E g (reachable_inv _ _ Hr) Hen) as (g'' & Hd' & Hinv).
    rewrite Hd in Hd'. injection Hd' as <-.
    pose proof (Forall_lookup_1 _ _ _ _ (si_processes _ _ Hinv) Hk') as Hp'.
    intros i Hi Hn. apply (po_above _ (pi_pointers _ _ _ Hp')); [lia|done]. }
  assert (Hwork : ∀ p1 ps1, statements p1 !! j = Some ps1 →
            state ps1 ≠ SSTATE_DYING →
            process_work k E (set_process k p1 g) = Ret g' →
            fp p' = j + 1 ∧ ap p' ≤ j).
  { intros p1 ps1 Hj1 Hnd1 Hw.
    apply process_work_Ret_inv in Hw as (q & Hq1 & Hok & _ & Hw).
    simpl in Hq1, Hw. rewrite list_lookup_insert_eq in Hq1 by done.
    injection Hq1 as <-. apply (pointers_ok_set_timer None) in Hok.
    destruct (terminating g).
    - destruct (retreat_step (set_timer None p1)) as [p2|] eqn:Hr2.
      + destruct Hw as [Hpr _].
        rewrite Hpr, list_lookup_insert_eq in Hk' by (rewrite length_insert; done).
        injection Hk' as ->.
        apply (retreat_new_dying _ _ _ _ _ Hr2 Hj1 Hj' Hnd1 Hdy).
      + destruct Hw as [Hpr _]. rewrite Hpr, length_delete in Hlen.
        * rewrite length_insert in Hlen. lia.
        * apply lookup_lt_is_Some_2. rewrite length_insert. done.
    - destruct Hw as (p2 & Hfight & Hpr & _).
      rewrite Hpr, list_lookup_insert_eq in Hk' by (rewrite length_insert; done).
      injection Hk' as ->.
      apply (fight_new_dying _ _ _ _ _ _ Hok Hfight Hj1 Hj' Hnd1 Hdy). }
  assert (Hother : ∀ k0 p1, k0 ≠ k →
            process_work k0 E (set_process k0 p1 g) = Ret g' → p' = p).
  { intros k0 p1 Hne Hw. apply process_work_Ret_inv in Hw as (q & Hq & _ & _ & Hw).
    pose proof (lookup_lt_Some _ _ _ Hq) as Hlt0.
    assert (∃ p2, processes g' = <[k0:=p2]> (processes (set_process k0 p1 g)))
      as [p2 Hpr].
    { destruct (terminating (set_process k0 p1 g)).
      - destruct (retreat_step (set_timer None q)) as [p2|]; [exists p2; apply Hw|].
        destruct Hw as [Hpr _]. rewrite Hpr, length_delete in Hlen by eauto.
        simpl in Hlen. rewrite length_insert in Hlen. simpl in Hlt0.
        rewrite length_insert in Hlt0. lia.
      - destruct Hw as (p2 & _ & Hpr & _). eauto. }
    rewrite Hpr in Hk'. simpl in Hk'.
    rewrite !list_lookup_insert_ne in Hk' by done. congruence. }
  assert (Hcontra : p' = p → fp p' = j + 1 ∧ ap p' ≤ j).
  { intros ->. congruence. }
  destruct e as [k0|k0 i ev|k0 i b|]; simpl in Hd.
  - apply bind_Ret in Hd as (p0 & Hp0%get_process_Ret & Hd).
    apply bind_Ret in Hd as (p2 & Hh & [= <-]). simpl in Hk'.
    destruct (decide (k0 = k)) as [->|Hne].
    + rewrite Hk in Hp0. injection Hp0 as <-.
      rewrite list_lookup_insert_eq in Hk' by done. injection Hk' as ->.
      apply process_wait_timer_handler_eq in Hh as (ps0 & Hps0 & _ & Hadv).
      simpl in Hps0, Hadv. destruct Hnd.
      assert (∃ ps1, statements
                (upd_stmt (ap p) (set_have_error false) (set_timer None p)) !! j
                = Some ps1 ∧ state ps1 = state ps) as (ps1 & Hj1 & Hs1).
      { simpl. destruct (decide (ap p = j)) as [<-|Hne].
        - rewrite list_lookup_alter_eq, Hj. simpl. eauto.
        - rewrite list_lookup_alter_ne by done. eauto. }
      rewrite <- Hs1. apply (advance_new_dying _ _ _ _ _ _ Hadv Hj1 Hj' Hdy).
    + rewrite list_lookup_insert_ne in Hk' by done. apply Hcontra. congruence.
  - unfold process_statement_instance_handler_event in Hd.
    apply bind_Ret in Hd as (p0 & Hp0%get_process_Ret & Hd).
    apply bind_Ret in Hd as (p1 & Hu & Hd).
    destruct (decide (k0 = k)) as [->|Hne]; [|apply Hcontra, (Hother _ _ Hne Hd)].
    rewrite Hk in Hp0. injection Hp0 as <-.
    assert (∃ ps1, statements p1 !! j = Some ps1) as [ps1 Hj1].
    { apply lookup_lt_is_Some_2.
      pose proof (same_templates_event _ _ _ _ Hu) as [_ Hs].
      apply (f_equal length) in Hs. rewrite !length_fmap in Hs. rewrite Hs.
      apply (lookup_lt_Some _ _ _ Hj). }
    refine (Hwork p1 ps1 Hj1 _ Hd).
    apply (event_update_not_dying p i ev p1 j ps ps1 Hu); [|done|done|done].
    intros -> ->. done.
  - unfold process_statement_instance_handler_died in Hd.
    apply bind_Ret in Hd as (p0 & Hp0%get_process_Ret & Hd).
    apply bind_Ret in Hd as (p1 & Hu & Hd).
    destruct (decide (k0 = k)) as [->|Hne]; [|apply Hcontra, (Hother _ _ Hne Hd)].
    rewrite Hk in Hp0. injection Hp0 as <-.
    apply instance_died_update_Ret_inv in Hu as (ps0 & n & m & Hps0 & Hlive & ->).
    destruct (decide (i = j)) as [->|Hne].
    + refine (Hwork _ (died_slot E b ps0) _ _ Hd); [|rewrite state_died_slot; done].
      simpl. rewrite list_lookup_alter_eq, Hps0. done.
    + refine (Hwork _ ps _ Hnd Hd).
      simpl. rewrite list_lookup_alter_ne by done. done.
  - destruct (terminating g) eqn:Hterm.
    { rewrite (signal_handler_ignored _ _ Hterm) in Hd. injection Hd as <-.
      apply Hcontra. congruence. }
    pose proof (signal_handler_omap _ _ _ Hd Hterm) as Hpr.
    rewrite Hpr in Hlen, Hk'.
    rewrite (omap_lookup_same_length _ _ _ _ Hlen Hk) in Hk'.
    apply (retreat_new_dying _ _ _ _ _ Hk' Hj Hj' Hnd Hdy).
Qed.

Lemma killed_from_the_top_witness :
  let e := EV_instance_event 0 0 NCDMODULE_EVENT_DOWN in
  let p' := ex_proc (ex_both_alive ++ [(e, ex_env 2 true)]) in
  fp p' = 1 + 1 ∧ ap p' ≤ 1 ∧
  ∀ i, 1 < i → i < num_statements p' → sst p' i = Some SSTATE_FORGOTTEN.
Proof.
  intros e p'.
  apply (killed_from_the_top
           (ex_state ex_both_alive).1 (ex_state ex_both_alive).2 e (ex_env 2 true)
           (ex_state (ex_both_alive ++ [(e, ex_env 2 true)])).2 0
           (ex_proc ex_both_alive) p' 1
           (ex_slot ex_both_alive 1)
           (ex_slot (ex_both_alive ++ [(e, ex_env 2 true)]) 1)).
  - apply ex_state_reachable. vm_compute. eauto.
  - vm_compute. reflexivity.
  - vm_compute. reflexivity.
  - vm_compute. reflexivity.
  - vm_compute. reflexivity.
  - vm_compute. reflexivity.
  - vm_compute. reflexivity.
  - vm_compute. reflexivity.
  - vm_compute. discriminate.
  - vm_compute. reflexivity.
  - discriminate.
Defined.

(** ** The retry timer *)

(** When the retry timer of a process fires, the statement at AP is
    tried again at once, whatever its [error_until]: after the callback
    it is CHILD and AP and FP have moved past it, or it has failed again
    and the timer runs for another [RETRY_TIME]. *)
Theorem retry_timer_retries k E g g' p :
  dispatch (EV_wait_timer k) E g = Ret g' → processes g !! k = Some p →
  ∃ p' ps', processes g' !! k = Some p' ∧ statements p' !! ap p = Some ps' ∧
    ((state ps' = SSTATE_CHILD ∧ is_Some (inst_args ps') ∧
      ap p' = ap p + 1 ∧ fp p' = ap p + 1 ∧ wait_timer p' = None) ∨
     (state ps' = SSTATE_FORGOTTEN ∧ have_error ps' = true ∧
      error_until ps' = (btime_gettime E + RETRY_TIME)%Z ∧
      ap p' = ap p ∧ fp p' = ap p ∧
      wait_timer p' = Some (btime_gettime E + RETRY_TIME)%Z)).
Proof.
  intros Hd Hk. simpl in Hd.
  apply bind_Ret in Hd as (p0 & Hp0%get_process_Ret & Hd).
  rewrite Hk in Hp0. injection Hp0 as <-.
  apply bind_Ret in Hd as (p' & Hh & [= <-]).
  exists p'. simpl. rewrite list_lookup_insert_eq by apply (lookup_lt_Some _ _ _ Hk).
  apply process_wait_timer_handler_eq in Hh as (ps & Hps & _ & Hadv).
  simpl in Hps, Hadv.
  apply process_advance_Ret_inv in Hadv as (Hap & _ & [[Hn _]|(ps0 & Hps0 & Hadv)]).
  { apply lookup_lt_Some in Hps. simpl in Hn. rewrite num_upd in Hn.
    unfold num_statements in Hn. simpl in Hn. lia. }
  simpl in Hps0, Hap. rewrite list_lookup_alter_eq, Hps in Hps0. injection Hps0 as <-.
  destruct Hadv as [(Herr & _)|(_ & [(args & _ & ->)|(Hf & _ & ->)])]; [done| |].
  - eexists. split; [done|]. split.
    + simpl. rewrite list_lookup_alter_eq, list_lookup_alter_eq, Hps. done.
    + left. simpl. split_and!; eauto; lia.
  - eexists. split; [done|]. split.
    + simpl. rewrite list_lookup_alter_eq, list_lookup_alter_eq, Hps. done.
    + right. simpl. split_and!; auto.
Qed.

Lemma retry_timer_retries_witness :
  let E := ex_env 5001 false in
  let g' := (ex_state (ex_waiting ++ [(EV_wait_timer 0, E)])).2 in
  let p := ex_proc ex_waiting in
  ∃ p' ps', processes g' !! 0 = Some p' ∧ statements p' !! ap p = Some ps' ∧
    ((state ps' = SSTATE_CHILD ∧ is_Some (inst_args ps') ∧
      ap p' = ap p + 1 ∧ fp p' = ap p + 1 ∧ wait_timer p' = None) ∨
     (state ps' = SSTATE_FORGOTTEN ∧ have_error ps' = true ∧
      error_until ps' = (btime_gettime E + RETRY_TIME)%Z ∧
      ap p' = ap p ∧ fp p' = ap p ∧
      wait_timer p' = Some (btime_gettime E + RETRY_TIME)%Z)).
Proof.
  intros E g' p.
  apply (retry_timer_retries 0 E (ex_state ex_waiting).2 g' p).
  - vm_compute. reflexivity.
  - vm_compute. reflexivity.
Defined.

(** ** A successful advance *)

(** When the statement at AP is attempted, every argument gets its value
    and is appended, and [NCDModuleInst_Init] succeeds with the list of
    these values in the order of the arguments, then the slot becomes
    CHILD and holds that list, AP and FP move past it, and nothing else
    changes: not the timer, not the other slots, and not the error flag
    of the slot, which [process_advance] does not clear. *)
Theorem advance_succeeds E p ps vs :
  process_assert_pointers p = Ret () → ap p = fp p →
  ASSERT_below_adult p = Ret () →
  statements p !! ap p = Some ps →
  have_error ps && (btime_gettime E <? error_until ps)%Z = false →
  args_materialised E p (first_arg (s ps)) vs →
  NCDModuleInst_Init E (ap p) vs = true →
  ∃ p' ps',
    process_advance E p = Ret p' ∧
    statements p' !! ap p = Some ps' ∧
    state ps' = SSTATE_CHILD ∧ inst_args ps' = Some vs ∧
    s ps' = s ps ∧ have_error ps' = have_error ps ∧
    error_until ps' = error_until ps ∧
    ap p' = ap p + 1 ∧ fp p' = fp p + 1 ∧
    wait_timer p' = wait_timer p ∧ p_name p' = p_name p ∧
    num_statements p' = num_statements p ∧
    (∀ j, j ≠ ap p → statements p' !! j = statements p !! j).
Proof.
  intros Hp Hap Hb Hps Hw Hargs Hinit.
  pose proof (advance_pre_asserts p Hp Hap Hb) as Hpre.
  rewrite (process_advance_eq E p ps Hpre Hps), Hw.
  rewrite (advance_try_succeeds E p ps vs Hpre Hargs Hinit).
  eexists _, (set_state SSTATE_CHILD (set_inst_args (Some vs) ps)).
  split; [reflexivity|]. simpl.
  split_and!; try reflexivity.
  - rewrite list_lookup_alter_eq, Hps; done.
  - unfold num_statements; simpl. apply length_alter.
  - intros j Hj. apply list_lookup_alter_ne; done.
Qed.

(** The first callback of [ex_both_alive]: [a] is ADULT and [b], at AP,
    gets the value of [a.x] and is initialised. *)
Lemma advance_succeeds_witness :
  let E := ex_env 1 true in
  let p := set_ap 1 (upd_stmt 0 (set_state SSTATE_ADULT) (ex_proc [])) in
  ∃ p' ps',
    process_advance E p = Ret p' ∧
    statements p' !! ap p = Some ps' ∧
    state ps' = SSTATE_CHILD ∧ inst_args ps' = Some [NCDValue_String "v"] ∧
    s ps' = s (ex_slot [] 1) ∧ have_error ps' = have_error (ex_slot [] 1) ∧
    error_until ps' = error_until (ex_slot [] 1) ∧
    ap p' = ap p + 1 ∧ fp p' = fp p + 1 ∧
    wait_timer p' = wait_timer p ∧ p_name p' = p_name p ∧
    num_statements p' = num_statements p ∧
    (∀ j, j ≠ ap p → statements p' !! j = statements p !! j).
Proof.
  intros E p.
  apply (advance_succeeds E p (ex_slot [] 1) [NCDValue_String "v"]);
    try reflexivity.
  split; [reflexivity|]. intros n a Hn.
  destruct n as [|n]; [|destruct n; discriminate Hn].
  vm_compute in Hn. injection Hn as <-.
  exists (NCDValue_String "v"). split_and!; try reflexivity.
  exists 0, (ex_slot ex_both_alive 0). split_and!; try reflexivity.
  - vm_compute. lia.
  - intros j' rps' H1 H2. vm_compute in H2. lia.
Defined.

(** ** The died handler before process_work *)

(** The part of the died handler before [process_work], on a slot with
    an instance in a state of the event loop: the slot becomes FORGOTTEN
    and loses its argument list; [have_error] is the [is_error] of the
    callback, and with an error [error_until] is the time of the clock
    plus RETRY_TIME; no other slot changes; AP is lowered to the slot
    when it was above; FP is left when the slot was not the last one
    below it, and is otherwise lowered past the slot, down to the last
    slot that is not FORGOTTEN; and the pointers are again as
    [process_assert_pointers] wants them. *)
Theorem died_handler_update c g k p i is_error E ps :
  reachable c g → processes g !! k = Some p →
  statements p !! i = Some ps → state ps ≠ SSTATE_FORGOTTEN →
  ∃ p1 ps1,
    instance_died_update E p i is_error = Ret p1 ∧
    process_assert_pointers p1 = Ret () ∧
    statements p1 !! i = Some ps1 ∧
    s ps1 = s ps ∧ state ps1 = SSTATE_FORGOTTEN ∧ inst_args ps1 = None ∧
    have_error ps1 = is_error ∧
    error_until ps1 =
      (if is_error then btime_gettime E + RETRY_TIME else error_until ps)%Z ∧
    (∀ j, j ≠ i → statements p1 !! j = statements p !! j) ∧
    ap p1 = ap p `min` i ∧
    (i + 1 < fp p → fp p1 = fp p) ∧ (i + 1 = fp p → fp p1 ≤ i) ∧
    (∀ j, fp p1 ≤ j → j < num_statements p1 →
          sst p1 j = Some SSTATE_FORGOTTEN) ∧
    wait_timer p1 = wait_timer p ∧ p_name p1 = p_name p.
Proof.
  intros Hr Hk Hps Hlive.
  pose proof (reachable_process_inv _ _ _ _ Hr Hk) as [Hp He _ _ _ _].
  destruct (instance_died_update_spec E c p i is_error ps Hp He Hps Hlive)
    as (p1 & Hu & Hp1 & _).
  exists p1, (died_slot E is_error ps). split; [done|].
  split; [apply process_assert_pointers_spec; done|].
  rewrite (instance_died_update_Ret E p i is_error ps Hps Hlive) in Hu.
  injection Hu as Hu. cbv zeta in Hu.
  set (f := fun _ : process_statement => died_slot E is_error ps) in *.
  assert (Hst : statements p1 = alter f i (statements p)).
  { rewrite <- Hu. simpl. destruct (i <? ap p); done. }
  assert (Hap : ap p1 = ap p `min` i).
  { rewrite <- Hu. simpl. destruct (Nat.ltb_spec i (ap p)); simpl; lia. }
  assert (Hfp : fp p1 = scan_FP (alter f i (statements p)) (fp p)).
  { rewrite <- Hu. simpl. destruct (i <? ap p); done. }
  split_and!.
  - rewrite Hst, list_lookup_alter_eq, Hps. done.
  - unfold died_slot. destruct is_error; done.
  - apply state_died_slot.
  - unfold died_slot. destruct is_error; done.
  - unfold died_slot. destruct is_error; done.
  - unfold died_slot. destruct is_error; done.
  - intros j Hj. rewrite Hst. apply list_lookup_alter_ne. done.
  - done.
  - intros Hlt. rewrite Hfp.
    pose proof (po_fp_num _ Hp) as Hn. unfold num_statements in Hn.
    apply scan_FP_unique; [lia|intros; lia| |rewrite length_alter; done].
    intros j q Hj Hq. rewrite list_lookup_alter_ne in Hq by lia.
    intros Hf. apply (po_top _ Hp j Hj). apply sst_Some. eauto.
  - intros Heq. rewrite Hfp. rewrite <- Heq.
    replace (i + 1) with (S i) by lia. simpl.
    rewrite list_lookup_alter_eq, Hps. subst f. simpl.
    replace (is_state SSTATE_FORGOTTEN (died_slot E is_error ps)) with true
      by (symmetry; apply is_state_true, state_died_slot).
    apply scan_FP_le.
  - apply (po_above _ Hp1).
  - rewrite <- Hu. simpl. destruct (i <? ap p); done.
  - rewrite <- Hu. simpl. destruct (i <? ap p); done.
Qed.

(** The death, with an error, of the instance of [a] while [b] is
    alive. *)
Lemma died_handler_update_witness :
  let p := ex_proc ex_both_alive in
  let E := ex_env 3 true in
  ∃ p1 ps1,
    instance_died_update E p 0 true = Ret p1 ∧
    process_assert_pointers p1 = Ret () ∧
    statements p1 !! 0 = Some ps1 ∧
    s ps1 = s (ex_slot ex_both_alive 0) ∧ state ps1 = SSTATE_FORGOTTEN ∧
    inst_args ps1 = None ∧ have_error ps1 = true ∧
    error_until ps1 = (btime_gettime E + RETRY_TIME)%Z ∧
    (∀ j, j ≠ 0 → statements p1 !! j = statements p !! j) ∧
    ap p1 = ap p `min` 0 ∧
    (0 + 1 < fp p → fp p1 = fp p) ∧ (0 + 1 = fp p → fp p1 ≤ 0) ∧
    (∀ j, fp p1 ≤ j → j < num_statements p1 →
          sst p1 j = Some SSTATE_FORGOTTEN) ∧
    wait_timer p1 = wait_timer p ∧ p_name p1 = p_name p.
Proof.
  intros p E.
  apply (died_handler_update (ex_state ex_both_alive).1 (ex_state ex_both_alive).2
           0 p 0 true E (ex_slot ex_both_alive 0)).
  - apply ex_state_reachable. vm_compute. eauto.
  - vm_compute. reflexivity.
  - vm_compute. reflexivity.
  - vm_compute. discriminate.
Defined.
